(** * Verification of the media-phone audio path

    A shallow embedding of the two audio worklets
    ([ULawDecoderProcessor] in [worklet/ulaw-decoder-processor.js],
    [ULawProcessor] in [worklet/ulaw-processor.js]) and of the session
    handling of [MediaPhone.tsx], with the properties of the design
    document stated over them. *)

From Stdlib Require Import String Ascii DecimalString.
From Stdlib Require Import ZArith QArith Qround Qabs List Bool Lia Lqa.
From Stdlib Require Import Sorting.Sorted Permutation.
Import ListNotations.

Local Open Scope Z_scope.

(** ** JavaScript number operations used by the worklets

    The bitwise operators of JavaScript work on 32-bit two's complement
    integers: each operand goes through [ToInt32] and the result is an
    [Int32] again.  Typed arrays wrap what is stored in them. *)

Module JS.

(** [ToInt32] on an integral value. *)
Definition toInt32 (z : Z) : Z := (z + 2 ^ 31) mod 2 ^ 32 - 2 ^ 31.

(** Storing into an [Int16Array] and into a [Uint8Array]. *)
Definition toInt16 (z : Z) : Z := (z + 2 ^ 15) mod 2 ^ 16 - 2 ^ 15.
Definition toUint8 (z : Z) : Z := z mod 2 ^ 8.

(** [~x], [x & y], [x | y], [x << s], [x >> s]. *)
Definition bnot (x : Z) : Z := toInt32 (Z.lnot (toInt32 x)).
Definition band (x y : Z) : Z := toInt32 (Z.land (toInt32 x) (toInt32 y)).
Definition bor (x y : Z) : Z := toInt32 (Z.lor (toInt32 x) (toInt32 y)).
Definition shl (x s : Z) : Z := toInt32 (Z.shiftl (toInt32 x) (Z.land s 31)).
Definition shr (x s : Z) : Z := Z.shiftr (toInt32 x) (Z.land s 31).

(** Truncation of a number towards zero, the first step of [ToInt32]
    on a number that is not integral. *)
Definition trunc (q : Q) : Z :=
  if Qle_bool 0 q then Qfloor q else Qceiling q.

(** [ToInt32] on an arbitrary finite number. *)
Definition toInt32Q (q : Q) : Z := toInt32 (trunc q).

(** [x < y] on numbers. *)
Definition ltb (x y : Q) : bool := negb (Qle_bool y x).

(** *** Binary64 rounding

    A JavaScript number is a binary64 value, and an arithmetic
    operator returns the binary64 value nearest to the exact result, a
    tie going to the value whose last significand bit is zero. *)

(** [2 ^ k] as a number, for every integer [k]. *)
Definition pow2 (k : Z) : Q :=
  if 0 <=? k then inject_Z (2 ^ k) else 1 # Z.to_pos (2 ^ (- k)).

(** Rounding to the nearest integer, a tie going to the even one. *)
Definition rne (q : Q) : Z :=
  let f := Qfloor q in
  match (q - inject_Z f ?= 1 # 2)%Q with
  | Lt => f
  | Gt => f + 1
  | Eq => if Z.even f then f else f + 1
  end.

(** The exponent [e] of a positive number [q]:
    [2 ^ e <= q < 2 ^ (e + 1)]. *)
Definition exponent (q : Q) : Z :=
  if Qle_bool 1 q then Z.log2 (Qfloor q) else - Z.log2_up (Qceiling (/ q)).

(** The binary64 value nearest to [q]: the significand has 53 bits, so
    the values around [q] are the multiples of [2 ^ (e - 52)], [e] the
    exponent of [|q|].  This is the rounding of the normal range,
    [2 ^ -1022 <= |q| < 2 ^ 1024]; the one number rounded in this
    development is a sum between 132 and 32767. *)
Definition round64 (q : Q) : Q :=
  if Qeq_bool q 0 then 0%Q
  else
    let ulp := pow2 (exponent (Qabs q) - 52) in
    let nearest := (inject_Z (rne (Qabs q / ulp)) * ulp)%Q in
    if Qle_bool 0 q then nearest else (- nearest)%Q.

End JS.

(** ** Samples

    A sample is a JavaScript number, a rational here.  The decoder's
    samples are dyadic rationals of small magnitude ([m / 32768] with
    [|m| < 2 ^ 15]), which binary floating point represents exactly,
    in single precision for the [Float32Array] channels as well, and
    the product of a single precision sample with [32767] has at most
    39 significant bits: the division of [decodeMuLaw] and the
    multiplication of the encoder's [process] are exact.  The sum
    [sample + BIAS] of [linearToUlaw] is not exact on every number; it
    is rounded as binary64 rounds it. *)

Definition Sample := Q.

(** ** The decoder's table and [decodeMuLaw] *)

Module MuLaw.

(** The body of the loop of [initMuLawTable] for the index [i]:
<<
    let val = ~i;
    let t = ((val & 0x0F) << 3) + 0x84;
    t <<= (val & 0x70) >> 4;
    this.muLawTable[i] = val & 0x80 ? 0x84 - t : t - 0x84;
>>
    The table is an [Int16Array]. *)
Definition muLawEntry (i : Z) : Z :=
  let val := JS.bnot i in
  let t := JS.shl (JS.band val 0x0F) 3 + 0x84 in
  let t := JS.shl t (JS.shr (JS.band val 0x70) 4) in
  JS.toInt16
    (if JS.band val 0x80 =? 0 then t - 0x84 else 0x84 - t).

(** The 256 values of a byte, in order. *)
Definition bytes : list Z := map Z.of_nat (seq 0 256).

(** [initMuLawTable]: the 256 entries, in index order. *)
Definition initMuLawTable : list Z :=
  map (fun i => muLawEntry (Z.of_nat i)) (seq 0 256).

Definition muLawTable : list Z := Eval vm_compute in initMuLawTable.

(** [this.muLawTable[b]]; an index outside the table reads
    [undefined], which is [None] here. *)
Definition tableLookup (b : Z) : option Z :=
  if (0 <=? b) && (b <? 256) then nth_error muLawTable (Z.to_nat b)
  else None.

(** [decodeMuLaw]: [this.muLawTable[muLawByte] / 32768.0].  The bytes
    come out of a [Uint8Array], so the index is always in the table;
    [undefined / 32768.0] would be [NaN], which has no counterpart in
    [Q], and the default is never reached on a byte. *)
Definition decodeMuLaw (muLawByte : Z) : Sample :=
  match tableLookup muLawByte with
  | Some v => inject_Z v / 32768
  | None => 0
  end%Q.

End MuLaw.

(** ** The encoder worklet, [ULawProcessor] *)

Module Encoder.

Definition BIAS : Z := 0x84.
Definition CLIP : Z := 32635.

(** The loop that finds the exponent:
<<
    let exponent = 7;
    for (let expMask = 0x4000; (sample & expMask) === 0 && exponent > 0; expMask >>= 1) {
        exponent--;
    }
>>
    The recursion is on [exponent], which the loop decrements until
    its guard [exponent > 0] fails. *)
Fixpoint exponentLoop (sample : Q) (expMask : Z) (exponent : nat) : nat :=
  match exponent with
  | O => O
  | S e =>
      if JS.band (JS.toInt32Q sample) expMask =? 0
      then exponentLoop sample (JS.shr expMask 1) e
      else exponent
  end.

(** [linearToUlaw(sample)].  [Math.abs] and the clipping are exact;
    [sample += BIAS] is a binary64 addition, which rounds its result;
    the bit operations that follow truncate that result to an
    integer. *)
Definition linearToUlaw (sample : Q) : Z :=
  let sign := if JS.ltb sample 0 then 0x80 else 0 in
  let sample := Qabs sample in
  let sample := if JS.ltb (inject_Z CLIP) sample then inject_Z CLIP else sample in
  let sample := JS.round64 (sample + inject_Z BIAS) in
  let exponent := Z.of_nat (exponentLoop sample 0x4000 7) in
  let mantissa := JS.band (JS.shr (JS.toInt32Q sample) (exponent + 3)) 0x0F in
  JS.band (JS.bnot (JS.bor (JS.bor sign (JS.shl exponent 4)) mantissa)) 0xFF.

(** The scaling of [process]: [const sample = channelData[i] * 32767]. *)
Definition scale (x : Sample) : Q := (x * 32767)%Q.

(** [process]: one byte per input sample, stored in a [Uint8Array]
    and posted to the main thread; nothing is posted when there is no
    input channel. *)
Definition process (input : option (list Sample)) : option (list Z) :=
  match input with
  | None => None
  | Some channelData =>
      Some (map (fun x => JS.toUint8 (linearToUlaw (scale x))) channelData)
  end.

(** The round trip of the design document on one byte:
    [encode(decode(b))]. *)
Definition roundTrip (b : Z) : Z :=
  linearToUlaw (scale (MuLaw.decodeMuLaw b)).

End Encoder.

(** ** The expansion of ITU-T G.711, mu-law

    A code byte is the complement of a sign bit, a three-bit segment
    number and a four-bit step number; its 16-bit linear value has the
    magnitude [(2 * step + 33) * 2 ^ (segment + 2) - 132]. *)

Module G711.

Definition expand (code : Z) : Z :=
  let c := 255 - code in
  let sign := c / 128 in
  let segment := (c / 16) mod 8 in
  let step := c mod 16 in
  let magnitude := (2 * step + 33) * 2 ^ (segment + 2) - 132 in
  if sign =? 1 then - magnitude else magnitude.

(** The least and the greatest value of a table. *)
Definition least (table : list Z) : Z := fold_right Z.min 0 table.
Definition greatest (table : list Z) : Z := fold_right Z.max 0 table.

(** The asymmetry that the design document expects at the most
    extreme negative code: the least value of the table is not the
    opposite of its greatest value. *)
Definition asymmetric (table : list Z) : Prop :=
  least table <> - greatest table.

End G711.

(** ** The decoder worklet, [ULawDecoderProcessor] *)

Module Decoder.

(** An element of [bufferQueue]: the object literal pushed by
    [handleMessage]. *)
Module Buffer.
Record t := mk {
  data : list Z;
  markName : option string;
  sequenceNumber : Z
}.
End Buffer.

(** The fields of the processor.  [muLawTable] never changes after
    the constructor and is [MuLaw.muLawTable]. *)
Record state := mkState {
  bufferQueue : list Buffer.t;
  currentBuffer : option (list Z);
  bufferPosition : nat;
  currentMark : option string;
  isActive : bool;
  sequenceNumber : Z
}.

(** The state the constructor leaves. *)
Definition constructor : state :=
  {| bufferQueue := [];
     currentBuffer := None;
     bufferPosition := 0;
     currentMark := None;
     isActive := false;
     sequenceNumber := 0 |}.

(** [event.data] of a message received on the port.  A field that is
    absent ([undefined]) or [null] is [None]. *)
Inductive Message :=
| decode (ulawData : list Z) (markName : option string)
         (sequenceNumber : option Z)
| clear
| other.

(** What the processor posts to the main thread. *)
Inductive Post :=
| bufferQueued (bufferLength queueLength : nat)
| cleared
| bufferProcessed (markName : option string).

(** [event.data.markName || null]: the empty string is falsy. *)
Definition markOrNull (markName : option string) : option string :=
  match markName with
  | Some EmptyString => None
  | m => m
  end.

(** The comparator of the sort, [(a, b) => a.sequenceNumber - b.sequenceNumber]. *)
Definition compareFn (a b : Buffer.t) : Z :=
  Buffer.sequenceNumber a - Buffer.sequenceNumber b.

(** [Array.prototype.sort] is a stable sort: with a consistent
    comparator it yields the one ordered permutation that keeps
    elements comparing equal in their previous relative order.  It is
    computed here by insertion from the right, a new element going
    before the first one that does not compare below it. *)
Fixpoint insertSorted (x : Buffer.t) (l : list Buffer.t) : list Buffer.t :=
  match l with
  | [] => [x]
  | y :: l' =>
      if compareFn x y <=? 0 then x :: y :: l' else y :: insertSorted x l'
  end.

Definition sort (l : list Buffer.t) : list Buffer.t :=
  fold_right insertSorted [] l.

(** [handleMessage(event)]. *)
Definition handleMessage (st : state) (ev : Message) : state * list Post :=
  match ev with
  | decode ulawData markName sequenceNumber =>
      let markName := markOrNull markName in
      (* event.data.sequenceNumber || this.sequenceNumber++ *)
      let '(sequenceNumber, counter) :=
        match sequenceNumber with
        | Some n => if n =? 0
                    then (Decoder.sequenceNumber st, Decoder.sequenceNumber st + 1)
                    else (n, Decoder.sequenceNumber st)
        | None => (Decoder.sequenceNumber st, Decoder.sequenceNumber st + 1)
        end in
      let pushed :=
        bufferQueue st ++ [Buffer.mk ulawData markName sequenceNumber] in
      let sorted := sort pushed in
      ({| bufferQueue := sorted;
          currentBuffer := currentBuffer st;
          bufferPosition := bufferPosition st;
          currentMark := currentMark st;
          isActive := isActive st;
          sequenceNumber := counter |},
       [bufferQueued (length ulawData) (length sorted)])
  | clear =>
      ({| bufferQueue := [];
          currentBuffer := None;
          bufferPosition := 0;
          currentMark := None;
          isActive := isActive st;
          sequenceNumber := Decoder.sequenceNumber st |},
       [cleared])
  | other => (st, [])
  end.

(** [loadNextBuffer()]: the returned flag and the state it leaves. *)
Definition loadNextBuffer (st : state) : bool * state :=
  match bufferQueue st with
  | nextBuffer :: rest =>
      (true,
       {| bufferQueue := rest;
          currentBuffer := Some (Buffer.data nextBuffer);
          bufferPosition := 0;
          currentMark := Buffer.markName nextBuffer;
          isActive := true;
          sequenceNumber := sequenceNumber st |})
  | [] => (false, st)
  end.

(** The last loop of [process] over the rest of the channel, from
    position [pos] of the current buffer:
<<
    for (let i = 0; i < channel.length; i++) {
        if (this.bufferPosition < this.currentBuffer.length) {
            channel[i] = this.decodeMuLaw(this.currentBuffer[this.bufferPosition++]);
        } else {
            channel[i] = 0; // Silence for any remaining samples
            break;
        }
    }
>>
    It returns the final [bufferPosition] and the channel; after the
    [break] the rest of the channel is left as it was. *)
Fixpoint fillChannel (buf : list Z) (pos : nat) (channel : list Sample)
  : nat * list Sample :=
  match channel with
  | [] => (pos, [])
  | c :: rest =>
      if (pos <? length buf)%nat
      then let '(pos', rest') := fillChannel buf (S pos) rest in
           (pos', MuLaw.decodeMuLaw (nth pos buf 0) :: rest')
      else (pos, 0%Q :: rest)
  end.

Definition setPosition (st : state) (pos : nat) : state :=
  {| bufferQueue := bufferQueue st;
     currentBuffer := currentBuffer st;
     bufferPosition := pos;
     currentMark := currentMark st;
     isActive := isActive st;
     sequenceNumber := sequenceNumber st |}.

Definition decodeInto (st : state) (channel : list Sample)
  : state * list Sample :=
  match currentBuffer st with
  | Some buf =>
      let '(pos, channel') := fillChannel buf (bufferPosition st) channel in
      (setPosition st pos, channel')
  | None => (st, channel)
  end.

(** [!this.currentBuffer || this.bufferPosition >= this.currentBuffer.length] *)
Definition exhausted (st : state) : bool :=
  match currentBuffer st with
  | None => true
  | Some buf => (length buf <=? bufferPosition st)%nat
  end.

(** The retirement of the current buffer at the top of [process]. *)
Definition retire (st : state) : state * list Post :=
  match currentBuffer st with
  | Some _ =>
      ({| bufferQueue := bufferQueue st;
          currentBuffer := None;
          bufferPosition := bufferPosition st;
          currentMark := None;
          isActive := isActive st;
          sequenceNumber := sequenceNumber st |},
       [bufferProcessed (currentMark st)])
  | None => (st, [])
  end.

Definition setInactive (st : state) : state :=
  {| bufferQueue := bufferQueue st;
     currentBuffer := currentBuffer st;
     bufferPosition := bufferPosition st;
     currentMark := currentMark st;
     isActive := false;
     sequenceNumber := sequenceNumber st |}.

(** [process(inputs, outputs)] on the channel [outputs[0][0]]: the
    state it leaves, what it posts, and the channel as written.  It
    always returns [true]. *)
Definition process (st : state) (channel : list Sample)
  : state * list Post * list Sample :=
  if exhausted st then
    let '(st1, posts) := retire st in
    let '(loaded, st2) := loadNextBuffer st1 in
    if negb loaded then
      (setInactive st2, posts, map (fun _ => 0%Q) channel)
    else
      let '(st3, channel') := decodeInto st2 channel in
      (st3, posts, channel')
  else
    let '(st1, channel') := decodeInto st channel in
    (st1, [], channel').

(** Successive [process] calls, one per channel handed in, with what
    each call posted and wrote. *)
Fixpoint run (st : state) (channels : list (list Sample))
  : state * list (list Post * list Sample) :=
  match channels with
  | [] => (st, [])
  | channel :: more =>
      let '(st1, posts, out) := process st channel in
      let '(st2, results) := run st1 more in
      (st2, (posts, out) :: results)
  end.

(** Messages received in a row. *)
Fixpoint handleMessages (st : state) (evs : list Message)
  : state * list Post :=
  match evs with
  | [] => (st, [])
  | ev :: more =>
      let '(st1, posts) := handleMessage st ev in
      let '(st2, posts') := handleMessages st1 more in
      (st2, posts ++ posts')
  end.

End Decoder.

(** ** The playback timeline of a queue

    What a run of [process] calls is expected to post and to write when
    the audio system hands it zero-filled channels of [n] samples, as a
    closed description of the queue's content.  These definitions are
    the yardstick of the ordering and marker theorems; they are not
    taken from the worklet. *)

Module Timeline.

Import Decoder.

(** A zero-filled channel of [n] samples. *)
Definition zeros (n : nat) : list Sample := repeat 0%Q n.

(** The samples of one quantum played from position [p] of the
    buffer [d]: the decoded bytes, then silence. *)
Definition block (n : nat) (d : list Z) (p : nat) : list Sample :=
  map MuLaw.decodeMuLaw (firstn n (skipn p d)) ++ zeros (n - (length d - p)).

(** [a / n] rounded up. *)
Definition cdiv (a n : nat) : nat := ((a + n - 1) / n)%nat.

(** The quanta that remain to be played from position [p]. *)
Definition restBlocks (n : nat) (d : list Z) (p : nat) : list (list Sample) :=
  map (fun i => block n d (p + i * n)) (seq 0 (cdiv (length d - p) n)).

(** All quanta of a buffer, and their number: a buffer takes at least
    one call, also when it is empty. *)
Definition blocksOf (n : nat) (d : list Z) : list (list Sample) :=
  block n d 0 :: restBlocks n d (Nat.min n (length d)).

Definition callsOf (n : nat) (d : list Z) : nat :=
  S (cdiv (length d - n) n).

(** The samples of a buffer as they reach the output: all of them, in
    order, then silence up to the end of the last quantum. *)
Definition padded (n : nat) (d : list Z) : list Sample :=
  map MuLaw.decodeMuLaw d ++ zeros (callsOf n d * n - length d).

Definition quiet (bs : list (list Sample)) : list (list Post * list Sample) :=
  map (fun b => ([], b)) bs.

(** The calls that play the queue [q]; [prev] is what the first of
    them posts for the buffer retired just before. *)
Fixpoint queueCalls (n : nat) (prev : list Post) (q : list Buffer.t)
  : list (list Post * list Sample) :=
  match q with
  | [] => match prev with
          | [] => []
          | _ => [(prev, zeros n)]
          end
  | f :: q' =>
      (prev, block n (Buffer.data f) 0)
        :: quiet (restBlocks n (Buffer.data f)
                    (Nat.min n (length (Buffer.data f))))
        ++ queueCalls n [bufferProcessed (Buffer.markName f)] q'
  end.

(** The calls that play whole buffers, without the call that retires
    the last of them. *)
Fixpoint bufferCalls (n : nat) (prev : list Post) (q : list Buffer.t)
  : list (list Post * list Sample) :=
  match q with
  | [] => []
  | f :: q' =>
      (prev, block n (Buffer.data f) 0)
        :: quiet (restBlocks n (Buffer.data f)
                    (Nat.min n (length (Buffer.data f))))
        ++ bufferCalls n [bufferProcessed (Buffer.markName f)] q'
  end.

(** What the coming calls post and write, from the state [st], until
    nothing is left to play. *)
Definition future (n : nat) (st : state) : list (list Post * list Sample) :=
  match currentBuffer st with
  | None => queueCalls n [] (bufferQueue st)
  | Some d =>
      quiet (restBlocks n d (bufferPosition st))
        ++ queueCalls n [bufferProcessed (currentMark st)] (bufferQueue st)
  end.

(** A call with nothing to play and nothing to report. *)
Definition idle (n : nat) : list Post * list Sample := ([], zeros n).

(** All posts of a run, in order, and the number of reports of the
    marker [m] among them. *)
Definition postsOf (results : list (list Post * list Sample)) : list Post :=
  concat (map fst results).

Definition isReportOf (m : string) (p : Post) : bool :=
  match p with
  | bufferProcessed (Some m') => String.eqb m m'
  | _ => false
  end.

Definition reportsOf (m : string) (results : list (list Post * list Sample)) : nat :=
  length (filter (isReportOf m) (postsOf results)).

(** The samples of a whole queue as they reach the output. *)
Definition stream (n : nat) (q : list Buffer.t) : list Sample :=
  concat (map (fun f => padded n (Buffer.data f)) q).

(** The samples written by a run. *)
Definition written (results : list (list Post * list Sample)) : list Sample :=
  concat (map snd results).

(** The quanta still to be played of the buffer in play, and the
    samples they carry. *)
Definition currentCalls (n : nat) (st : state) : list (list Sample) :=
  match currentBuffer st with
  | None => []
  | Some d => restBlocks n d (bufferPosition st)
  end.

Definition remaining (n : nat) (st : state) : list Sample :=
  concat (currentCalls n st).

(** The calls that play the buffer in play and then the buffers [q],
    and their number. *)
Definition playing (n : nat) (st : state) (q : list Buffer.t)
  : list (list Post * list Sample) :=
  quiet (currentCalls n st) ++ bufferCalls n (snd (retire st)) q.

Definition callsToPlay (n : nat) (st : state) (q : list Buffer.t) : nat :=
  length (currentCalls n st)
  + list_sum (map (fun f => callsOf n (Buffer.data f)) q).

Definition reportOf (f : Buffer.t) : Post := bufferProcessed (Buffer.markName f).

(** Ascending order of sequence numbers. *)
Definition bySequenceNumber (a b : Buffer.t) : Prop :=
  (Buffer.sequenceNumber a <= Buffer.sequenceNumber b)%Z.

(** The states the processor can be in: the constructor's, and those
    that a message or a [process] call leads to. *)
Inductive reachable : state -> Prop :=
| reachable_constructor : reachable constructor
| reachable_message st ev :
    reachable st -> reachable (fst (handleMessage st ev))
| reachable_process st channel :
    reachable st -> reachable (fst (fst (process st channel))).

End Timeline.

(** ** Messages between [process] calls

    The port delivers a message between two [process] calls; a run of
    the worklet is a sequence of both. *)

Module Interleaved.

Import Decoder.






End Interleaved.

(** ** The session handling of [MediaPhone.tsx]

    The component keeps its session in [useRef] cells; they are the
    fields of [state].  A function of the component is a function from
    the state to the next state and the list of what it does to the
    outside, in order: what it sends on the socket, posts to the decoder
    worklet, logs, and the timers it starts. *)

Module Phone.

(** [WebSocket.readyState]. *)
Inductive ReadyState := CONNECTING | OPEN | CLOSING | CLOSED.

Inductive LogEntryType := info | error | success.

(** The envelopes sent by the functions below.  [Date.now()] is the
    sequence number of a mark. *)
Inductive Envelope :=
| markEnvelope (streamSid : option string) (sequenceNumber : Z) (name : string)
| stopEnvelope (sequenceNumber : Z) (callSid streamSid : option string).

(** The callbacks given to [setTimeout]. *)
Inductive Callback := closeAfterStop.

Inductive Effect :=
| wsSend (e : Envelope)
| wsClose (code : Z) (reason : string)
| setTimeout (callback : Callback) (ms : Z)
| postToDecoder (m : Decoder.Message)
| addLog (message : string) (type : LogEntryType)
| consoleLog (message : string)
| sourceStop
| audioContextClose
| setIsPlaying (playing : bool).

(** What the component reads of its [AudioContext]. *)
Record AudioContext := mkAudioContext {
  currentTime : Q;
  closeThrows : option string
}.

(** [MediaMessage]. *)
Record MediaMessage := mkMediaMessage {
  sequenceNumber : Z;
  chunk : Z;
  payload : string
}.

Record state := mkState {
  isDisconnecting : bool;
  wsRef : option ReadyState;
  audioContextRef : option AudioContext;
  streamSidRef : option string;
  callSidRef : option string;
  sequenceNumberRef : Z;
  nextStartTimeRef : Q;
  audioBufferQueueRef : list string;
  pendingMarksRef : list string;
  currentSourceRef : bool;
  pendingMarkFromServerRef : option string;
  ulawDecoderNodeRef : bool
}.

(** What [JSON.parse(event.data)] gives the message handler: an
    exception, or a message with its [event] field. *)
Inductive Inbound :=
| unparsable (errorMessage : string)
| media (message : MediaMessage)
| mark (name : option string)
| clearPlayback
| unknown (event : string).

(** A call of a platform function that may throw. *)
Inductive Threw (A : Type) :=
| returned (a : A)
| threw (message : string).
Arguments returned {A} a.
Arguments threw {A} message.

Definition decimal (n : nat) : string :=
  DecimalString.NilEmpty.string_of_uint (Nat.to_uint n).

Section WithPlatform.

(** [atob], of the browser: the binary string of a base64 text, or
    an exception. *)
Variable atob : string -> Threw string.

(** The present instant, [Date.now()]. *)
Variable now : Z.

(** [base64ToUint8Array]. *)
Definition base64ToUint8Array (base64 : string) : Threw (list Z) :=
  match atob base64 with
  | returned binaryString =>
      returned (map (fun c => JS.toUint8 (Z.of_nat (nat_of_ascii c)))
                    (list_ascii_of_string binaryString))
  | threw message => threw message
  end.

(** [_sendMessageToClient(event, data)]. *)
Definition _sendMessageToClient (st : state) (e : Envelope) : list Effect :=
  match wsRef st with
  | Some OPEN => [wsSend e]
  | _ => [addLog "WebSocket is not connected. Cannot send message." error]
  end.

Definition setWsRef (st : state) (ws : option ReadyState) : state :=
  {| isDisconnecting := isDisconnecting st;
     wsRef := ws;
     audioContextRef := audioContextRef st;
     streamSidRef := streamSidRef st;
     callSidRef := callSidRef st;
     sequenceNumberRef := sequenceNumberRef st;
     nextStartTimeRef := nextStartTimeRef st;
     audioBufferQueueRef := audioBufferQueueRef st;
     pendingMarksRef := pendingMarksRef st;
     currentSourceRef := currentSourceRef st;
     pendingMarkFromServerRef := pendingMarkFromServerRef st;
     ulawDecoderNodeRef := ulawDecoderNodeRef st |}.

(** [_closeMediaServerConnection(statusCode, statusMessage)]. *)
Definition _closeMediaServerConnection (st : state) (statusCode : Z)
  (statusMessage : string) : state * list Effect :=
  match wsRef st with
  | None => (st, [])
  | Some _ =>
      (setWsRef st None,
       [wsClose statusCode statusMessage;
        addLog "WebSocket connection closed" success])
  end.

(** The callback of the timer started by [_disconnectFromCall]:
<<
    if (wsRef.current) {
        _closeMediaServerConnection(1000, 'User disconnected');
    }
>> *)
Definition fire (callback : Callback) (st : state) : state * list Effect :=
  match callback with
  | closeAfterStop =>
      match wsRef st with
      | Some _ => _closeMediaServerConnection st 1000 "User disconnected"
      | None => (st, [])
      end
  end.

(** [_disconnectFromCall()]. *)
Definition _disconnectFromCall (st : state) : state * list Effect :=
  let entry := [consoleLog "Disconnecting from call"] in
  if isDisconnecting st then (st, entry)
  else
    (* if (wsRef.current) { ... } *)
    let '(sequenceNumberRef', wsRef', socket) :=
      match wsRef st with
      | Some readyState =>
          let '(sequenceNumberRef', stop) :=
            match readyState with
            | OPEN =>
                (sequenceNumberRef st + 1,
                 _sendMessageToClient st
                   (stopEnvelope (sequenceNumberRef st)
                      (callSidRef st) (streamSidRef st))
                 ++ [addLog "Sent stop message to media server" info;
                     setTimeout closeAfterStop 100;
                     addLog "WebSocket connection closed" info])
            | _ => (sequenceNumberRef st, [])
            end in
          (* if (wsRef.current) _closeMediaServerConnection(...) *)
          let '(st', close) :=
            _closeMediaServerConnection st 1000 "User disconnected" in
          (sequenceNumberRef', wsRef st', stop ++ close)
      | None => (sequenceNumberRef st, None, [])
      end in
    (* ulawDecoderNodeRef.current = null; the audio context *)
    let audio :=
      match audioContextRef st with
      | Some ctx =>
          match closeThrows ctx with
          | None => [audioContextClose; addLog "Audio context closed" info]
          | Some _ => [audioContextClose]
          end
      | None => []
      end in
    ({| isDisconnecting := true;
        wsRef := wsRef';
        audioContextRef := None;
        streamSidRef := streamSidRef st;
        callSidRef := callSidRef st;
        sequenceNumberRef := sequenceNumberRef';
        nextStartTimeRef := nextStartTimeRef st;
        audioBufferQueueRef := audioBufferQueueRef st;
        pendingMarksRef := pendingMarksRef st;
        currentSourceRef := currentSourceRef st;
        pendingMarkFromServerRef := pendingMarkFromServerRef st;
        ulawDecoderNodeRef := false |},
     entry ++ socket ++ audio).

(** [clearAudioBuffer()]. *)
Definition clearAudioBuffer (st : state) : state * list Effect :=
  let source := if currentSourceRef st then [sourceStop] else [] in
  let worklet :=
    if ulawDecoderNodeRef st
    then [postToDecoder Decoder.clear;
          addLog "Sent clear message to audio worklet" info]
    else [] in
  let marks :=
    flat_map (fun markName =>
                _sendMessageToClient st
                  (markEnvelope (streamSidRef st) now markName))
             (pendingMarksRef st) in
  ({| isDisconnecting := isDisconnecting st;
      wsRef := wsRef st;
      audioContextRef := audioContextRef st;
      streamSidRef := streamSidRef st;
      callSidRef := callSidRef st;
      sequenceNumberRef := sequenceNumberRef st;
      nextStartTimeRef :=
        match audioContextRef st with
        | Some ctx => currentTime ctx
        | None => 0%Q
        end;
      audioBufferQueueRef := [];
      pendingMarksRef := [];
      currentSourceRef := false;
      pendingMarkFromServerRef := pendingMarkFromServerRef st;
      ulawDecoderNodeRef := ulawDecoderNodeRef st |},
   source ++ worklet ++ marks ++ [setIsPlaying false]).

Definition setPendingMarkFromServerRef (st : state) (m : option string) : state :=
  {| isDisconnecting := isDisconnecting st;
     wsRef := wsRef st;
     audioContextRef := audioContextRef st;
     streamSidRef := streamSidRef st;
     callSidRef := callSidRef st;
     sequenceNumberRef := sequenceNumberRef st;
     nextStartTimeRef := nextStartTimeRef st;
     audioBufferQueueRef := audioBufferQueueRef st;
     pendingMarksRef := pendingMarksRef st;
     currentSourceRef := currentSourceRef st;
     pendingMarkFromServerRef := m;
     ulawDecoderNodeRef := ulawDecoderNodeRef st |}.

(** [processMediaMessage(message)]. *)
Definition processMediaMessage (st : state) (message : MediaMessage)
  : state * list Effect :=
  match base64ToUint8Array (payload message) with
  | returned muLawData =>
      if ulawDecoderNodeRef st then
        let markName := pendingMarkFromServerRef st in
        (setPendingMarkFromServerRef st None,
         [postToDecoder
            (Decoder.decode muLawData markName
               (* message.sequenceNumber || message.media.chunk *)
               (Some (if sequenceNumber message =? 0
                      then chunk message
                      else sequenceNumber message)));
          addLog ("Queued " ++ decimal (length muLawData)
                    ++ " bytes in decoder worklet") info])
      else (st, [])
  | threw message =>
      (st, [addLog ("Error processing media message: " ++ message) error])
  end.

(** [_handleWebSocketMessage(event)]. *)
Definition _handleWebSocketMessage (st : state) (event : Inbound)
  : state * list Effect :=
  match event with
  | unparsable errorMessage =>
      (st, [addLog ("Unknown message type: " ++ errorMessage) error])
  | media message =>
      let '(st', effects) := processMediaMessage st message in
      (st', addLog "Received media" info :: effects)
  | mark name =>
      match name with
      | None | Some EmptyString => (st, [addLog "Received mark" info])
      | Some name =>
          (setPendingMarkFromServerRef st (Some name),
           [addLog "Received mark" info;
            addLog ("Mark received: " ++ name) info])
      end
  | clearPlayback =>
      let '(st', effects) := clearAudioBuffer st in
      (st',
       addLog "Received clear" info
         :: addLog "Clear received - stopping audio playback" info
         :: effects)
  | unknown event => (st, [addLog ("Received " ++ event) info])
  end.

(** [decoderWorkletNode.port.onmessage], on what the worklet posts. *)
Definition decoderOnMessage (st : state) (p : Decoder.Post) : list Effect :=
  match p with
  | Decoder.bufferProcessed markName =>
      match markName with
      | None | Some EmptyString => []
      | Some markName =>
          _sendMessageToClient st
            (markEnvelope (streamSidRef st) now markName)
          ++ [addLog ("Mark processed: " ++ markName) success]
      end
  | Decoder.bufferQueued _ queueLength =>
      if (5 <? queueLength)%nat
      then [addLog ("Audio queue length: " ++ decimal queueLength) info]
      else []
  | Decoder.cleared => [addLog "Audio worklet buffers cleared" info]
  end.

End WithPlatform.

(** The envelopes among effects, and the marks named [m] among them. *)
Definition sent (effects : list Effect) : list Envelope :=
  flat_map (fun e => match e with wsSend env => [env] | _ => [] end) effects.

Definition isMarkNamed (m : string) (e : Envelope) : bool :=
  match e with
  | markEnvelope _ _ name => String.eqb m name
  | _ => false
  end.

Definition isStop (e : Envelope) : bool :=
  match e with
  | stopEnvelope _ _ _ => true
  | _ => false
  end.

Definition isClose (e : Effect) : bool :=
  match e with
  | wsClose _ _ => true
  | _ => false
  end.

Definition toDecoder (effects : list Effect) : list Decoder.Message :=
  flat_map (fun e => match e with postToDecoder m => [m] | _ => [] end) effects.

End Phone.

(** ** The two threads together

    The main thread and the decoder worklet exchange messages over the
    worklet's port, which delivers them in the order posted.  Here a
    message is handled as soon as it is posted: what the main thread
    posts while it handles an inbound envelope reaches the worklet
    before the next envelope or render quantum, and what the worklet
    posts reaches [decoderOnMessage] likewise. *)

Module System.

Record state := mk {
  phone : Phone.state;
  decoder : Decoder.state
}.

Section WithPlatform.

Variable atob : string -> Phone.Threw string.
Variable now : Z.

(** The main thread's handling of what the worklet posted. *)
Definition report (ph : Phone.state) (posts : list Decoder.Post)
  : list Phone.Effect :=
  flat_map (Phone.decoderOnMessage now ph) posts.

(** An inbound envelope arrives on the socket. *)
Definition receive (s : state) (event : Phone.Inbound)
  : state * list Phone.Effect :=
  let '(ph, effects) := Phone._handleWebSocketMessage atob now (phone s) event in
  let '(dec, posts) := Decoder.handleMessages (decoder s) (Phone.toDecoder effects) in
  (mk ph dec, effects ++ report ph posts).

Fixpoint receiveAll (s : state) (events : list Phone.Inbound)
  : state * list Phone.Effect :=
  match events with
  | [] => (s, [])
  | event :: more =>
      let '(s1, effects) := receive s event in
      let '(s2, effects') := receiveAll s1 more in
      (s2, effects ++ effects')
  end.

(** The audio system asks for one quantum. *)
Definition render (s : state) (channel : list Sample)
  : state * list Phone.Effect * list Sample :=
  let '(dec, posts, out) := Decoder.process (decoder s) channel in
  (mk (phone s) dec, report (phone s) posts, out).

End WithPlatform.

End System.

(** ** A session in progress

    Concrete values for the examples: an open socket, a loaded decoder
    worklet, and the two payloads that the examples send. *)

Module Scenario.

Definition now : Z := 1700000000000.

(** [atob] on the payloads of the examples: ["AAEC"] is the base64
    text of the bytes 0, 1, 2 and ["/4A="] that of 255, 128. *)
Definition atob (base64 : string) : Phone.Threw string :=
  if String.eqb base64 "AAEC" then
    Phone.returned
      (String (ascii_of_nat 0) (String (ascii_of_nat 1)
         (String (ascii_of_nat 2) EmptyString)))
  else if String.eqb base64 "/4A=" then
    Phone.returned
      (String (ascii_of_nat 255) (String (ascii_of_nat 128) EmptyString))
  else Phone.threw "The string to be decoded is not correctly encoded.".

Definition active : Phone.state :=
  {| Phone.isDisconnecting := false;
     Phone.wsRef := Some Phone.OPEN;
     Phone.audioContextRef := Some (Phone.mkAudioContext 0 None);
     Phone.streamSidRef := Some "MZstream"%string;
     Phone.callSidRef := Some "CAcall"%string;
     Phone.sequenceNumberRef := 7;
     Phone.nextStartTimeRef := 0;
     Phone.audioBufferQueueRef := [];
     Phone.pendingMarksRef := [];
     Phone.currentSourceRef := false;
     Phone.pendingMarkFromServerRef := None;
     Phone.ulawDecoderNodeRef := true |}.

Definition session : System.state := System.mk active Decoder.constructor.

(** Two marked frames, then the peer's [clear]. *)
Definition twoMarkedFrames : list Phone.Inbound :=
  [Phone.mark (Some "first"%string);
   Phone.media (Phone.mkMediaMessage 1 1 "AAEC");
   Phone.mark (Some "second"%string);
   Phone.media (Phone.mkMediaMessage 2 2 "/4A=")].

(** The worklet after the frames 5, 3, 4 arrived in that order. *)
Definition reordered : Decoder.state :=
  fst (Decoder.handleMessages Decoder.constructor
         [Decoder.decode [0; 1; 2] (Some "m5"%string) (Some 5);
          Decoder.decode [255; 128] None (Some 3);
          Decoder.decode [10; 20; 30] (Some "m4"%string) (Some 4)]).

End Scenario.

(** ** The companding law

    The quantities of G.711 in which the encoder is described: the
    sign, the biased magnitude, its segment and its step. *)

Module Companding.
(** The sign bit of a sample. *)
Definition signBit (s : Q) : Z := if JS.ltb s 0 then 0x80 else 0.

(** The magnitude of a sample, clipped. *)
Definition clipped (s : Q) : Q :=
  if JS.ltb (inject_Z Encoder.CLIP) (Qabs s)
  then inject_Z Encoder.CLIP else Qabs s.

(** The integer that the bit operations of [linearToUlaw] work on: the
    clipped magnitude, biased as binary64 adds, truncated. *)
Definition biased (s : Q) : Z :=
  Qfloor (JS.round64 (clipped s + inject_Z Encoder.BIAS)).

(** The integer part of the clipped magnitude. *)
Definition integerPart (s : Q) : Z := Z.min (Qfloor (Qabs s)) Encoder.CLIP.

(** A sample with at most 38 binary digits after the point, an integer
    sample for one.  Its clipped magnitude, below [2 ^ 15], has at
    most 53 significant bits, and so has its sum with the bias: the
    addition of [linearToUlaw] is exact on it. *)
Definition fixedPoint (s : Q) : Prop := exists m : Z, s == m # 274877906944.

(** The segment of a biased magnitude, from its highest set bit, and
    the step inside the segment. *)
Definition segment (v : Z) : Z := Z.log2 v - 7.
Definition step (v : Z) : Z := v / 2 ^ (segment v + 3) - 16.

(** The code of a sample. *)
Definition compress (s : Q) : Z :=
  255 - signBit s - 16 * segment (biased s) - step (biased s).

(** The magnitude that the table holds for a segment and a step. *)
Definition magnitude (e m : Z) : Z := (2 * m + 33) * 2 ^ (e + 2) - 132.

(** The table entry of a code, [0] outside the table. *)
Definition entry (code : Z) : Z :=
  match MuLaw.tableLookup code with
  | Some v => v
  | None => 0
  end.

(** The last line of [linearToUlaw]. *)
Definition pack (sign exponent mantissa : Z) : Z :=
  JS.band (JS.bnot (JS.bor (JS.bor sign (JS.shl exponent 4)) mantissa)) 0xFF.
End Companding.

(** ** The place of a buffer in the queue, and what a call writes *)

Module Placement.
Import Decoder.
(** The number under which [handleMessage] queues a buffer:
    [event.data.sequenceNumber || this.sequenceNumber++]. *)
Definition assigned (st : state) (sequenceNumber : option Z) : Z :=
  match sequenceNumber with
  | Some n => if (n =? 0)%Z then Decoder.sequenceNumber st else n
  | None => Decoder.sequenceNumber st
  end.
(** The pending buffers that play before, and after, a buffer queued
    under the number [n]. *)
Definition notAfter (n : Z) (q : list Buffer.t) : list Buffer.t :=
  filter (fun f => (Buffer.sequenceNumber f <=? n)%Z) q.
Definition after (n : Z) (q : list Buffer.t) : list Buffer.t :=
  filter (fun f => (n <? Buffer.sequenceNumber f)%Z) q.
(** Buffers numbered from [c] on, in the order given. *)
Fixpoint numbered (c : Z) (frames : list (list Z * option string)) : list Buffer.t :=
  match frames with
  | [] => []
  | (d, m) :: more => Buffer.mk d (markOrNull m) c :: numbered (c + 1) more
  end.
Definition unnumbered (frames : list (list Z * option string)) : list Message :=
  map (fun '(d, m) => decode d m None) frames.
(** What one call on the channel [channel] writes when the buffer [d]
    is in play at position [p]. *)
Definition overlay (d : list Z) (p : nat) (channel : list Sample) : list Sample :=
  map MuLaw.decodeMuLaw (firstn (length channel) (skipn p d))
  ++ (if (length d - p <? length channel)%nat
      then 0%Q :: skipn (S (length d - p)) channel
      else []).
(** A processor one byte into a buffer of three, for the examples. *)
Definition midBuffer : state :=
  {| bufferQueue := [];
     currentBuffer := Some [255; 128; 0]%Z;
     bufferPosition := 1;
     currentMark := None;
     isActive := true;
     sequenceNumber := 0 |}.
End Placement.

(** ** The outbound path and the call start of [MediaPhone.tsx] *)

Module Outbound.

(** The envelopes of this path; [earlier] embeds those of [Phone]. *)
Inductive Envelope :=
| connectedEnvelope (protocol version : string)
| startEnvelope (sequenceNumber : Z) (streamSid callSid : option string)
    (tracks : list string) (encoding : string) (sampleRate channels : Z)
    (outerStreamSid : option string)
| mediaEnvelope (sequenceNumber : Z) (track : string) (chunk timestamp : Z)
    (payload : string)
| earlier (e : Phone.Envelope).

Inductive Effect :=
| wsSend (e : Envelope)
| addLog (message : string) (type : Phone.LogEntryType)
| fromPhone (e : Phone.Effect).

(** The session cells of [Phone] and the timestamp counter. *)
Record state := mk {
  phone : Phone.state;
  timestampRef : Z
}.

(** The envelopes among effects, in order. *)
Definition sent (effects : list Effect) : list Envelope :=
  flat_map (fun e => match e with
                     | wsSend env => [env]
                     | fromPhone (Phone.wsSend env) => [earlier env]
                     | _ => []
                     end) effects.

(** [generateStreamSid] on the text that [Math.random().toString(36)]
    gave: ['MZ' + random.substring(2, 15)]. *)
Definition generateStreamSid (random : string) : string :=
  ("MZ" ++ substring 2 13 random)%string.

(** [String.fromCharCode(...ulawBytes)] on the bytes of a
    [Uint8Array]. *)
Definition fromCharCode (ulawBytes : list Z) : string :=
  string_of_list_ascii (map (fun b => ascii_of_nat (Z.to_nat b)) ulawBytes).

(** A string is truthy unless it is absent or empty. *)
Definition truthy (s : option string) : bool :=
  match s with
  | None | Some EmptyString => false
  | Some _ => true
  end.

Section WithPlatform.

(** [btoa], of the browser. *)
Variable btoa : string -> string.

(** [_sendMessageToClient(event, data)] on the envelopes of this
    path. *)
Definition _sendMessageToClient (st : state) (e : Envelope) : list Effect :=
  match Phone.wsRef (phone st) with
  | Some Phone.OPEN => [wsSend e]
  | _ => [addLog "WebSocket is not connected. Cannot send message." Phone.error]
  end.

Definition setCounters (ph : Phone.state) (streamSid : option string)
  (sequenceNumber : Z) : Phone.state :=
  {| Phone.isDisconnecting := Phone.isDisconnecting ph;
     Phone.wsRef := Phone.wsRef ph;
     Phone.audioContextRef := Phone.audioContextRef ph;
     Phone.streamSidRef := streamSid;
     Phone.callSidRef := Phone.callSidRef ph;
     Phone.sequenceNumberRef := sequenceNumber;
     Phone.nextStartTimeRef := Phone.nextStartTimeRef ph;
     Phone.audioBufferQueueRef := Phone.audioBufferQueueRef ph;
     Phone.pendingMarksRef := Phone.pendingMarksRef ph;
     Phone.currentSourceRef := Phone.currentSourceRef ph;
     Phone.pendingMarkFromServerRef := Phone.pendingMarkFromServerRef ph;
     Phone.ulawDecoderNodeRef := Phone.ulawDecoderNodeRef ph |}.

(** [encoderWorkletNode.port.onmessage] on the bytes that the encoder
    worklet posted. *)
Definition encoderOnMessage (st : state) (ulawBytes : list Z) : state * list Effect :=
  match Phone.wsRef (phone st) with
  | Some Phone.OPEN =>
      if truthy (Phone.streamSidRef (phone st)) then
        let base64 := btoa (fromCharCode ulawBytes) in
        let n := Phone.sequenceNumberRef (phone st) in
        (* sequenceNumber: sequenceNumberRef.current++, chunk: sequenceNumberRef.current *)
        let st' := mk (setCounters (phone st) (Phone.streamSidRef (phone st)) (n + 1))
                      (timestampRef st) in
        (st', _sendMessageToClient st'
                (mediaEnvelope n "inbound" (n + 1) (timestampRef st) base64))
      else (st, [])
  | _ => (st, [])
  end.

(** [_startCall()], with the identifier that [generateStreamSid] gave. *)
Definition _startCall (st : state) (streamSid : string) : state * list Effect :=
  match Phone.wsRef (phone st) with
  | Some Phone.OPEN =>
      let st' := mk (setCounters (phone st) (Some streamSid) 0) 0 in
      (st',
       _sendMessageToClient st'
         (startEnvelope 1 (Some streamSid) (Phone.callSidRef (phone st))
            ["inbound"; "outbound"]%string "audio/x-mulaw" 8000 1
            (Some streamSid))
       ++ [addLog ("Sent start, streamSid: " ++ streamSid) Phone.info])
  | _ => (st, [addLog "WebSocket is not connected. Cannot start call." Phone.error])
  end.

(** The callback that the [open] listener of the socket starts with a
    delay of 500 ms:
<<
    _sendMessageToClient('connected', { protocol: 'Call', version: '1.0.0' })
    _startCall();
>> *)
Definition settled (st : state) (streamSid : string) : state * list Effect :=
  let hello := _sendMessageToClient st (connectedEnvelope "Call" "1.0.0") in
  let '(st', start) := _startCall st streamSid in
  (st', hello ++ start).

(** The bytes of the encoder worklet, one message after the other. *)
Fixpoint feed (st : state) (frames : list (list Z)) : state * list Effect :=
  match frames with
  | [] => (st, [])
  | ulawBytes :: more =>
      let '(st1, effects) := encoderOnMessage st ulawBytes in
      let '(st2, effects') := feed st1 more in
      (st2, effects ++ effects')
  end.

(** [_disconnectFromCall] on the state of this path. *)
Definition _disconnectFromCall (st : state) : state * list Effect :=
  let '(ph, effects) := Phone._disconnectFromCall (phone st) in
  (mk ph (timestampRef st), map fromPhone effects).

(** The cleanup of the component's effect hook:
<<
    isDisconnecting.current = true;
    _disconnectFromCall();
>> *)
Definition cleanup (st : state) : state * list Effect :=
  let ph := phone st in
  _disconnectFromCall
    (mk {| Phone.isDisconnecting := true;
           Phone.wsRef := Phone.wsRef ph;
           Phone.audioContextRef := Phone.audioContextRef ph;
           Phone.streamSidRef := Phone.streamSidRef ph;
           Phone.callSidRef := Phone.callSidRef ph;
           Phone.sequenceNumberRef := Phone.sequenceNumberRef ph;
           Phone.nextStartTimeRef := Phone.nextStartTimeRef ph;
           Phone.audioBufferQueueRef := Phone.audioBufferQueueRef ph;
           Phone.pendingMarksRef := Phone.pendingMarksRef ph;
           Phone.currentSourceRef := Phone.currentSourceRef ph;
           Phone.pendingMarkFromServerRef := Phone.pendingMarkFromServerRef ph;
           Phone.ulawDecoderNodeRef := Phone.ulawDecoderNodeRef ph |}
        (timestampRef st)).

End WithPlatform.

(** The media envelopes numbered from [n] on, for the frames given. *)
Fixpoint mediaFrom (btoa : string -> string) (n timestamp : Z)
  (frames : list (list Z)) : list Envelope :=
  match frames with
  | [] => []
  | ulawBytes :: more =>
      mediaEnvelope n "inbound" (n + 1) timestamp (btoa (fromCharCode ulawBytes))
        :: mediaFrom btoa (n + 1) timestamp more
  end.

(** For the examples: a session on an open socket, the same after a
    disconnect, and a platform whose [btoa] and [atob] are the identity. *)
Definition opened : state := mk Scenario.active 0.
Definition hungUp : state := mk (fst (Phone._disconnectFromCall Scenario.active)) 0.
Definition plainBtoa (s : string) : string := s.
Definition plainAtob (s : string) : Phone.Threw string := Phone.returned s.

End Outbound.

(** ** The log of the component *)

Module Log.

Record LogEntry := mk {
  timestamp : string;
  message : string;
  type : Phone.LogEntryType
}.

(** [prev.slice(-49)]: the last 49 entries, or all when there are
    fewer. *)
Definition slice49 (prev : list LogEntry) : list LogEntry :=
  skipn (length prev - 49) prev.

(** The update of [addLog]: [[...prev.slice(-49), entry]]. *)
Definition addLog (prev : list LogEntry) (entry : LogEntry) : list LogEntry :=
  slice49 prev ++ [entry].

(** The last [k] elements of a list. *)
Definition lastN {A : Type} (k : nat) (l : list A) : list A :=
  skipn (length l - k) l.

End Log.

Section DecoderProofs.

Import Decoder Timeline.
Local Open Scope nat_scope.

Lemma skipn_nth_cons (d : list Z) (p : nat) :
  p < length d -> skipn p d = nth p d 0%Z :: skipn (S p) d.
Proof.
  revert p; induction d as [|x d IH]; intros p Hp; simpl in Hp; [lia|].
  destruct p as [|p]; [reflexivity|].
  simpl. apply IH. lia.
Qed.

Lemma block_step (n : nat) (d : list Z) (p : nat) :
  p < length d ->
  block (S n) d p = MuLaw.decodeMuLaw (nth p d 0%Z) :: block n d (S p).
Proof.
  intros Hp. unfold block.
  rewrite (skipn_nth_cons d p Hp). simpl firstn. simpl map.
  replace (S n - (length d - p)) with (n - (length d - S p)) by lia.
  reflexivity.
Qed.

Lemma block_end (n : nat) (d : list Z) (p : nat) :
  length d <= p -> block n d p = zeros n.
Proof.
  intros Hp. unfold block.
  rewrite skipn_all2 by exact Hp.
  rewrite firstn_nil. simpl.
  replace (length d - p) with 0 by lia.
  now rewrite Nat.sub_0_r.
Qed.

Lemma fillChannel_zeros (n : nat) (d : list Z) (p : nat) :
  p <= length d ->
  fillChannel d p (zeros n) = (Nat.min (p + n) (length d), block n d p).
Proof.
  revert p; induction n as [|n IH]; intros p Hp.
  - simpl. rewrite Nat.add_0_r, Nat.min_l by exact Hp.
    unfold block. destruct (skipn p d); reflexivity.
  - simpl. destruct (Nat.ltb_spec p (length d)) as [Hlt|Hge].
    + rewrite IH by lia. rewrite block_step by exact Hlt.
      replace (S p + n) with (p + S n) by lia. reflexivity.
    + rewrite block_end by exact Hge.
      rewrite Nat.min_r by lia.
      replace p with (length d) by lia. reflexivity.
Qed.

Lemma cdiv_zero (n : nat) : 0 < n -> cdiv 0 n = 0.
Proof. intros Hn. unfold cdiv. apply Nat.div_small. lia. Qed.

Lemma cdiv_pos (a n : nat) :
  0 < n -> 0 < a -> cdiv a n = S (cdiv (a - n) n).
Proof.
  intros Hn Ha. unfold cdiv.
  destruct (Nat.le_gt_cases n a) as [Hle|Hgt].
  - replace (a + n - 1) with ((a - n + n - 1) + 1 * n) by lia.
    rewrite Nat.div_add by lia. lia.
  - replace (a + n - 1) with ((a - 1) + 1 * n) by lia.
    rewrite Nat.div_add by lia.
    replace (a - n) with 0 by lia.
    rewrite (Nat.div_small (a - 1)) by lia.
    rewrite (Nat.div_small (0 + n - 1)) by lia. lia.
Qed.

Lemma restBlocks_end (n : nat) (d : list Z) (p : nat) :
  0 < n -> length d <= p -> restBlocks n d p = [].
Proof.
  intros Hn Hp. unfold restBlocks.
  replace (length d - p) with 0 by lia.
  now rewrite cdiv_zero.
Qed.

Lemma restBlocks_step (n : nat) (d : list Z) (p : nat) :
  0 < n -> p < length d ->
  restBlocks n d p = block n d p :: restBlocks n d (Nat.min (p + n) (length d)).
Proof.
  intros Hn Hp. unfold restBlocks at 1.
  rewrite cdiv_pos by lia.
  rewrite <- cons_seq. cbn [map]. rewrite Nat.add_0_r. f_equal.
  destruct (Nat.le_gt_cases (length d) (p + n)) as [Hle|Hgt].
  - replace (length d - p - n) with 0 by lia.
    rewrite cdiv_zero by exact Hn.
    rewrite restBlocks_end by lia. reflexivity.
  - rewrite Nat.min_l by lia. unfold restBlocks.
    replace (length d - (p + n)) with (length d - p - n) by lia.
    rewrite <- seq_shift, map_map.
    apply map_ext. intros i. f_equal. lia.
Qed.

(** The three ways a [process] call on a zero-filled channel goes. *)

Lemma process_continue (n : nat) (st : state) (d : list Z) :
  currentBuffer st = Some d ->
  bufferPosition st < length d ->
  process st (zeros n)
  = (setPosition st (Nat.min (bufferPosition st + n) (length d)),
     [], block n d (bufferPosition st)).
Proof.
  intros Hc Hp. unfold process, exhausted. rewrite Hc.
  destruct (Nat.leb_spec (length d) (bufferPosition st)); [lia|].
  unfold decodeInto. rewrite Hc.
  rewrite fillChannel_zeros by lia. reflexivity.
Qed.

Lemma process_promote (n : nat) (st : state) (f : Buffer.t) (q : list Buffer.t) :
  exhausted st = true ->
  bufferQueue st = f :: q ->
  process st (zeros n)
  = ({| bufferQueue := q;
        currentBuffer := Some (Buffer.data f);
        bufferPosition := Nat.min n (length (Buffer.data f));
        currentMark := Buffer.markName f;
        isActive := true;
        sequenceNumber := sequenceNumber st |},
     snd (retire st), block n (Buffer.data f) 0).
Proof.
  intros He Hq. unfold process. rewrite He.
  unfold retire.
  destruct (currentBuffer st) as [d|] eqn:Hc;
    unfold loadNextBuffer; simpl; rewrite Hq; simpl;
    unfold decodeInto; simpl;
    rewrite fillChannel_zeros by lia; reflexivity.
Qed.

Lemma process_underrun (st : state) (channel : list Sample) :
  exhausted st = true ->
  bufferQueue st = [] ->
  process st channel
  = ({| bufferQueue := [];
        currentBuffer := None;
        bufferPosition := bufferPosition st;
        currentMark := match currentBuffer st with
                       | Some _ => None
                       | None => currentMark st
                       end;
        isActive := false;
        sequenceNumber := sequenceNumber st |},
     snd (retire st), zeros (length channel)).
Proof.
  intros He Hq. unfold process. rewrite He.
  assert (Hz : map (fun _ : Sample => 0%Q) channel = zeros (length channel)).
  { unfold zeros. induction channel as [|c l IH]; simpl; [|rewrite IH]; reflexivity. }
  unfold retire.
  destruct (currentBuffer st) as [d|] eqn:Hc;
    unfold loadNextBuffer; simpl; rewrite Hq; simpl; rewrite Hz;
    unfold setInactive; simpl; rewrite ?Hq, ?Hc; reflexivity.
Qed.

Lemma zeros_length (n : nat) : length (zeros n) = n.
Proof. apply repeat_length. Qed.

(** One call takes the head of the timeline, or the timeline is
    empty and the call is idle. *)
Lemma process_future (n : nat) (st : state) :
  0 < n ->
  let '(st', posts, out) := process st (zeros n) in
  future n st = (posts, out) :: future n st'
  \/ (future n st = [] /\ (posts, out) = idle n /\ future n st' = []).
Proof.
  intros Hn.
  destruct (exhausted st) eqn:He.
  - destruct (bufferQueue st) as [|f q] eqn:Hq.
    + rewrite (process_underrun st (zeros n) He Hq), zeros_length.
      unfold future, retire, exhausted in *; simpl.
      destruct (currentBuffer st) as [d|] eqn:Hc; rewrite Hq; simpl.
      * left. apply Nat.leb_le in He.
        rewrite restBlocks_end by assumption. reflexivity.
      * right. repeat split; reflexivity.
    + rewrite (process_promote n st f q He Hq). left.
      unfold future, retire, exhausted in *; simpl.
      destruct (currentBuffer st) as [d|] eqn:Hc; rewrite Hq; simpl.
      * apply Nat.leb_le in He.
        rewrite restBlocks_end by assumption. reflexivity.
      * reflexivity.
  - unfold exhausted in He.
    destruct (currentBuffer st) as [d|] eqn:Hc; [|discriminate].
    apply Nat.leb_gt in He.
    rewrite (process_continue n st d Hc He). left.
    unfold future; simpl. rewrite Hc.
    rewrite (restBlocks_step n d (bufferPosition st)) by assumption.
    reflexivity.
Qed.

(** A run of [k] calls is the first [k] calls of the timeline,
    followed by idle calls for ever. *)
Lemma run_future (n k m : nat) (st : state) :
  0 < n -> k <= m ->
  snd (run st (repeat (zeros n) k)) = firstn k (future n st ++ repeat (idle n) m).
Proof.
  intros Hn. revert m st. induction k as [|k IH]; intros m st Hk.
  - reflexivity.
  - cbn [repeat run].
    pose proof (process_future n st Hn) as Hstep.
    destruct (process st (zeros n)) as [[st1 posts] out].
    destruct (run st1 (repeat (zeros n) k)) as [st2 results] eqn:Hrun.
    cbn [snd].
    assert (Hres : results = snd (run st1 (repeat (zeros n) k)))
      by now rewrite Hrun.
    destruct Hstep as [Hf | (Hf & Hi & Hf')].
    + rewrite Hf. cbn [app firstn]. f_equal.
      rewrite Hres. apply IH. lia.
    + rewrite Hf. destruct m as [|m]; [lia|].
      cbn [app repeat firstn]. rewrite Hi. f_equal.
      rewrite Hres, (IH m st1) by lia. now rewrite Hf'.
Qed.

Lemma block_length (n : nat) (d : list Z) (p : nat) :
  length (block n d p) = n.
Proof.
  unfold block.
  rewrite length_app, length_map, length_firstn, length_skipn, zeros_length.
  lia.
Qed.

Lemma restBlocks_uniform (n : nat) (d : list Z) (p : nat) :
  Forall (fun b => length b = n) (restBlocks n d p).
Proof.
  unfold restBlocks. apply Forall_forall. intros b Hb.
  apply in_map_iff in Hb. destruct Hb as (i & <- & _).
  apply block_length.
Qed.

Lemma blocksOf_uniform (n : nat) (d : list Z) :
  Forall (fun b => length b = n) (blocksOf n d).
Proof.
  constructor; [apply block_length | apply restBlocks_uniform].
Qed.

Lemma concat_firstn_uniform {A : Type} (n k : nat) (bs : list (list A)) :
  Forall (fun b => length b = n) bs ->
  concat (firstn k bs) = firstn (k * n) (concat bs).
Proof.
  revert bs; induction k as [|k IH]; intros bs Hbs; [reflexivity|].
  destruct bs as [|b bs]; [cbn [concat]; now rewrite !firstn_nil|].
  inversion Hbs as [|? ? Hb Hrest]; subst.
  cbn [firstn concat]. rewrite IH by assumption.
  replace (S k * length b) with (length b + k * length b) by lia.
  now rewrite firstn_app_2.
Qed.

Lemma concat_repeat_zeros (n m : nat) :
  concat (repeat (zeros n) m) = zeros (m * n).
Proof.
  induction m as [|m IH]; [reflexivity|].
  cbn [repeat concat]. rewrite IH. unfold zeros.
  now rewrite <- repeat_app.
Qed.

Lemma firstn_app_repeat {A : Type} (x : A) (l : list A) (k m : nat) :
  k <= m -> firstn k (l ++ repeat x m) = firstn k (l ++ repeat x k).
Proof.
  revert k m; induction l as [|y l IH]; intros k m Hk.
  - cbn [app]. revert m Hk; induction k as [|k IHk]; intros m Hk; [reflexivity|].
    destruct m as [|m]; [lia|]. cbn [repeat firstn]. f_equal.
    apply IHk. lia.
  - destruct k as [|k]; [reflexivity|].
    destruct m as [|m]; [lia|].
    cbn [app firstn]. f_equal.
    rewrite (IH k (S m)) by lia. rewrite (IH k (S k)) by lia. reflexivity.
Qed.

(** The quanta of a buffer, laid end to end, are its samples and the
    padding of the last quantum. *)
Lemma concat_restBlocks (n : nat) (d : list Z) (fuel p : nat) :
  0 < n -> length d - p <= fuel ->
  concat (restBlocks n d p)
  = map MuLaw.decodeMuLaw (skipn p d)
      ++ zeros (cdiv (length d - p) n * n - (length d - p)).
Proof.
  intros Hn. revert p. induction fuel as [|fuel IH]; intros p Hf.
  - rewrite restBlocks_end by lia.
    rewrite skipn_all2 by lia.
    replace (length d - p) with 0 by lia.
    now rewrite cdiv_zero.
  - destruct (Nat.le_gt_cases (length d) p) as [Hge|Hlt].
    + rewrite restBlocks_end by lia.
      rewrite skipn_all2 by lia.
      replace (length d - p) with 0 by lia.
      now rewrite cdiv_zero.
    + rewrite restBlocks_step by assumption.
      cbn [concat].
      rewrite (cdiv_pos (length d - p) n) by lia.
      destruct (Nat.le_gt_cases (p + n) (length d)) as [Hfit|Hshort].
      * rewrite Nat.min_l by lia.
        rewrite IH by lia.
        unfold block.
        replace (n - (length d - p)) with 0 by lia.
        cbn [zeros repeat]. rewrite app_nil_r, app_assoc, <- map_app.
        replace (skipn (p + n) d) with (skipn n (skipn p d))
          by (rewrite skipn_skipn; f_equal; lia).
        rewrite firstn_skipn.
        replace (length d - (p + n)) with (length d - p - n) by lia.
        f_equal. f_equal. cbn [Nat.mul]. lia.
      * rewrite Nat.min_r by lia.
        rewrite restBlocks_end by lia. rewrite app_nil_r.
        unfold block.
        rewrite firstn_all2 by (rewrite length_skipn; lia).
        replace (length d - p - n) with 0 by lia.
        rewrite cdiv_zero by assumption.
        f_equal. f_equal. lia.
Qed.

Lemma concat_blocksOf (n : nat) (d : list Z) :
  0 < n -> concat (blocksOf n d) = padded n d.
Proof.
  intros Hn. unfold blocksOf, padded, callsOf.
  destruct d as [|b d].
  - cbn [length]. rewrite Nat.min_0_r.
    rewrite restBlocks_end by (cbn; lia).
    cbn [concat]. rewrite app_nil_r.
    rewrite block_end by (cbn; lia).
    replace (0 - n) with 0 by lia.
    rewrite cdiv_zero by assumption. cbn [map app].
    f_equal. lia.
  - change (block n (b :: d) 0 :: restBlocks n (b :: d) (Nat.min n (length (b :: d))))
      with (block n (b :: d) 0 :: restBlocks n (b :: d) (Nat.min (0 + n) (length (b :: d)))).
    rewrite <- restBlocks_step by (cbn; lia).
    rewrite (concat_restBlocks n (b :: d) (length (b :: d)) 0) by lia.
    rewrite Nat.sub_0_r. cbn [skipn].
    rewrite (cdiv_pos (length (b :: d)) n) by (cbn; lia).
    reflexivity.
Qed.

Lemma padded_length (n : nat) (d : list Z) :
  0 < n -> length (padded n d) = callsOf n d * n.
Proof.
  intros Hn. rewrite <- concat_blocksOf by assumption.
  pose proof (blocksOf_uniform n d) as Hu.
  assert (Hlen : length (blocksOf n d) = callsOf n d).
  { unfold blocksOf, callsOf, restBlocks. cbn [length].
    rewrite length_map, length_seq. f_equal. f_equal. lia. }
  rewrite <- Hlen. clear Hlen.
  induction Hu as [|b bs Hb _ IH]; [reflexivity|].
  cbn [concat length]. rewrite length_app, IH, Hb. lia.
Qed.

Lemma map_snd_quiet (bs : list (list Sample)) : map snd (quiet bs) = bs.
Proof.
  unfold quiet. rewrite map_map. cbn [snd]. apply map_id.
Qed.

Lemma map_snd_idle (n m : nat) :
  map snd (repeat (idle n) m) = repeat (zeros n) m.
Proof. induction m as [|m IH]; [reflexivity|]. cbn. now rewrite IH. Qed.

Lemma map_snd_queueCalls (n : nat) (q : list Buffer.t) (prev : list Post) (m : nat) :
  exists M, m <= M /\
    map snd (queueCalls n prev q ++ repeat (idle n) m)
    = concat (map (fun f => blocksOf n (Buffer.data f)) q) ++ repeat (zeros n) M.
Proof.
  revert prev; induction q as [|f q IH]; intros prev.
  - destruct prev as [|p prev].
    + exists m. split; [lia|]. cbn [queueCalls app map concat].
      apply map_snd_idle.
    + exists (S m). split; [lia|].
      cbn [queueCalls app map concat snd repeat]. f_equal.
      apply map_snd_idle.
  - destruct (IH [bufferProcessed (Buffer.markName f)]) as (M & HM & Heq).
    exists M. split; [exact HM|].
    cbn [queueCalls map concat]. unfold blocksOf.
    rewrite <- !app_comm_cons, <- !app_assoc. cbn [map snd]. f_equal.
    rewrite map_app, map_snd_quiet, Heq. reflexivity.
Qed.

Lemma concat_blocks_stream (n : nat) (q : list Buffer.t) :
  0 < n ->
  concat (concat (map (fun f => blocksOf n (Buffer.data f)) q)) = stream n q.
Proof.
  intros Hn. unfold stream. induction q as [|f q IH]; [reflexivity|].
  cbn [map concat]. rewrite concat_app, IH, concat_blocksOf by assumption.
  reflexivity.
Qed.

Lemma blocks_uniform (n : nat) (q : list Buffer.t) :
  Forall (fun b => length b = n)
    (concat (map (fun f => blocksOf n (Buffer.data f)) q)).
Proof.
  induction q as [|f q IH]; [constructor|].
  cbn [map concat]. apply Forall_app. split; [apply blocksOf_uniform | exact IH].
Qed.

(** With no buffer in play, the samples written by [k] calls are the
    first [k] quanta of the queue's stream, then silence. *)
Lemma run_written (n k : nat) (st : state) :
  0 < n -> currentBuffer st = None ->
  written (snd (run st (repeat (zeros n) k)))
  = firstn (k * n) (stream n (bufferQueue st) ++ zeros (k * n)).
Proof.
  intros Hn Hc. unfold written.
  rewrite (run_future n k k st Hn (Nat.le_refl k)).
  unfold future. rewrite Hc.
  rewrite <- firstn_map.
  destruct (map_snd_queueCalls n (bufferQueue st) [] k) as (M & HM & ->).
  rewrite (concat_firstn_uniform n).
  - rewrite concat_app, concat_blocks_stream, concat_repeat_zeros by assumption.
    unfold zeros. rewrite (firstn_app_repeat 0%Q _ (k * n) (M * n)) by nia.
    reflexivity.
  - apply Forall_app. split; [apply blocks_uniform|].
    apply Forall_forall. intros b Hb. apply repeat_spec in Hb. subst b.
    apply zeros_length.
Qed.

(** *** The order of the queue *)

Lemma insertSorted_Forall (P : Buffer.t -> Prop) (x : Buffer.t) (l : list Buffer.t) :
  P x -> Forall P l -> Forall P (insertSorted x l).
Proof.
  intros Hx Hl. induction Hl as [|y l Hy Hl IH]; cbn.
  - constructor; [exact Hx | constructor].
  - destruct (compareFn x y <=? 0)%Z; repeat constructor; assumption.
Qed.

Lemma insertSorted_sorted (x : Buffer.t) (l : list Buffer.t) :
  StronglySorted bySequenceNumber l ->
  StronglySorted bySequenceNumber (insertSorted x l).
Proof.
  intros Hl. induction Hl as [|y l Hl IH Hy]; cbn.
  - repeat constructor.
  - unfold compareFn.
    destruct (Z.leb_spec (Buffer.sequenceNumber x - Buffer.sequenceNumber y) 0) as [Hle|Hgt].
    + constructor; [constructor; assumption|].
      constructor; [unfold bySequenceNumber; lia|].
      eapply Forall_impl; [|exact Hy].
      unfold bySequenceNumber. intros z Hz. lia.
    + constructor; [exact IH|].
      apply insertSorted_Forall; [unfold bySequenceNumber; lia | exact Hy].
Qed.

Lemma sort_sorted (l : list Buffer.t) : StronglySorted bySequenceNumber (sort l).
Proof.
  induction l as [|x l IH]; cbn; [constructor | now apply insertSorted_sorted].
Qed.

Lemma insertSorted_Permutation (x : Buffer.t) (l : list Buffer.t) :
  Permutation (x :: l) (insertSorted x l).
Proof.
  induction l as [|y l IH]; cbn; [reflexivity|].
  destruct (compareFn x y <=? 0)%Z; [reflexivity|].
  rewrite perm_swap. now apply perm_skip.
Qed.

Lemma sort_Permutation (l : list Buffer.t) : Permutation l (sort l).
Proof.
  induction l as [|x l IH]; cbn; [reflexivity|].
  rewrite <- insertSorted_Permutation. now apply perm_skip.
Qed.

Lemma process_queue (st : state) (channel : list Sample) :
  bufferQueue (fst (fst (process st channel))) = bufferQueue st
  \/ exists f, bufferQueue st = f :: bufferQueue (fst (fst (process st channel))).
Proof.
  unfold process, retire, loadNextBuffer, decodeInto.
  destruct (exhausted st).
  - destruct (currentBuffer st); cbn;
      (destruct (bufferQueue st) as [|f q] eqn:Hq; cbn;
       [left; now rewrite ?Hq
       | destruct (fillChannel _ _ _); cbn; right; now exists f]).
  - destruct (currentBuffer st); cbn; [destruct (fillChannel _ _ _)|]; cbn;
      now left.
Qed.

Lemma reachable_sorted (st : state) :
  reachable st -> StronglySorted bySequenceNumber (bufferQueue st).
Proof.
  induction 1 as [|st ev _ IH|st channel _ IH].
  - constructor.
  - destruct ev as [ulawData markName seq| |]; cbn.
    + destruct seq as [z|]; [destruct (z =? 0)%Z|]; cbn; apply sort_sorted.
    + constructor.
    + exact IH.
  - destruct (process_queue st channel) as [-> | (f & Hq)]; [exact IH|].
    rewrite Hq in IH. now inversion IH.
Qed.

(** *** Where the reports fall in the timeline *)

Lemma queueCalls_split (n : nat) (pre : list Buffer.t) (f : Buffer.t)
  (post : list Buffer.t) (prev : list Post) :
  queueCalls n prev (pre ++ f :: post)
  = bufferCalls n prev (pre ++ [f]) ++ queueCalls n [reportOf f] post.
Proof.
  revert prev; induction pre as [|g pre IH]; intros prev.
  - cbn [app queueCalls bufferCalls]. rewrite app_nil_r. reflexivity.
  - cbn [app queueCalls bufferCalls]. rewrite IH.
    rewrite app_assoc. reflexivity.
Qed.

Lemma future_split (n : nat) (st : state) (pre : list Buffer.t) (f : Buffer.t)
  (post : list Buffer.t) :
  bufferQueue st = pre ++ f :: post ->
  future n st = playing n st (pre ++ [f]) ++ queueCalls n [reportOf f] post.
Proof.
  intros Hq. unfold future, playing, currentCalls, retire. rewrite Hq.
  destruct (currentBuffer st); cbn [snd quiet map app];
    rewrite queueCalls_split; [rewrite app_assoc|]; reflexivity.
Qed.

Lemma length_quiet (bs : list (list Sample)) : length (quiet bs) = length bs.
Proof. apply length_map. Qed.

Lemma length_bufferCalls (n : nat) (q : list Buffer.t) (prev : list Post) :
  length (bufferCalls n prev q)
  = list_sum (map (fun f => callsOf n (Buffer.data f)) q).
Proof.
  revert prev; induction q as [|f q IH]; intros prev; [reflexivity|].
  cbn [bufferCalls map length].
  rewrite length_app, length_quiet, IH.
  unfold restBlocks, callsOf. rewrite length_map, length_seq.
  replace (length (Buffer.data f) - Nat.min n (length (Buffer.data f)))
    with (length (Buffer.data f) - n) by lia.
  unfold list_sum. cbn [fold_right]. lia.
Qed.

Lemma length_playing (n : nat) (st : state) (q : list Buffer.t) :
  length (playing n st q) = callsToPlay n st q.
Proof.
  unfold playing, callsToPlay.
  now rewrite length_app, length_quiet, length_bufferCalls.
Qed.

Lemma map_snd_bufferCalls (n : nat) (q : list Buffer.t) (prev : list Post) :
  map snd (bufferCalls n prev q)
  = concat (map (fun f => blocksOf n (Buffer.data f)) q).
Proof.
  revert prev; induction q as [|f q IH]; intros prev; [reflexivity|].
  cbn [bufferCalls map concat snd]. unfold blocksOf.
  rewrite map_app, map_snd_quiet, IH. reflexivity.
Qed.

Lemma written_playing (n : nat) (st : state) (q : list Buffer.t) :
  0 < n -> written (playing n st q) = remaining n st ++ stream n q.
Proof.
  intros Hn. unfold written, playing, remaining.
  rewrite map_app, map_snd_quiet, map_snd_bufferCalls, concat_app.
  now rewrite concat_blocks_stream.
Qed.

Lemma postsOf_app (a b : list (list Post * list Sample)) :
  postsOf (a ++ b) = postsOf a ++ postsOf b.
Proof. unfold postsOf. now rewrite map_app, concat_app. Qed.

Lemma postsOf_quiet (bs : list (list Sample)) : postsOf (quiet bs) = [].
Proof.
  unfold postsOf, quiet. induction bs as [|b bs IH]; [reflexivity|].
  cbn. exact IH.
Qed.

Lemma postsOf_idle (n m : nat) : postsOf (repeat (idle n) m) = [].
Proof.
  unfold postsOf. induction m as [|m IH]; [reflexivity|]. cbn. exact IH.
Qed.

Lemma postsOf_bufferCalls (n : nat) (q : list Buffer.t) (f : Buffer.t)
  (prev : list Post) :
  postsOf (bufferCalls n prev (q ++ [f])) = prev ++ map reportOf q.
Proof.
  revert prev; induction q as [|g q IH]; intros prev.
  - cbn [app bufferCalls map]. rewrite app_nil_r.
    change ((prev, block n (Buffer.data f) 0)
              :: quiet (restBlocks n (Buffer.data f)
                          (Nat.min n (length (Buffer.data f)))))
      with ([(prev, block n (Buffer.data f) 0)]
              ++ quiet (restBlocks n (Buffer.data f)
                          (Nat.min n (length (Buffer.data f))))).
    rewrite postsOf_app, postsOf_quiet. unfold postsOf. cbn.
    now rewrite !app_nil_r.
  - cbn [app bufferCalls map].
    change (postsOf ([(prev, block n (Buffer.data g) 0)]
              ++ (quiet (restBlocks n (Buffer.data g)
                           (Nat.min n (length (Buffer.data g))))
                  ++ bufferCalls n [bufferProcessed (Buffer.markName g)] (q ++ [f])))
            = prev ++ reportOf g :: map reportOf q).
    rewrite !postsOf_app, postsOf_quiet, IH. unfold postsOf. cbn.
    now rewrite app_nil_r.
Qed.

Lemma postsOf_queueCalls (n : nat) (q : list Buffer.t) (prev : list Post) :
  postsOf (queueCalls n prev q) = prev ++ map reportOf q.
Proof.
  revert prev; induction q as [|g q IH]; intros prev.
  - destruct prev; unfold postsOf; cbn; now rewrite ?app_nil_r.
  - cbn [queueCalls map].
    change (postsOf ([(prev, block n (Buffer.data g) 0)]
              ++ (quiet (restBlocks n (Buffer.data g)
                           (Nat.min n (length (Buffer.data g))))
                  ++ queueCalls n [bufferProcessed (Buffer.markName g)] q))
            = prev ++ reportOf g :: map reportOf q).
    rewrite !postsOf_app, postsOf_quiet, IH. unfold postsOf. cbn.
    now rewrite app_nil_r.
Qed.

Lemma queueCalls_head (n : nat) (q : list Buffer.t) (p : Post) :
  exists out rest,
    queueCalls n [p] q = ([p], out) :: rest
    /\ postsOf rest = map reportOf q.
Proof.
  destruct q as [|g q].
  - exists (zeros n), []. split; reflexivity.
  - eexists _, _. split; [reflexivity|].
    rewrite postsOf_app, postsOf_quiet, postsOf_queueCalls. reflexivity.
Qed.

Lemma reportsOf_app (m : string) (a b : list (list Post * list Sample)) :
  reportsOf m (a ++ b) = reportsOf m a + reportsOf m b.
Proof.
  unfold reportsOf. now rewrite postsOf_app, filter_app, length_app.
Qed.

Lemma reportsOf_firstn (m : string) (k : nat) (a : list (list Post * list Sample)) :
  reportsOf m a = 0 -> reportsOf m (firstn k a) = 0.
Proof.
  intros Ha. rewrite <- (firstn_skipn k a), reportsOf_app in Ha. lia.
Qed.

Lemma no_report_among (m : string) (q : list Buffer.t) :
  (forall g, In g q -> Buffer.markName g <> Some m) ->
  filter (isReportOf m) (map reportOf q) = [].
Proof.
  intros Hq. induction q as [|g q IH]; [reflexivity|].
  cbn [map filter]. rewrite IH by (intros; apply Hq; now right).
  unfold reportOf at 1, isReportOf.
  specialize (Hq g (or_introl eq_refl)).
  destruct (Buffer.markName g) as [m'|]; [|reflexivity].
  destruct (String.eqb_spec m m'); [congruence | reflexivity].
Qed.

Lemma no_report_of_current (m : string) (st : state) :
  currentMark st <> Some m ->
  filter (isReportOf m) (snd (retire st)) = [].
Proof.
  intros Hm. unfold retire.
  destruct (currentBuffer st); [|reflexivity].
  cbn. destruct (currentMark st) as [m'|]; [|reflexivity].
  destruct (String.eqb_spec m m'); [congruence | reflexivity].
Qed.

Lemma reportsOf_playing (n : nat) (m : string) (st : state)
  (pre : list Buffer.t) (f : Buffer.t) :
  currentMark st <> Some m ->
  (forall g, In g pre -> Buffer.markName g <> Some m) ->
  reportsOf m (playing n st (pre ++ [f])) = 0.
Proof.
  intros Hc Hpre. unfold playing.
  rewrite reportsOf_app. unfold reportsOf.
  rewrite postsOf_quiet, postsOf_bufferCalls, filter_app.
  rewrite no_report_of_current, no_report_among by assumption.
  reflexivity.
Qed.

End DecoderProofs.

(** ** The codec *)

Section CodecProofs.

Local Open Scope Z_scope.

Lemma forall_bytes (p : Z -> bool) :
  forallb p MuLaw.bytes = true -> forall b, 0 <= b < 256 -> p b = true.
Proof.
  intros H b Hb. rewrite forallb_forall in H. apply H.
  unfold MuLaw.bytes. apply in_map_iff. exists (Z.to_nat b).
  split; [lia | apply in_seq; lia].
Qed.

(** C1, as the code has it.  The entry that the loop of
    [initMuLawTable] computes for a byte is the G.711 expansion of
    that byte, [decodeMuLaw] reads it from the table, and the table is
    antisymmetric: the entry 128 codes away is the opposite value.
    The magnitudes end at 32124. *)
Theorem table_is_the_antisymmetric_expansion (b : Z) :
  0 <= b < 256 ->
  MuLaw.muLawEntry b = G711.expand b
  /\ nth_error MuLaw.initMuLawTable (Z.to_nat b) = Some (MuLaw.muLawEntry b)
  /\ MuLaw.tableLookup b = Some (MuLaw.muLawEntry b)
  /\ MuLaw.tableLookup ((b + 128) mod 256) = Some (- MuLaw.muLawEntry b)
  /\ - 32124 <= MuLaw.muLawEntry b <= 32124.
Proof.
  intros Hb.
  assert (Hlen : length MuLaw.initMuLawTable = 256%nat)
    by (unfold MuLaw.initMuLawTable; now rewrite length_map, length_seq).
  assert (Hnth : nth_error MuLaw.initMuLawTable (Z.to_nat b)
                 = Some (MuLaw.muLawEntry b)).
  { unfold MuLaw.initMuLawTable.
    rewrite nth_error_map, nth_error_seq.
    destruct (Nat.ltb_spec (Z.to_nat b) 256) as [_|Hge]; [|lia].
    cbn. now rewrite Z2Nat.id by lia. }
  pose (p := fun b =>
    (MuLaw.muLawEntry b =? G711.expand b)
    && match MuLaw.tableLookup b, MuLaw.tableLookup ((b + 128) mod 256) with
       | Some v, Some w =>
           (v =? MuLaw.muLawEntry b) && (w =? - v)
           && (- 32124 <=? v) && (v <=? 32124)
       | _, _ => false
       end).
  assert (Hp : p b = true)
    by (apply forall_bytes; [vm_compute; reflexivity | exact Hb]).
  unfold p in Hp. apply andb_prop in Hp. destruct Hp as (He & Hp).
  apply Z.eqb_eq in He.
  destruct (MuLaw.tableLookup b) as [v|]; [|discriminate].
  destruct (MuLaw.tableLookup ((b + 128) mod 256)) as [w|]; [|discriminate].
  repeat (apply andb_prop in Hp; destruct Hp as (Hp & ?)).
  apply Z.eqb_eq in Hp. subst v.
  repeat split; try assumption; try (f_equal; lia); lia.
Qed.

Lemma table_is_the_antisymmetric_expansion_witness :
  MuLaw.muLawEntry 0 = G711.expand 0
  /\ nth_error MuLaw.initMuLawTable (Z.to_nat 0) = Some (MuLaw.muLawEntry 0)
  /\ MuLaw.tableLookup 0 = Some (MuLaw.muLawEntry 0)
  /\ MuLaw.tableLookup ((0 + 128) mod 256) = Some (- MuLaw.muLawEntry 0)
  /\ - 32124 <= MuLaw.muLawEntry 0 <= 32124.
Proof. apply (table_is_the_antisymmetric_expansion 0). lia. Defined.

(** C1, as stated, fails at the most extreme negative code: the least
    value of the table, [-32124] at the code [0x00], is the opposite
    of the greatest, [32124] at the code [0x80]; the table has no
    asymmetry. *)
Lemma table_has_no_asymmetry :
  G711.least MuLaw.initMuLawTable = - 32124
  /\ G711.greatest MuLaw.initMuLawTable = 32124
  /\ MuLaw.tableLookup 0x00 = Some (- 32124)
  /\ MuLaw.tableLookup 0x80 = Some 32124
  /\ ~ G711.asymmetric MuLaw.initMuLawTable.
Proof.
  assert (Hl : G711.least MuLaw.initMuLawTable = - 32124)
    by (vm_compute; reflexivity).
  assert (Hg : G711.greatest MuLaw.initMuLawTable = 32124)
    by (vm_compute; reflexivity).
  repeat split; try assumption; try reflexivity.
  unfold G711.asymmetric. rewrite Hl, Hg. intros H. now apply H.
Qed.

(** The encoder on a few samples: silence, a small negative sample,
    and samples beyond the clip threshold, which saturate. *)
Example linearToUlaw_silence : Encoder.linearToUlaw 0 = 0xFF.
Proof. reflexivity. Qed.

Example linearToUlaw_small_negative : Encoder.linearToUlaw (- (1 # 2)) = 0x7F.
Proof. reflexivity. Qed.

Example linearToUlaw_saturates :
  Encoder.linearToUlaw (inject_Z 40000) = 0x80
  /\ Encoder.linearToUlaw (inject_Z (-40000)) = 0x00.
Proof. split; reflexivity. Qed.

(** The sum of the sample [4 - 2 ^ -51] and the bias is not a binary64
    value: it is rounded to 136, and the code is that of 4, not that
    of 3. *)
Example linearToUlaw_rounded_sum :
  JS.round64 (4 - (1 # 2251799813685248) + 132) == 136
  /\ Encoder.linearToUlaw (4 - (1 # 2251799813685248)) = 0xFE
  /\ Encoder.linearToUlaw 4 = 0xFE
  /\ Encoder.linearToUlaw 3 = 0xFF.
Proof. repeat split; vm_compute; reflexivity. Qed.

Example encoder_process_decoded :
  Encoder.process (Some [MuLaw.decodeMuLaw 0; MuLaw.decodeMuLaw 200])
  = Some [0; 200].
Proof. vm_compute. reflexivity. Qed.

Lemma tableLookup_bound (b : Z) :
  0 <= b < 256 ->
  exists v, MuLaw.tableLookup b = Some v /\ Z.abs v <= 32124.
Proof.
  intros Hb.
  pose (p := fun b => match MuLaw.tableLookup b with
                      | Some v => Z.abs v <=? 32124
                      | None => false
                      end).
  assert (Hp : p b = true) by (apply forall_bytes; [vm_compute; reflexivity | exact Hb]).
  unfold p in Hp. destruct (MuLaw.tableLookup b) as [v|]; [|discriminate].
  exists v. split; [reflexivity | now apply Z.leb_le].
Qed.

(** C10.  Every byte decodes to a sample strictly between [-1] and
    [1]: the table entry has a magnitude of at most [32124], and the
    sample is that entry over [32768]. *)
Theorem decoded_sample_in_range (b : Z) :
  0 <= b < 256 ->
  exists v,
    MuLaw.tableLookup b = Some v
    /\ Z.abs v <= 32124
    /\ MuLaw.decodeMuLaw b = (v # 32768)%Q
    /\ (-1 < MuLaw.decodeMuLaw b)%Q
    /\ (MuLaw.decodeMuLaw b < 1)%Q.
Proof.
  intros Hb. destruct (tableLookup_bound b Hb) as (v & Hv & Habs).
  exists v. unfold MuLaw.decodeMuLaw. rewrite Hv.
  assert (Heq : (inject_Z v / 32768)%Q = (v # 32768)%Q).
  { unfold Qdiv, Qmult, Qinv, inject_Z. cbn. now rewrite Z.mul_1_r. }
  rewrite Heq. repeat split; try assumption; unfold Qlt; cbn; lia.
Qed.

Lemma decoded_sample_in_range_witness :
  exists v,
    MuLaw.tableLookup 0 = Some v
    /\ Z.abs v <= 32124
    /\ MuLaw.decodeMuLaw 0 = (v # 32768)%Q
    /\ (-1 < MuLaw.decodeMuLaw 0)%Q
    /\ (MuLaw.decodeMuLaw 0 < 1)%Q.
Proof. apply (decoded_sample_in_range 0). lia. Defined.

(** C2, as the code has it.  Encoding the decoded sample gives the
    byte back for every byte but [0x7F]: that byte and [0xFF] both
    decode to the sample [0], which encodes to [0xFF]. *)
Theorem round_trip_except_negative_zero (b : Z) :
  0 <= b < 256 ->
  Encoder.roundTrip b = (if b =? 0x7F then 0xFF else b).
Proof.
  intros Hb.
  pose (p := fun b => Encoder.roundTrip b =? (if b =? 0x7F then 0xFF else b)).
  assert (Hp : p b = true) by (apply forall_bytes; [vm_compute; reflexivity | exact Hb]).
  now apply Z.eqb_eq.
Qed.

Lemma round_trip_except_negative_zero_witness :
  Encoder.roundTrip 0x80 = 0x80.
Proof. apply (round_trip_except_negative_zero 0x80). lia. Defined.

(** C2, as stated, fails on the byte [0x7F]. *)
Lemma round_trip_fails_on_negative_zero :
  ~ (forall b, 0 <= b < 256 -> Encoder.roundTrip b = b).
Proof.
  intros H. specialize (H 0x7F ltac:(lia)).
  vm_compute in H. discriminate.
Qed.

End CodecProofs.

(** ** The decoder worklet: order, silence, markers *)

Section DecoderTheorems.

Import Decoder Timeline.
Local Open Scope nat_scope.

(** C9.  A [process] call with no buffer in play and nothing pending
    writes a zero to every sample of the channel, whatever the
    channel held, posts nothing and leaves the processor idle. *)
Theorem underrun_renders_silence (st : state) (channel : list Sample) :
  currentBuffer st = None ->
  bufferQueue st = [] ->
  snd (process st channel) = repeat 0%Q (length channel)
  /\ snd (fst (process st channel)) = []
  /\ fst (fst (process st channel)) = setInactive st.
Proof.
  intros Hc Hq.
  assert (He : exhausted st = true) by (unfold exhausted; now rewrite Hc).
  rewrite (process_underrun st channel He Hq).
  unfold retire. rewrite Hc. cbn [fst snd].
  repeat split. unfold setInactive. now rewrite Hc, Hq.
Qed.

Lemma underrun_renders_silence_witness :
  snd (process constructor (repeat 1%Q 160)) = repeat 0%Q 160
  /\ snd (fst (process constructor (repeat 1%Q 160))) = []
  /\ fst (fst (process constructor (repeat 1%Q 160))) = setInactive constructor.
Proof.
  exact (underrun_renders_silence constructor (repeat 1%Q 160) eq_refl eq_refl).
Defined.

(** C3.  The pending queue of every state the processor can reach is
    in ascending order of sequence number, and [loadNextBuffer]
    promotes its head, which no pending buffer precedes.  Buffers
    that arrive with the numbers 5, 3, 4 are queued as 3, 4, 5, and
    the samples that [k] calls on quanta of [n] samples write are the
    samples of the buffer 3, then those of 4, then those of 5, each
    padded with silence to the end of its last quantum, then
    silence. *)
Theorem queue_drains_in_sequence_order :
  (forall st, reachable st ->
     StronglySorted bySequenceNumber (bufferQueue st)
     /\ forall st', loadNextBuffer st = (true, st') ->
          exists f, bufferQueue st = f :: bufferQueue st'
                    /\ currentBuffer st' = Some (Buffer.data f)
                    /\ currentMark st' = Buffer.markName f
                    /\ Forall (bySequenceNumber f) (bufferQueue st'))
  /\
  (forall (d5 d3 d4 : list Z) (m5 m3 m4 : option string) (n k : nat),
     0 < n ->
     let st := fst (handleMessages constructor
                      [decode d5 m5 (Some 5%Z);
                       decode d3 m3 (Some 3%Z);
                       decode d4 m4 (Some 4%Z)]) in
     map Buffer.sequenceNumber (bufferQueue st) = [3; 4; 5]%Z
     /\ map Buffer.data (bufferQueue st) = [d3; d4; d5]
     /\ written (snd (run st (repeat (zeros n) k)))
        = firstn (k * n)
            (padded n d3 ++ padded n d4 ++ padded n d5 ++ zeros (k * n))).
Proof.
  split.
  - intros st Hr. pose proof (reachable_sorted st Hr) as Hs.
    split; [exact Hs|].
    intros st' Hl. unfold loadNextBuffer in Hl.
    destruct (bufferQueue st) as [|f q] eqn:Hq; [discriminate|].
    injection Hl as <-. exists f. cbn.
    inversion Hs; subst. repeat split; assumption.
  - intros d5 d3 d4 m5 m3 m4 n k Hn st.
    assert (Hst : st = {| bufferQueue :=
                            [Buffer.mk d3 (markOrNull m3) 3;
                             Buffer.mk d4 (markOrNull m4) 4;
                             Buffer.mk d5 (markOrNull m5) 5];
                          currentBuffer := None;
                          bufferPosition := 0;
                          currentMark := None;
                          isActive := false;
                          sequenceNumber := 0 |}) by reflexivity.
    rewrite Hst. repeat split.
    rewrite run_written by (assumption || reflexivity).
    unfold stream. cbn [bufferQueue map concat Buffer.data].
    now rewrite app_nil_r, <- !app_assoc.
Qed.

Lemma queue_drains_in_sequence_order_witness :
  StronglySorted bySequenceNumber (bufferQueue constructor)
  /\ written (snd (run (fst (handleMessages constructor
                               [decode [0; 1; 2]%Z (Some "m5"%string) (Some 5%Z);
                                decode [255; 128]%Z None (Some 3%Z);
                                decode [10; 20; 30]%Z (Some "m4"%string) (Some 4%Z)]))
                       (repeat (zeros 2) 9)))
     = firstn (9 * 2)
         (padded 2 [255; 128]%Z ++ padded 2 [10; 20; 30]%Z
            ++ padded 2 [0; 1; 2]%Z ++ zeros (9 * 2)).
Proof.
  split.
  - exact (proj1 (proj1 queue_drains_in_sequence_order constructor
                    reachable_constructor)).
  - exact (proj2 (proj2 (proj2 queue_drains_in_sequence_order
                           [0; 1; 2]%Z [255; 128]%Z [10; 20; 30]%Z
                           (Some "m5"%string) None (Some "m4"%string)
                           2 9 (Nat.lt_0_succ 1)))).
Defined.

Lemma sent_app (a b : list Phone.Effect) :
  Phone.sent (a ++ b) = Phone.sent a ++ Phone.sent b.
Proof. unfold Phone.sent. apply flat_map_app. Qed.

(** With the socket open, the main thread turns each report of the
    marker [m] into one mark envelope of that name, and nothing else
    into one. *)
Lemma marks_of_reports (now : Z) (ph : Phone.state) (m : string)
  (posts : list Post) :
  Phone.wsRef ph = Some Phone.OPEN ->
  m <> EmptyString ->
  filter (Phone.isMarkNamed m) (Phone.sent (System.report now ph posts))
  = repeat (Phone.markEnvelope (Phone.streamSidRef ph) now m)
      (length (filter (isReportOf m) posts)).
Proof.
  intros Hws Hm. unfold System.report.
  induction posts as [|p posts IH]; [reflexivity|].
  cbn [flat_map]. rewrite sent_app, filter_app, IH. clear IH.
  cbn [filter].
  destruct p as [bl ql| |[name|]]; cbn [Phone.decoderOnMessage isReportOf].
  - destruct (5 <? ql); reflexivity.
  - reflexivity.
  - destruct name as [|c name].
    + destruct (String.eqb_spec m EmptyString); [contradiction | reflexivity].
    + unfold Phone._sendMessageToClient. rewrite Hws.
      cbn [app Phone.sent flat_map filter Phone.isMarkNamed].
      destruct (String.eqb_spec m (String c name)) as [<-|Hne]; reflexivity.
  - reflexivity.
Qed.

(** Where the report of a pending buffer falls in a run. *)
Lemma run_reports (n k : nat) (st : state) (pre : list Buffer.t) (f : Buffer.t)
  (post : list Buffer.t) (m : string) :
  0 < n ->
  bufferQueue st = pre ++ f :: post ->
  Buffer.markName f = Some m ->
  currentMark st <> Some m ->
  (forall g, In g (pre ++ post) -> Buffer.markName g <> Some m) ->
  let results := snd (run st (repeat (zeros n) k)) in
  let B := callsToPlay n st (pre ++ [f]) in
  (k <= B -> reportsOf m results = 0)
  /\ (B < k -> reportsOf m results = 1)
  /\ (B <= k -> written (firstn B results)
                 = remaining n st ++ stream n (pre ++ [f])).
Proof.
  intros Hn Hq Hf Hc Hothers results B.
  assert (Hres : results
                 = firstn k (playing n st (pre ++ [f])
                             ++ queueCalls n [reportOf f] post
                             ++ repeat (idle n) k)).
  { unfold results. rewrite (run_future n k k st Hn (Nat.le_refl k)).
    rewrite (future_split n st pre f post Hq), <- app_assoc. reflexivity. }
  assert (HB : length (playing n st (pre ++ [f])) = B) by apply length_playing.
  assert (Hpre : reportsOf m (playing n st (pre ++ [f])) = 0).
  { apply reportsOf_playing; [exact Hc|].
    intros g Hg. apply Hothers. apply in_or_app. now left. }
  repeat split.
  - intros Hk. rewrite Hres, firstn_app, HB.
    replace (k - B) with 0 by lia. cbn [firstn]. rewrite app_nil_r.
    now apply reportsOf_firstn.
  - intros Hk. rewrite Hres, firstn_app, HB.
    rewrite firstn_all2 by lia.
    destruct (queueCalls_head n post (reportOf f)) as (out & rest & -> & Hrest).
    destruct (k - B) as [|j] eqn:Hj; [lia|].
    cbn [app firstn].
    change (([reportOf f], out) :: firstn j (rest ++ repeat (idle n) k))
      with ([([reportOf f], out)] ++ firstn j (rest ++ repeat (idle n) k)).
    rewrite !reportsOf_app, Hpre.
    rewrite (reportsOf_firstn m j).
    + unfold reportsOf, postsOf, reportOf. cbn. rewrite Hf. cbn.
      now rewrite String.eqb_refl.
    + rewrite reportsOf_app. unfold reportsOf.
      rewrite Hrest, postsOf_idle, no_report_among; [reflexivity|].
      intros g Hg. apply Hothers. apply in_or_app. now right.
  - intros Hk. rewrite Hres, firstn_firstn.
    rewrite Nat.min_l by exact Hk.
    rewrite firstn_app, HB, Nat.sub_diag. cbn [firstn]. rewrite app_nil_r.
    rewrite firstn_all2 by lia.
    now apply written_playing.
Qed.




End DecoderTheorems.

(** ** The session: markers, clear and disconnect *)

Section PhoneTheorems.

Import Phone.
Local Open Scope Z_scope.

Lemma processMediaMessage_forwards
  (atob : string -> Threw string) (st : state) (message : MediaMessage)
  (muLawData : list Z) :
  ulawDecoderNodeRef st = true ->
  base64ToUint8Array atob (payload message) = returned muLawData ->
  toDecoder (snd (processMediaMessage atob st message))
  = [Decoder.decode muLawData (pendingMarkFromServerRef st)
       (Some (if sequenceNumber message =? 0
              then chunk message else sequenceNumber message))]
  /\ fst (processMediaMessage atob st message)
     = setPendingMarkFromServerRef st None.
Proof.
  intros Hnode Hdata. unfold processMediaMessage.
  rewrite Hdata, Hnode. split; reflexivity.
Qed.

(** C8.  The name of an inbound mark is kept in the one slot
    [pendingMarkFromServerRef]; a second mark before any media frame
    replaces it; the next media frame forwarded to the decoder
    carries the name in the slot and empties the slot, so that the
    frame after it carries none. *)
Theorem mark_slot_single_most_recent
  (atob : string -> Threw string) (now : Z) (st : state)
  (m m' : string) (message : MediaMessage) (muLawData : list Z) :
  m <> EmptyString ->
  m' <> EmptyString ->
  ulawDecoderNodeRef st = true ->
  base64ToUint8Array atob (payload message) = returned muLawData ->
  let handle := _handleWebSocketMessage atob now in
  let number := Some (if sequenceNumber message =? 0
                      then chunk message else sequenceNumber message) in
  let st1 := fst (handle st (mark (Some m))) in
  let st2 := fst (handle st1 (mark (Some m'))) in
  let next1 := handle st1 (media message) in
  let next2 := handle st2 (media message) in
  pendingMarkFromServerRef st1 = Some m
  /\ pendingMarkFromServerRef st2 = Some m'
  /\ toDecoder (snd next1) = [Decoder.decode muLawData (Some m) number]
  /\ pendingMarkFromServerRef (fst next1) = None
  /\ toDecoder (snd next2) = [Decoder.decode muLawData (Some m') number]
  /\ pendingMarkFromServerRef (fst next2) = None
  /\ toDecoder (snd (handle (fst next1) (media message)))
     = [Decoder.decode muLawData None number].
Proof.
  intros Hm Hm' Hnode Hdata handle number st1 st2 next1 next2.
  destruct m as [|c m]; [contradiction|].
  destruct m' as [|c' m']; [contradiction|].
  assert (Hmedia : forall s,
             ulawDecoderNodeRef s = true ->
             toDecoder (snd (handle s (media message)))
             = [Decoder.decode muLawData (pendingMarkFromServerRef s) number]
             /\ fst (handle s (media message))
                = setPendingMarkFromServerRef s None).
  { intros s Hs. subst handle. cbn [_handleWebSocketMessage].
    destruct (processMediaMessage_forwards atob s message muLawData Hs Hdata)
      as (Hposted & Hstate).
    destruct (processMediaMessage atob s message) as [s' effects].
    cbn [fst snd] in *. split; [exact Hposted | exact Hstate]. }
  assert (H1 : st1 = setPendingMarkFromServerRef st (Some (String c m)))
    by reflexivity.
  assert (H2 : st2 = setPendingMarkFromServerRef st1 (Some (String c' m')))
    by reflexivity.
  assert (Hn1 : ulawDecoderNodeRef st1 = true) by (rewrite H1; exact Hnode).
  assert (Hn2 : ulawDecoderNodeRef st2 = true) by (rewrite H2; exact Hn1).
  destruct (Hmedia st1 Hn1) as (Hp1 & Hs1).
  destruct (Hmedia st2 Hn2) as (Hp2 & Hs2).
  assert (Hn3 : ulawDecoderNodeRef (fst next1) = true)
    by (unfold next1; rewrite Hs1; exact Hn1).
  destruct (Hmedia (fst next1) Hn3) as (Hp3 & _).
  assert (Hslot : pendingMarkFromServerRef (fst next1) = None)
    by exact (f_equal pendingMarkFromServerRef Hs1).
  rewrite Hslot in Hp3.
  repeat split.
  - exact Hp1.
  - exact Hslot.
  - exact Hp2.
  - exact (f_equal pendingMarkFromServerRef Hs2).
  - exact Hp3.
Qed.

Lemma mark_slot_single_most_recent_witness :
  let handle := _handleWebSocketMessage Scenario.atob Scenario.now in
  let st1 := fst (handle Scenario.active (mark (Some "first"%string))) in
  let st2 := fst (handle st1 (mark (Some "second"%string))) in
  pendingMarkFromServerRef st2 = Some "second"%string
  /\ toDecoder (snd (handle st2 (media (mkMediaMessage 1 1 "AAEC"))))
     = [Decoder.decode [0; 1; 2] (Some "second"%string) (Some 1)].
Proof.
  pose proof (mark_slot_single_most_recent Scenario.atob Scenario.now
                Scenario.active "first" "second"
                (mkMediaMessage 1 1 "AAEC") [0; 1; 2]
                ltac:(discriminate) ltac:(discriminate) eq_refl eq_refl)
    as (_ & H2 & _ & _ & H5 & _).
  split; [exact H2 | exact H5].
Defined.

(** C6.  A second [_disconnectFromCall] right after a first leaves
    the state as it is and does nothing but write the entry line to
    the console: it sends nothing, closes nothing and starts no
    timer.  When the first call finds the socket open, the two calls
    together send one stop envelope and close the socket once, and
    the timer of the first call finds nothing left to close. *)
Theorem disconnect_twice_is_disconnect_once (st : state) :
  let first := _disconnectFromCall st in
  let second := _disconnectFromCall (fst first) in
  fst second = fst first
  /\ snd second = [consoleLog "Disconnecting from call"]
  /\ (isDisconnecting st = false ->
      wsRef st = Some OPEN ->
      filter isStop (sent (snd first ++ snd second))
      = [stopEnvelope (sequenceNumberRef st) (callSidRef st) (streamSidRef st)]
      /\ filter isClose (snd first ++ snd second)
         = [wsClose 1000 "User disconnected"]
      /\ fire closeAfterStop (fst second) = (fst second, [])).
Proof.
  destruct st as [disconnecting ws ctx sid cid seq nst queue marks source slot node].
  cbv zeta.
  destruct disconnecting.
  - split; [reflexivity | split; [reflexivity|]].
    intros Hnot. discriminate Hnot.
  - destruct ws as [[ | | | ]|]; destruct ctx as [[t [e|]]|];
      (split; [reflexivity | split; [reflexivity|]]);
      intros _ Hopen; try discriminate Hopen; repeat split.
Qed.

Lemma disconnect_twice_is_disconnect_once_witness :
  let first := _disconnectFromCall Scenario.active in
  let second := _disconnectFromCall (fst first) in
  filter isStop (sent (snd first ++ snd second))
  = [stopEnvelope 7 (Some "CAcall"%string) (Some "MZstream"%string)]
  /\ filter isClose (snd first ++ snd second)
     = [wsClose 1000 "User disconnected"]
  /\ fire closeAfterStop (fst second) = (fst second, []).
Proof.
  exact (proj2 (proj2 (disconnect_twice_is_disconnect_once Scenario.active))
           eq_refl eq_refl).
Defined.

(** C7, on the code.  With the socket open, [_disconnectFromCall]
    sends the stop envelope, starts the 100 ms timer and closes the
    socket with the code 1000 in the same call; when the timer fires
    there is no socket left and it does nothing. *)
Theorem disconnect_closes_before_the_grace_delay :
  snd (_disconnectFromCall Scenario.active)
  = [consoleLog "Disconnecting from call";
     wsSend (stopEnvelope 7 (Some "CAcall"%string) (Some "MZstream"%string));
     addLog "Sent stop message to media server" info;
     setTimeout closeAfterStop 100;
     addLog "WebSocket connection closed" info;
     wsClose 1000 "User disconnected";
     addLog "WebSocket connection closed" success;
     audioContextClose;
     addLog "Audio context closed" info]
  /\ wsRef (fst (_disconnectFromCall Scenario.active)) = None
  /\ snd (fire closeAfterStop (fst (_disconnectFromCall Scenario.active))) = [].
Proof. repeat split. Qed.

(** C5, on the code.  Two frames with the markers ["first"] and
    ["second"] are pending in the worklet when the peer's [clear]
    arrives.  The worklet drops both buffers and posts [cleared]
    only; [clearAudioBuffer] walks [pendingMarksRef], which holds
    nothing; no mark envelope is sent, then or in the render calls
    that follow, which write silence. *)
Theorem clear_drops_pending_markers :
  let queued := fst (System.receiveAll Scenario.atob Scenario.now
                       Scenario.session Scenario.twoMarkedFrames) in
  let cleared := System.receive Scenario.atob Scenario.now queued clearPlayback in
  let rendered := System.render Scenario.now (fst cleared) (repeat 1%Q 160) in
  map Decoder.Buffer.markName (Decoder.bufferQueue (System.decoder queued))
  = [Some "first"%string; Some "second"%string]
  /\ pendingMarksRef (System.phone queued) = []
  /\ sent (snd cleared) = []
  /\ Decoder.bufferQueue (System.decoder (fst cleared)) = []
  /\ Decoder.currentBuffer (System.decoder (fst cleared)) = None
  /\ snd rendered = repeat 0%Q 160
  /\ sent (snd (fst rendered)) = [].
Proof. vm_compute. repeat split. Qed.

End PhoneTheorems.

(** ** The encoder and the table: the companding law *)

Section CompandingProofs.
Import Companding.

Lemma forall_below (n : nat) (p : Z -> bool) :
  forallb p (map Z.of_nat (seq 0 n)) = true ->
  forall z, 0 <= z < Z.of_nat n -> p z = true.
Proof.
  intros H z Hz. rewrite forallb_forall in H. apply H.
  apply in_map_iff. exists (Z.to_nat z). split; [lia | apply in_seq; lia].
Qed.

Lemma toInt32_small (z : Z) : - 2 ^ 31 <= z < 2 ^ 31 -> JS.toInt32 z = z.
Proof.
  intros Hz. unfold JS.toInt32. rewrite Z.mod_small; lia.
Qed.

Lemma testbit_top (v k : Z) :
  0 <= k -> 0 <= v < 2 ^ (k + 1) -> Z.testbit v k = (2 ^ k <=? v).
Proof.
  intros Hk Hv. rewrite Z.pow_add_r, Z.pow_1_r in Hv by lia.
  assert (Hp : 0 < 2 ^ k) by (apply Z.pow_pos_nonneg; lia).
  destruct (Z.leb_spec (2 ^ k) v) as [Hge|Hlt].
  - apply Z.testbit_true; [exact Hk|].
    replace (v / 2 ^ k) with 1; [reflexivity|].
    apply Z.div_unique with (r := v - 2 ^ k); lia.
  - apply Bool.not_true_is_false. intros Ht.
    apply Z.testbit_true in Ht; [|exact Hk].
    rewrite Z.div_small in Ht by lia. discriminate Ht.
Qed.

Lemma land_pow2 (v k : Z) :
  0 <= k -> Z.land v (2 ^ k) = if Z.testbit v k then 2 ^ k else 0.
Proof.
  intros Hk. apply Z.bits_inj'. intros n Hn.
  rewrite Z.land_spec, Z.pow2_bits_eqb by exact Hk.
  destruct (Z.eqb_spec k n) as [->|Hne].
  - destruct (Z.testbit v n); cbn.
    + now rewrite Z.pow2_bits_true.
    + now rewrite Z.bits_0.
  - rewrite Bool.andb_false_r.
    destruct (Z.testbit v k); [|now rewrite Z.bits_0].
    rewrite Z.pow2_bits_false by lia. reflexivity.
Qed.

Lemma band_pow2_test (v k : Z) :
  0 <= k < 31 -> 0 <= v < 2 ^ (k + 1) ->
  (JS.band v (2 ^ k) =? 0) = (v <? 2 ^ k).
Proof.
  intros Hk Hv.
  assert (Hp : 0 < 2 ^ k) by (apply Z.pow_pos_nonneg; lia).
  assert (Hk31 : 2 ^ k < 2 ^ 31) by (apply Z.pow_lt_mono_r; lia).
  assert (Hv31 : 2 ^ (k + 1) <= 2 ^ 31) by (apply Z.pow_le_mono_r; lia).
  unfold JS.band. rewrite (toInt32_small v), (toInt32_small (2 ^ k)) by lia.
  rewrite land_pow2 by lia. rewrite testbit_top by lia.
  destruct (Z.leb_spec (2 ^ k) v); destruct (Z.ltb_spec v (2 ^ k)); try lia.
  - rewrite toInt32_small by lia. apply Z.eqb_neq. lia.
  - reflexivity.
Qed.

Lemma shr_pow2 (k : Z) :
  0 <= k < 30 -> JS.shr (2 ^ (k + 1)) 1 = 2 ^ k.
Proof.
  intros Hk. unfold JS.shr.
  assert (Hp : 0 < 2 ^ (k + 1) < 2 ^ 31).
  { split; [apply Z.pow_pos_nonneg; lia | apply Z.pow_lt_mono_r; lia]. }
  rewrite toInt32_small by lia.
  change (Z.land 1 31) with 1.
  rewrite Z.shiftr_div_pow2, Z.pow_1_r by lia.
  rewrite Z.pow_add_r, Z.pow_1_r by lia.
  apply Z.div_mul. lia.
Qed.

(** The loop stops at the highest set bit of the biased magnitude. *)
Lemma exponentLoop_segment (e : nat) (sample : Q) (v : Z) :
  JS.toInt32Q sample = v ->
  (e <= 7)%nat ->
  128 <= v < 2 ^ (Z.of_nat e + 8) ->
  Z.of_nat (Encoder.exponentLoop sample (2 ^ (Z.of_nat e + 7)) e) = segment v.
Proof.
  intros Hs. unfold segment. induction e as [|e IH]; intros He Hv.
  - cbn [Encoder.exponentLoop]. cbn in Hv.
    rewrite (Z.log2_unique v 7) by (cbn; lia). reflexivity.
  - cbn [Encoder.exponentLoop]. rewrite Hs.
    replace (Z.of_nat (S e) + 7) with (Z.of_nat e + 7 + 1) by lia.
    replace (Z.of_nat (S e) + 8) with (Z.of_nat e + 7 + 1 + 1) in Hv by lia.
    rewrite band_pow2_test by lia.
    destruct (Z.ltb_spec v (2 ^ (Z.of_nat e + 7 + 1))) as [Hlt|Hge].
    + rewrite shr_pow2 by lia. apply IH; [lia|].
      replace (Z.of_nat e + 8) with (Z.of_nat e + 7 + 1) by lia. lia.
    + rewrite (Z.log2_unique v (Z.of_nat e + 7 + 1)) by lia. lia.
Qed.

Lemma Qfloor_add_Z (x : Q) (k : Z) : Qfloor (x + inject_Z k) = Qfloor x + k.
Proof.
  destruct x as [n d]. unfold Qplus, inject_Z, Qfloor. cbn [Qnum Qden].
  rewrite Z.mul_1_r, Pos.mul_1_r. apply Z.div_add. lia.
Qed.

Lemma Qfloor_nonneg (x : Q) : (0 <= x)%Q -> 0 <= Qfloor x.
Proof.
  intros Hx. change 0 with (Qfloor (inject_Z 0)) at 1.
  rewrite Qfloor_Z. now apply Qfloor_resp_le in Hx.
Qed.

(** *** The rounding of the biased sum *)

Lemma rne_floor (q : Q) : Qfloor q <= JS.rne q <= Qfloor q + 1.
Proof.
  unfold JS.rne. cbv zeta.
  destruct (q - inject_Z (Qfloor q) ?= 1 # 2)%Q; [destruct (Z.even _)| |]; lia.
Qed.

(** Rounding does not cross an integer. *)
Lemma rne_between (q : Q) (a b : Z) :
  (inject_Z a <= q)%Q -> (q <= inject_Z b)%Q -> a <= JS.rne q <= b.
Proof.
  intros Ha Hb.
  pose proof (Qfloor_resp_le _ _ Ha) as Hfa. rewrite Qfloor_Z in Hfa.
  pose proof (Qfloor_resp_le _ _ Hb) as Hfb. rewrite Qfloor_Z in Hfb.
  pose proof (rne_floor q) as Hr.
  split; [lia|].
  destruct (Z.eq_dec (Qfloor q) b) as [Heq|Hne]; [|lia].
  assert (Hlt : (q - inject_Z (Qfloor q) < 1 # 2)%Q).
  { rewrite Heq. lra. }
  unfold JS.rne. cbv zeta. rewrite Qlt_alt in Hlt. rewrite Hlt. lia.
Qed.

Lemma rne_mono (q1 q2 : Q) : (q1 <= q2)%Q -> JS.rne q1 <= JS.rne q2.
Proof.
  intros Hle.
  pose proof (Qfloor_resp_le _ _ Hle) as Hf.
  pose proof (rne_floor q1) as H1. pose proof (rne_floor q2) as H2.
  destruct (Z.eq_dec (Qfloor q1) (Qfloor q2)) as [Heq|Hne]; [|lia].
  unfold JS.rne in *. cbv zeta in *. rewrite <- Heq in *.
  destruct (q1 - inject_Z (Qfloor q1) ?= 1 # 2)%Q eqn:C1;
    destruct (q2 - inject_Z (Qfloor q1) ?= 1 # 2)%Q eqn:C2;
    try (destruct (Z.even (Qfloor q1))); try lia;
    try rewrite <- Qeq_alt in *; try rewrite <- Qlt_alt in *;
    try rewrite <- Qgt_alt in *; exfalso; lra.
Qed.

Lemma rne_integer (q : Q) (z : Z) : q == inject_Z z -> JS.rne q = z.
Proof.
  intros Hq. unfold JS.rne. cbv zeta.
  rewrite (Qfloor_comp _ _ Hq), Qfloor_Z.
  assert (Hlt : (q - inject_Z z < 1 # 2)%Q) by (rewrite Hq; lra).
  rewrite Qlt_alt in Hlt. now rewrite Hlt.
Qed.

Lemma Qabs_opp_eq (s : Q) : Qabs (- s) = Qabs s.
Proof. destruct s as [n d]. unfold Qabs, Qopp. cbn. now rewrite Z.abs_opp. Qed.

Lemma Qabs_pos_eq (t : Q) : (0 <= t)%Q -> Qabs t = t.
Proof.
  destruct t as [n d]. unfold Qle, Qabs. cbn. intros H.
  rewrite Z.abs_eq by lia. reflexivity.
Qed.

(** Between 132 and 32767 the binary64 values are the multiples of
    [2 ^ (k - 52)], [k] the position of the highest bit of the integer
    part. *)
Lemma round64_in_range (t : Q) :
  (132 <= t)%Q -> (t <= 32767)%Q ->
  exists p : positive,
    Zpos p = 2 ^ (52 - Z.log2 (Qfloor t))
    /\ JS.round64 t = (inject_Z (JS.rne (t * inject_Z (Zpos p))) * (1 # p))%Q.
Proof.
  intros Hlo Hhi.
  pose proof (Qfloor_resp_le _ _ Hlo) as Flo.
  pose proof (Qfloor_resp_le _ _ Hhi) as Fhi.
  change (Qfloor 132) with 132 in Flo. change (Qfloor 32767) with 32767 in Fhi.
  assert (K7 : 7 <= Z.log2 (Qfloor t)) by (apply Z.log2_le_pow2; cbn; lia).
  assert (K15 : Z.log2 (Qfloor t) < 15) by (apply Z.log2_lt_pow2; cbn; lia).
  exists (Z.to_pos (2 ^ (52 - Z.log2 (Qfloor t)))).
  assert (Hp : 0 < 2 ^ (52 - Z.log2 (Qfloor t))) by (apply Z.pow_pos_nonneg; lia).
  split; [now rewrite Z2Pos.id|].
  unfold JS.round64.
  assert (Hz : Qeq_bool t 0 = false).
  { apply Bool.not_true_is_false. intros H. apply Qeq_bool_iff in H. lra. }
  assert (Hnn : Qle_bool 0 t = true) by (apply Qle_bool_iff; lra).
  assert (H1 : Qle_bool 1 t = true) by (apply Qle_bool_iff; lra).
  rewrite Hz, Hnn, Qabs_pos_eq by lra. cbv zeta.
  unfold JS.exponent. rewrite H1. unfold JS.pow2.
  destruct (Z.leb_spec 0 (Z.log2 (Qfloor t) - 52)) as [?|_]; [lia|].
  replace (- (Z.log2 (Qfloor t) - 52)) with (52 - Z.log2 (Qfloor t)) by lia.
  reflexivity.
Qed.

Lemma scaled_back (p : positive) (r1 r2 : Z) :
  r1 <= r2 -> (inject_Z r1 * (1 # p) <= inject_Z r2 * (1 # p))%Q.
Proof.
  intros H. apply Qmult_le_compat_r; [|discriminate].
  now rewrite <- Zle_Qle.
Qed.

Lemma unscale (p : positive) : (inject_Z (Zpos p) * (1 # p) == 1)%Q.
Proof. unfold Qeq, Qmult, inject_Z. cbn. lia. Qed.

(** The integer part of the rounded sum is that of the sum, or one
    more. *)
Lemma floor_round64_bracket (t : Q) :
  (132 <= t)%Q -> (t <= 32767)%Q ->
  Qfloor t <= Qfloor (JS.round64 t) <= Qfloor t + 1.
Proof.
  intros Hlo Hhi.
  destruct (round64_in_range t Hlo Hhi) as (p & Hp & ->).
  pose proof (Qfloor_le t) as Hfl. pose proof (Qlt_floor t) as Hfu.
  assert (Ha : (inject_Z (Qfloor t * Zpos p) <= t * inject_Z (Zpos p))%Q).
  { rewrite inject_Z_mult. apply Qmult_le_compat_r; [exact Hfl|].
    now rewrite <- (Zle_Qle 0). }
  assert (Hb : (t * inject_Z (Zpos p) <= inject_Z ((Qfloor t + 1) * Zpos p))%Q).
  { rewrite inject_Z_mult. apply Qmult_le_compat_r; [now apply Qlt_le_weak|].
    now rewrite <- (Zle_Qle 0). }
  destruct (rne_between _ _ _ Ha Hb) as (Ra & Rb).
  apply (scaled_back p) in Ra, Rb.
  rewrite inject_Z_mult, <- Qmult_assoc, unscale, Qmult_1_r in Ra, Rb.
  apply Qfloor_resp_le in Ra, Rb. rewrite Qfloor_Z in Ra, Rb. lia.
Qed.

Lemma floor_round64_mono (s t : Q) :
  (132 <= s)%Q -> (s <= t)%Q -> (t <= 32767)%Q ->
  Qfloor (JS.round64 s) <= Qfloor (JS.round64 t).
Proof.
  intros Hlo Hst Hhi.
  assert (Hs : (s <= 32767)%Q) by lra. assert (Ht : (132 <= t)%Q) by lra.
  pose proof (floor_round64_bracket s Hlo Hs) as Bs.
  pose proof (floor_round64_bracket t Ht Hhi) as Bt.
  pose proof (Qfloor_resp_le _ _ Hst) as Hf.
  destruct (Z.eq_dec (Qfloor s) (Qfloor t)) as [Heq|Hne]; [|lia].
  destruct (round64_in_range s Hlo Hs) as (p & Hp & ->).
  destruct (round64_in_range t Ht Hhi) as (p' & Hp' & ->).
  rewrite Heq, <- Hp' in Hp. injection Hp as ->.
  apply Qfloor_resp_le, scaled_back, rne_mono.
  apply Qmult_le_compat_r; [exact Hst|]. now rewrite <- (Zle_Qle 0).
Qed.

(** A sum with at most 38 binary digits after the point is a binary64
    value. *)
Lemma round64_exact (t : Q) (m : Z) :
  (132 <= t)%Q -> (t <= 32767)%Q -> t == m # 274877906944 ->
  JS.round64 t == t.
Proof.
  intros Hlo Hhi Hm.
  pose proof (Qfloor_resp_le _ _ Hlo) as Flo.
  pose proof (Qfloor_resp_le _ _ Hhi) as Fhi.
  change (Qfloor 132) with 132 in Flo. change (Qfloor 32767) with 32767 in Fhi.
  assert (K7 : 7 <= Z.log2 (Qfloor t)) by (apply Z.log2_le_pow2; cbn; lia).
  assert (K15 : Z.log2 (Qfloor t) < 15) by (apply Z.log2_lt_pow2; cbn; lia).
  destruct (round64_in_range t Hlo Hhi) as (p & Hp & ->).
  set (k := Z.log2 (Qfloor t)) in *.
  assert (Hpow : Zpos p = 2 ^ (14 - k) * 274877906944).
  { rewrite Hp. change 274877906944 with (2 ^ 38).
    rewrite <- Z.pow_add_r by lia. f_equal. lia. }
  assert (Hint : t * inject_Z (Zpos p) == inject_Z (m * 2 ^ (14 - k))).
  { rewrite Hm, Hpow. unfold Qeq, Qmult, inject_Z. cbn [Qnum Qden].
    rewrite Pos.mul_1_r. change (Zpos 274877906944) with 274877906944. ring. }
  rewrite (rne_integer _ _ Hint), <- Hint, <- Qmult_assoc, unscale.
  apply Qmult_1_r.
Qed.

Lemma clipped_range (s : Q) :
  (0 <= clipped s)%Q /\ (clipped s <= 32635)%Q
  /\ Qfloor (clipped s) = integerPart s.
Proof.
  pose proof (Qabs_nonneg s) as Habs.
  unfold clipped, integerPart, JS.ltb.
  change (inject_Z Encoder.CLIP) with 32635%Q. unfold Encoder.CLIP.
  destruct (Qle_bool (Qabs s) 32635) eqn:Hclip; cbn [negb].
  - apply Qle_bool_iff in Hclip.
    pose proof (Qfloor_resp_le _ _ Hclip) as Hf.
    change (Qfloor 32635) with 32635 in Hf.
    repeat split; try assumption. lia.
  - assert (Hgt : (32635 <= Qabs s)%Q).
    { apply Qnot_lt_le. intros Hlt. apply Qlt_le_weak in Hlt.
      apply Qle_bool_iff in Hlt. congruence. }
    pose proof (Qfloor_resp_le _ _ Hgt) as Hf.
    change (Qfloor 32635) with 32635 in Hf.
    repeat split; try lra. change (Qfloor 32635) with 32635. lia.
Qed.

Lemma biased_sum_range (s : Q) :
  (132 <= clipped s + inject_Z Encoder.BIAS)%Q
  /\ (clipped s + inject_Z Encoder.BIAS <= 32767)%Q.
Proof.
  destruct (clipped_range s) as (H0 & H1 & _).
  change (inject_Z Encoder.BIAS) with 132%Q. split; lra.
Qed.

(** The integer that the bit operations work on is the integer part of
    the clipped magnitude plus the bias, or one more. *)
Lemma biased_bracket (s : Q) :
  integerPart s + Encoder.BIAS <= biased s <= integerPart s + Encoder.BIAS + 1
  /\ 132 <= biased s <= 32767.
Proof.
  destruct (biased_sum_range s) as (Hlo & Hhi).
  destruct (clipped_range s) as (H0 & _ & Hf).
  pose proof (floor_round64_bracket _ Hlo Hhi) as Hb.
  rewrite Qfloor_add_Z, Hf in Hb.
  pose proof (floor_round64_mono _ 32767%Q Hlo Hhi ltac:(lra)) as Hm.
  assert (Htop : Qfloor (JS.round64 32767) = 32767) by (vm_compute; reflexivity).
  rewrite Htop in Hm.
  pose proof (Qfloor_nonneg _ H0) as Hnn. rewrite Hf in Hnn.
  unfold biased. unfold Encoder.BIAS in *. lia.
Qed.

(** On a sample with at most 38 binary digits after the point nothing
    is rounded. *)
Lemma biased_exact (s : Q) (m : Z) :
  clipped s == m # 274877906944 ->
  biased s = integerPart s + Encoder.BIAS.
Proof.
  intros Hm.
  destruct (biased_sum_range s) as (Hlo & Hhi).
  destruct (clipped_range s) as (_ & _ & Hf).
  assert (Hsum : clipped s + inject_Z Encoder.BIAS
                 == (m + 132 * 274877906944) # 274877906944).
  { rewrite Hm. unfold Qeq, Qplus, inject_Z, Encoder.BIAS. cbn [Qnum Qden].
    change (Zpos 274877906944) with 274877906944.
    rewrite Pos2Z.inj_mul. change (Zpos 274877906944) with 274877906944.
    change (Zpos 1) with 1. ring. }
  unfold biased.
  rewrite (Qfloor_comp _ _ (round64_exact _ _ Hlo Hhi Hsum)).
  now rewrite Qfloor_add_Z, Hf.
Qed.

Lemma fixedPoint_clipped (s : Q) :
  fixedPoint s -> exists m : Z, clipped s == m # 274877906944.
Proof.
  intros (m & Hm). unfold clipped.
  destruct (JS.ltb (inject_Z Encoder.CLIP) (Qabs s)).
  - exists (Encoder.CLIP * 274877906944).
    unfold Qeq, inject_Z, Encoder.CLIP. cbn. reflexivity.
  - exists (Z.abs m). rewrite Hm. reflexivity.
Qed.

(** The number that the bit operations of [linearToUlaw] see. *)
Lemma biased_seen (s : Q) :
  JS.toInt32Q
    (JS.round64
       ((if JS.ltb (inject_Z Encoder.CLIP) (Qabs s)
         then inject_Z Encoder.CLIP else Qabs s)
        + inject_Z Encoder.BIAS))
  = biased s
  /\ 132 <= biased s <= 32767.
Proof.
  destruct (biased_bracket s) as (_ & Hv).
  split; [|exact Hv].
  fold (clipped s). unfold JS.toInt32Q, JS.trunc.
  assert (Hnn : (0 <= JS.round64 (clipped s + inject_Z Encoder.BIAS))%Q).
  { apply Qle_trans with (y := inject_Z (biased s)).
    - rewrite <- (Zle_Qle 0). lia.
    - apply Qfloor_le. }
  apply Qle_bool_iff in Hnn. rewrite Hnn.
  fold (biased s). apply toInt32_small. lia.
Qed.

Lemma pack_complement (sign e m : Z) :
  sign = 0 \/ sign = 128 -> 0 <= e <= 7 -> 0 <= m <= 15 ->
  pack sign e m = 255 - sign - 16 * e - m.
Proof.
  intros Hsign He Hm.
  pose (p := fun i => pack (128 * (i / 128)) ((i / 16) mod 8) (i mod 16) =? 255 - i).
  assert (Hp : p (sign + 16 * e + m) = true).
  { apply (forall_below 256); [vm_compute; reflexivity | lia]. }
  unfold p in Hp. apply Z.eqb_eq in Hp.
  replace (128 * ((sign + 16 * e + m) / 128)) with sign in Hp
    by (destruct Hsign; subst sign; Z.div_mod_to_equations; lia).
  replace (((sign + 16 * e + m) / 16) mod 8) with e in Hp
    by (destruct Hsign; subst sign; Z.div_mod_to_equations; lia).
  replace ((sign + 16 * e + m) mod 16) with m in Hp
    by (destruct Hsign; subst sign; Z.div_mod_to_equations; lia).
  lia.
Qed.

Lemma pack_unfold (sign e m : Z) :
  pack sign e m
  = JS.band (JS.bnot (JS.bor (JS.bor sign (JS.shl e 4)) m)) 255.
Proof. reflexivity. Qed.

Lemma segment_range (v : Z) : 132 <= v <= 32767 -> 0 <= segment v <= 7.
Proof.
  intros Hv. unfold segment.
  assert (7 <= Z.log2 v) by (apply Z.log2_le_pow2; cbn; lia).
  assert (Z.log2 v < 15) by (apply Z.log2_lt_pow2; cbn; lia).
  lia.
Qed.

Lemma segment_bounds (v : Z) :
  132 <= v <= 32767 ->
  16 * 2 ^ (segment v + 3) <= v < 32 * 2 ^ (segment v + 3).
Proof.
  intros Hv. pose proof (segment_range v Hv) as He.
  pose proof (Z.log2_spec v ltac:(lia)) as Hl.
  unfold segment in *.
  assert (H4 : 2 ^ (Z.log2 v) = 2 ^ (Z.log2 v - 7 + 3) * 16).
  { change 16 with (2 ^ 4). rewrite <- Z.pow_add_r by lia. f_equal. lia. }
  assert (H5 : 2 ^ Z.succ (Z.log2 v) = 2 ^ (Z.log2 v - 7 + 3) * 32).
  { change 32 with (2 ^ 5). rewrite <- Z.pow_add_r by lia. f_equal. lia. }
  lia.
Qed.

Lemma step_range (v : Z) : 132 <= v <= 32767 -> 0 <= step v <= 15.
Proof.
  intros Hv. pose proof (segment_range v Hv) as He.
  pose proof (segment_bounds v Hv) as Hb. unfold step.
  assert (Hp : 0 < 2 ^ (segment v + 3)) by (apply Z.pow_pos_nonneg; lia).
  assert (16 <= v / 2 ^ (segment v + 3)) by (apply Z.div_le_lower_bound; lia).
  assert (v / 2 ^ (segment v + 3) < 32) by (apply Z.div_lt_upper_bound; lia).
  lia.
Qed.

Lemma mantissa_step (v : Z) :
  132 <= v <= 32767 ->
  JS.band (JS.shr v (segment v + 3)) 15 = step v.
Proof.
  intros Hv. pose proof (segment_range v Hv) as He.
  pose proof (step_range v Hv) as Hm.
  unfold JS.shr, JS.band, step in *.
  rewrite (toInt32_small v) by lia.
  change 31 with (Z.ones 5). rewrite Z.land_ones by lia.
  change (2 ^ 5) with 32.
  rewrite (Z.mod_small (segment v + 3)) by lia.
  rewrite Z.shiftr_div_pow2 by lia.
  rewrite (toInt32_small (v / _)) by lia.
  change (JS.toInt32 15) with (Z.ones 4). rewrite Z.land_ones by lia.
  change (2 ^ 4) with 16.
  pose proof (Z.mod_pos_bound (v / 2 ^ (segment v + 3)) 16 eq_refl).
  rewrite toInt32_small by lia.
  Z.div_mod_to_equations. lia.
Qed.

Lemma linearToUlaw_closed (s : Q) :
  Encoder.linearToUlaw s = compress s
  /\ 0 <= Encoder.linearToUlaw s <= 255.
Proof.
  destruct (biased_seen s) as (Hseen & Hv).
  pose proof (segment_range _ Hv) as He.
  pose proof (step_range _ Hv) as Hm.
  assert (Hcode : Encoder.linearToUlaw s = compress s).
  { unfold Encoder.linearToUlaw, compress. cbv zeta.
    revert Hseen Hv He Hm. generalize (biased s). intros v Hseen Hv He Hm.
    assert (Hv' : 128 <= v < 2 ^ (Z.of_nat 7 + 8))
      by (change (2 ^ (Z.of_nat 7 + 8)) with 32768; lia).
    pose proof (exponentLoop_segment 7 _ v Hseen (Nat.le_refl 7) Hv') as Hexp.
    change (2 ^ (Z.of_nat 7 + 7)) with 16384 in Hexp.
    rewrite Hexp, Hseen, mantissa_step by exact Hv.
    fold (signBit s).
    rewrite <- pack_unfold.
    apply pack_complement; [|assumption|assumption].
    unfold signBit. destruct (JS.ltb s 0); [now right | now left]. }
  split; [exact Hcode|].
  rewrite Hcode. unfold compress, signBit. destruct (JS.ltb s 0); lia.
Qed.

Lemma tableLookup_expand (b : Z) :
  0 <= b < 256 -> MuLaw.tableLookup b = Some (G711.expand b).
Proof.
  intros Hb.
  pose (p := fun b => match MuLaw.tableLookup b with
                      | Some v => v =? G711.expand b
                      | None => false
                      end).
  assert (Hp : p b = true)
    by (apply (forall_below 256); [vm_compute; reflexivity | exact Hb]).
  unfold p in Hp. destruct (MuLaw.tableLookup b) as [v|]; [|discriminate].
  apply Z.eqb_eq in Hp. now subst v.
Qed.

(** The table entry of a packed code. *)
Lemma entry_packed (sign e m : Z) :
  sign = 0 \/ sign = 128 -> 0 <= e <= 7 -> 0 <= m <= 15 ->
  MuLaw.tableLookup (255 - sign - 16 * e - m)
  = Some (if sign =? 0 then magnitude e m else - magnitude e m).
Proof.
  intros Hsign He Hm.
  rewrite tableLookup_expand by (destruct Hsign; subst sign; lia).
  unfold G711.expand, magnitude. cbv zeta.
  replace (255 - (255 - sign - 16 * e - m)) with (sign + 16 * e + m) by lia.
  replace (((sign + 16 * e + m) / 16) mod 8) with e
    by (destruct Hsign; subst sign; Z.div_mod_to_equations; lia).
  replace ((sign + 16 * e + m) mod 16) with m
    by (destruct Hsign; subst sign; Z.div_mod_to_equations; lia).
  destruct Hsign; subst sign.
  - replace ((0 + 16 * e + m) / 128) with 0 by (Z.div_mod_to_equations; lia).
    reflexivity.
  - replace ((128 + 16 * e + m) / 128) with 1 by (Z.div_mod_to_equations; lia).
    reflexivity.
Qed.

Lemma magnitude_near (v : Z) :
  132 <= v <= 32767 ->
  let r := magnitude (segment v) (step v) in
  0 <= r /\ 32 * Z.abs (r - (v - 132)) <= v.
Proof.
  intros Hv r. pose proof (segment_range v Hv) as He.
  pose proof (segment_bounds v Hv) as Hb.
  pose proof (step_range v Hv) as Hm.
  unfold r, magnitude, step in *.
  set (w := 2 ^ (segment v + 2)).
  assert (HW : 2 ^ (segment v + 3) = 2 * w).
  { unfold w. replace (segment v + 3) with (segment v + 2 + 1) by lia.
    rewrite Z.pow_add_r by lia. change (2 ^ 1) with 2. lia. }
  assert (Hw : 0 < w) by (apply Z.pow_pos_nonneg; lia).
  rewrite HW in *.
  pose proof (Z.mul_div_le v (2 * w) ltac:(lia)) as Hlo.
  pose proof (Z.mul_succ_div_gt v (2 * w) ltac:(lia)) as Hhi.
  set (q := v / (2 * w)) in *.
  replace ((2 * (q - 16) + 33) * w) with (2 * w * q + w) by ring.
  replace (2 * w * Z.succ q) with (2 * w * q + 2 * w) in Hhi by ring.
  assert (Hw4 : 4 <= w).
  { unfold w. change 4 with (2 ^ 2). apply Z.pow_le_mono_r; lia. }
  assert (Hq : w * 16 <= w * q) by (apply Z.mul_le_mono_nonneg_l; lia).
  lia.
Qed.

(** X2.  Decoding the code of a sample gives it back within half a
    quantization step: the table entry of [linearToUlaw s] has the
    sign of [s], and its magnitude differs from the biased integer
    less the bias by at most a 32nd of the biased integer.  For a
    sample with at most 38 binary digits after the point the sum with
    the bias is exact, and the magnitude is within a 32nd of [a + 132]
    of the integer part [a] of [|s|] clipped at 32635; for any other
    sample the rounding of the sum can add one to the integer, and 33
    to the bound. *)
Theorem decode_encode_within_half_step (s : Q) :
  let a := Z.min (Qfloor (Qabs s)) Encoder.CLIP in
  exists r,
    MuLaw.tableLookup (Encoder.linearToUlaw s) = Some r
    /\ (if JS.ltb s 0 then r <= 0 else 0 <= r)
    /\ 32 * Z.abs (Z.abs r - (biased s - Encoder.BIAS)) <= biased s
    /\ (fixedPoint s -> 32 * Z.abs (Z.abs r - a) <= a + Encoder.BIAS)
    /\ 32 * Z.abs (Z.abs r - a) <= a + Encoder.BIAS + 33.
Proof.
  intros a. destruct (linearToUlaw_closed s) as (-> & _).
  destruct (biased_bracket s) as (Hbr & Hv).
  fold a in Hbr. change (integerPart s) with a in Hbr.
  pose proof (segment_range _ Hv) as He.
  pose proof (step_range _ Hv) as Hm.
  destruct (magnitude_near _ Hv) as (Hr & Hnear).
  assert (Hex : fixedPoint s -> biased s = a + Encoder.BIAS).
  { intros Hfp. destruct (fixedPoint_clipped s Hfp) as (m & Hc).
    exact (biased_exact s m Hc). }
  unfold compress, signBit. unfold Encoder.BIAS in *.
  destruct (JS.ltb s 0).
  - rewrite (entry_packed 128) by (try assumption; now right).
    eexists. split; [reflexivity|]. cbn [Z.eqb].
    rewrite Z.abs_opp, (Z.abs_eq (magnitude _ _)) by lia.
    repeat split; try lia. intros Hfp. specialize (Hex Hfp). lia.
  - rewrite (entry_packed 0) by (try assumption; now left).
    eexists. split; [reflexivity|]. cbn [Z.eqb].
    rewrite (Z.abs_eq (magnitude _ _)) by lia.
    repeat split; try lia. intros Hfp. specialize (Hex Hfp). lia.
Qed.

Lemma decode_encode_within_half_step_witness :
  exists r,
    MuLaw.tableLookup (Encoder.linearToUlaw (- (2001 # 2))) = Some r
    /\ r <= 0
    /\ 32 * Z.abs (Z.abs r - 1000) <= 1000 + Encoder.BIAS.
Proof.
  destruct (decode_encode_within_half_step (- (2001 # 2)))
    as (r & Hr & Hs & _ & Hfp & _).
  exists r. split; [exact Hr|]. split; [exact Hs|].
  apply Hfp. exists (- 2001 * 137438953472). reflexivity.
Defined.

Lemma linearToUlaw_clipped (s : Q) :
  (inject_Z Encoder.CLIP <= Qabs s)%Q ->
  Encoder.linearToUlaw s = (if JS.ltb s 0 then 0x00 else 0x80).
Proof.
  intros Hs. destruct (linearToUlaw_closed s) as (-> & _).
  assert (Hc : clipped s == (Encoder.CLIP * 274877906944) # 274877906944).
  { unfold clipped, JS.ltb.
    destruct (Qle_bool (Qabs s) (inject_Z Encoder.CLIP)) eqn:Hle; cbn [negb].
    - apply Qle_bool_iff in Hle.
      apply Qle_antisym; [|apply Qle_trans with (y := inject_Z Encoder.CLIP)];
        [| discriminate | exact Hs].
      apply Qle_trans with (y := inject_Z Encoder.CLIP); [exact Hle | discriminate].
    - reflexivity. }
  pose proof (biased_exact s _ Hc) as Hb.
  apply Qfloor_resp_le in Hs. rewrite Qfloor_Z in Hs.
  unfold integerPart in Hb. rewrite Z.min_r in Hb by exact Hs.
  unfold compress. rewrite Hb.
  unfold signBit. destruct (JS.ltb s 0); reflexivity.
Qed.

Lemma ltb_0_neg (s : Q) : (0 < s)%Q -> JS.ltb (- s) 0 = true /\ JS.ltb s 0 = false.
Proof.
  intros Hs. unfold JS.ltb. split.
  - apply Bool.negb_true_iff. apply Bool.not_true_is_false. intros H.
    apply Qle_bool_iff in H.
    apply (Qlt_irrefl 0). apply Qlt_le_trans with (y := s); [exact Hs|].
    apply Qle_trans with (y := (- 0)%Q); [|discriminate].
    rewrite <- (Qopp_involutive s). now apply Qopp_le_compat.
  - apply Bool.negb_false_iff. apply Qle_bool_iff. now apply Qlt_le_weak.
Qed.

(** X4.  The codes of a positive sample and of its opposite differ in
    the sign bit only: the positive one has the bit [0x80] set, the
    negative one is the same code without it. *)
Theorem linearToUlaw_sign_bit (s : Q) :
  (0 < s)%Q ->
  Encoder.linearToUlaw (- s) = Encoder.linearToUlaw s - 0x80
  /\ 0x80 <= Encoder.linearToUlaw s <= 0xFF.
Proof.
  intros Hs. destruct (ltb_0_neg s Hs) as (Hneg & Hpos).
  destruct (linearToUlaw_closed s) as (Hc & _).
  destruct (linearToUlaw_closed (- s)) as (Hc' & _).
  destruct (biased_seen s) as (_ & Hv).
  pose proof (segment_range _ Hv) as He.
  pose proof (step_range _ Hv) as Hm.
  rewrite Hc, Hc'. unfold compress, signBit. rewrite Hneg, Hpos.
  assert (Hb : biased (- s) = biased s).
  { unfold biased, clipped. now rewrite Qabs_opp_eq. }
  rewrite Hb. lia.
Qed.

(** The magnitude grows with the segment and, within a segment, with
    the step. *)
Lemma magnitude_mono (e m e' m' : Z) :
  0 <= e <= 7 -> 0 <= e' <= 7 -> 0 <= m <= 15 -> 0 <= m' <= 15 ->
  (16 * e + m <= 16 * e' + m' -> magnitude e m <= magnitude e' m')
  /\ (16 * e + m < 16 * e' + m' -> magnitude e m < magnitude e' m').
Proof.
  intros He He' Hm Hm'. unfold magnitude.
  assert (Hw : 0 < 2 ^ (e + 2)) by (apply Z.pow_pos_nonneg; lia).
  destruct (Z.lt_trichotomy e e') as [Hlt|[<-|Hgt]].
  - assert (Hww : 2 * 2 ^ (e + 2) <= 2 ^ (e' + 2)).
    { change 2 with (2 ^ 1) at 1. rewrite <- Z.pow_add_r by lia.
      apply Z.pow_le_mono_r; lia. }
    assert (H1 : (2 * m + 33) * 2 ^ (e + 2) <= 63 * 2 ^ (e + 2))
      by (apply Z.mul_le_mono_nonneg_r; lia).
    assert (H2 : 33 * 2 ^ (e' + 2) <= (2 * m' + 33) * 2 ^ (e' + 2))
      by (apply Z.mul_le_mono_nonneg_r; lia).
    split; intros _; lia.
  - split; intros Hr.
    + assert ((2 * m + 33) * 2 ^ (e + 2) <= (2 * m' + 33) * 2 ^ (e + 2))
        by (apply Z.mul_le_mono_nonneg_r; lia). lia.
    + assert ((2 * m + 33) * 2 ^ (e + 2) < (2 * m' + 33) * 2 ^ (e + 2))
        by (apply Z.mul_lt_mono_pos_r; lia). lia.
  - split; intros Hr; lia.
Qed.

Lemma magnitude_nonneg (e m : Z) :
  0 <= e <= 7 -> 0 <= m <= 15 -> 0 <= magnitude e m.
Proof.
  intros He Hm.
  destruct (magnitude_mono 0 0 e m ltac:(lia) He ltac:(lia) Hm) as (H & _).
  specialize (H ltac:(lia)). exact H.
Qed.

(** The table entry of a code, through its sign, segment and step. *)
Lemma entry_of_code (b : Z) :
  0 <= b < 256 ->
  entry b
  = (if b <? 128
     then - magnitude ((127 - b) / 16) ((127 - b) mod 16)
     else magnitude ((255 - b) / 16) ((255 - b) mod 16)).
Proof.
  intros Hb. unfold entry.
  destruct (Z.ltb_spec b 128) as [Hlt|Hge].
  - replace b with (255 - 128 - 16 * ((127 - b) / 16) - (127 - b) mod 16) at 1
      by (Z.div_mod_to_equations; lia).
    rewrite entry_packed;
      [reflexivity | now right | Z.div_mod_to_equations; lia
       | Z.div_mod_to_equations; lia].
  - replace b with (255 - 0 - 16 * ((255 - b) / 16) - (255 - b) mod 16) at 1
      by (Z.div_mod_to_equations; lia).
    rewrite entry_packed;
      [reflexivity | now left | Z.div_mod_to_equations; lia
       | Z.div_mod_to_equations; lia].
Qed.

Lemma entry_negative_half (b1 b2 : Z) :
  0 <= b1 < 128 -> 0 <= b2 < 128 ->
  entry (b1 + 128) = - entry b1
  /\ entry b1 <= 0
  /\ (b1 < b2 -> entry b1 < entry b2).
Proof.
  intros H1 H2.
  rewrite (entry_of_code b1), (entry_of_code b2), (entry_of_code (b1 + 128)) by lia.
  destruct (Z.ltb_spec b1 128); [|lia].
  destruct (Z.ltb_spec b2 128); [|lia].
  destruct (Z.ltb_spec (b1 + 128) 128); [lia|].
  replace (255 - (b1 + 128)) with (127 - b1) by lia.
  set (e1 := (127 - b1) / 16). set (m1 := (127 - b1) mod 16).
  set (e2 := (127 - b2) / 16). set (m2 := (127 - b2) mod 16).
  assert (He1 : 0 <= e1 <= 7) by (unfold e1; Z.div_mod_to_equations; lia).
  assert (Hm1 : 0 <= m1 <= 15) by (unfold m1; Z.div_mod_to_equations; lia).
  assert (He2 : 0 <= e2 <= 7) by (unfold e2; Z.div_mod_to_equations; lia).
  assert (Hm2 : 0 <= m2 <= 15) by (unfold m2; Z.div_mod_to_equations; lia).
  pose proof (magnitude_nonneg e1 m1 He1 Hm1).
  repeat split; [lia | lia |].
  intros Hlt.
  destruct (magnitude_mono e2 m2 e1 m1 He2 He1 Hm2 Hm1) as (_ & Hs).
  assert (16 * e2 + m2 < 16 * e1 + m1)
    by (unfold e1, m1, e2, m2; Z.div_mod_to_equations; lia).
  specialize (Hs ltac:(assumption)). lia.
Qed.

(** X8.  [decodeMuLaw] tells all codes apart except the two zero
    codes: two bytes that decode to the same sample are equal, or are
    [0x7F] and [0xFF]. *)
Theorem decode_distinguishes_codes (b1 b2 : Z) :
  0 <= b1 < 256 -> 0 <= b2 < 256 ->
  MuLaw.decodeMuLaw b1 = MuLaw.decodeMuLaw b2 ->
  b1 = b2 \/ (b1 = 127 /\ b2 = 255) \/ (b1 = 255 /\ b2 = 127).
Proof.
  intros H1 H2 Heq.
  assert (He : entry b1 = entry b2).
  { unfold MuLaw.decodeMuLaw, entry in *.
    rewrite (tableLookup_expand b1 H1), (tableLookup_expand b2 H2) in *.
    unfold Qdiv, Qmult, Qinv, inject_Z in Heq. cbn in Heq.
    injection Heq as Heq. lia. }
  clear Heq.
  assert (Hzero : forall b, 0 <= b < 128 -> entry b = 0 -> b = 127).
  { intros b Hb Hz.
    destruct (Z.eq_dec b 127) as [|Hne]; [assumption|].
    pose proof (entry_negative_half b 127 Hb ltac:(lia)) as (_ & _ & Hlt).
    pose proof (entry_negative_half 127 127 ltac:(lia) ltac:(lia)) as (_ & Hle & _).
    specialize (Hlt ltac:(lia)). lia. }
  assert (Hhalf : forall b, 128 <= b < 256 -> entry b = - entry (b - 128)).
  { intros b Hb.
    pose proof (entry_negative_half (b - 128) 0 ltac:(lia) ltac:(lia)) as (Ho & _).
    now replace (b - 128 + 128) with b in Ho by lia. }
  assert (Hinj : forall x y, 0 <= x < 128 -> 0 <= y < 128 ->
                   entry x = entry y -> x = y).
  { intros x y Hx Hy Hxy.
    destruct (Z.lt_trichotomy x y) as [Hlt|[Heq|Hgt]]; [|assumption|].
    - pose proof (entry_negative_half x y Hx Hy) as (_ & _ & Hs).
      specialize (Hs Hlt). lia.
    - pose proof (entry_negative_half y x Hy Hx) as (_ & _ & Hs).
      specialize (Hs Hgt). lia. }
  assert (Hneg : forall b, 0 <= b < 128 -> entry b <= 0).
  { intros b Hb. now pose proof (entry_negative_half b b Hb Hb) as (_ & Hle & _). }
  destruct (Z.lt_ge_cases b1 128) as [L1|G1];
    destruct (Z.lt_ge_cases b2 128) as [L2|G2].
  - left. apply Hinj; [lia | lia | exact He].
  - rewrite (Hhalf b2) in He by lia.
    pose proof (Hneg b1 ltac:(lia)). pose proof (Hneg (b2 - 128) ltac:(lia)).
    assert (b1 = 127) by (apply Hzero; lia).
    assert (b2 - 128 = 127) by (apply Hzero; lia).
    right; left. lia.
  - rewrite (Hhalf b1) in He by lia.
    pose proof (Hneg b2 ltac:(lia)). pose proof (Hneg (b1 - 128) ltac:(lia)).
    assert (b2 = 127) by (apply Hzero; lia).
    assert (b1 - 128 = 127) by (apply Hzero; lia).
    right; right. lia.
  - rewrite (Hhalf b1), (Hhalf b2) in He by lia.
    assert (b1 - 128 = b2 - 128) by (apply Hinj; lia).
    left. lia.
Qed.

Lemma biased_mono (s t : Q) :
  (Qabs s <= Qabs t)%Q -> biased s <= biased t.
Proof.
  intros H.
  destruct (biased_sum_range s) as (Hlo & _).
  destruct (biased_sum_range t) as (_ & Hhi).
  apply floor_round64_mono; [exact Hlo | | exact Hhi].
  apply Qplus_le_l.
  destruct (clipped_range t) as (_ & Ht & _).
  unfold clipped, JS.ltb in *. change (inject_Z Encoder.CLIP) with 32635%Q in *.
  destruct (Qle_bool (Qabs s) 32635) eqn:Es;
    destruct (Qle_bool (Qabs t) 32635) eqn:Et; cbn [negb] in *.
  - exact H.
  - now apply Qle_bool_iff in Es.
  - apply Qle_bool_iff in Et. exfalso.
    assert (Hs : (Qabs s <= 32635)%Q) by lra.
    apply Qle_bool_iff in Hs. congruence.
  - apply Qle_refl.
Qed.

Lemma magnitude_of_biased_mono (v v' : Z) :
  132 <= v <= 32767 -> 132 <= v' <= 32767 -> v <= v' ->
  magnitude (segment v) (step v) <= magnitude (segment v') (step v').
Proof.
  intros Hv Hv' Hle.
  pose proof (segment_range v Hv) as He. pose proof (segment_range v' Hv') as He'.
  pose proof (step_range v Hv) as Hm. pose proof (step_range v' Hv') as Hm'.
  apply (magnitude_mono _ _ _ _ He He' Hm Hm').
  assert (Hs : segment v <= segment v')
    by (unfold segment; pose proof (Z.log2_le_mono v v' Hle); lia).
  destruct (Z.eq_dec (segment v) (segment v')) as [Heq|Hne]; [|lia].
  unfold step. rewrite Heq.
  assert (Hp : 0 < 2 ^ (segment v' + 3)) by (apply Z.pow_pos_nonneg; lia).
  pose proof (Z.div_le_mono v v' _ Hp Hle). lia.
Qed.

Lemma entry_linearToUlaw (s : Q) :
  entry (Encoder.linearToUlaw s)
  = (if JS.ltb s 0
     then - magnitude (segment (biased s)) (step (biased s))
     else magnitude (segment (biased s)) (step (biased s))).
Proof.
  destruct (linearToUlaw_closed s) as (-> & _).
  destruct (biased_seen s) as (_ & Hv).
  pose proof (segment_range _ Hv) as He.
  pose proof (step_range _ Hv) as Hm.
  unfold entry, compress, signBit.
  destruct (JS.ltb s 0).
  - now rewrite (entry_packed 128) by (try assumption; now right).
  - now rewrite (entry_packed 0) by (try assumption; now left).
Qed.

Lemma ltb_false_nonneg (s : Q) : JS.ltb s 0 = false -> (0 <= s)%Q.
Proof.
  unfold JS.ltb. intros H. apply Bool.negb_false_iff in H.
  now apply Qle_bool_iff.
Qed.

Lemma ltb_true_neg (s : Q) : JS.ltb s 0 = true -> (s < 0)%Q.
Proof.
  unfold JS.ltb. intros H. apply Bool.negb_true_iff in H.
  apply Qnot_le_lt. intros Hle. apply Qle_bool_iff in Hle. congruence.
Qed.

(** X5.  Encoding and decoding keep the order of samples: a sample
    that is not smaller never decodes to a smaller table entry. *)
Theorem companding_monotone (s t : Q) :
  (s <= t)%Q ->
  entry (Encoder.linearToUlaw s) <= entry (Encoder.linearToUlaw t).
Proof.
  intros Hst. rewrite !entry_linearToUlaw.
  destruct (biased_seen s) as (_ & Hs). destruct (biased_seen t) as (_ & Ht).
  pose proof (magnitude_nonneg _ _ (segment_range _ Hs) (step_range _ Hs)) as Ms.
  pose proof (magnitude_nonneg _ _ (segment_range _ Ht) (step_range _ Ht)) as Mt.
  destruct (JS.ltb s 0) eqn:Es; destruct (JS.ltb t 0) eqn:Et.
  - apply ltb_true_neg in Es, Et.
    assert (Habs : (Qabs t <= Qabs s)%Q).
    { rewrite (Qabs_neg s), (Qabs_neg t) by now apply Qlt_le_weak.
      now apply Qopp_le_compat. }
    pose proof (magnitude_of_biased_mono _ _ Ht Hs (biased_mono _ _ Habs)). lia.
  - lia.
  - apply ltb_false_nonneg in Es. apply ltb_true_neg in Et.
    exfalso. apply (Qlt_irrefl 0).
    apply Qle_lt_trans with (y := s); [exact Es|].
    now apply Qle_lt_trans with (y := t).
  - apply ltb_false_nonneg in Es, Et.
    assert (Habs : (Qabs s <= Qabs t)%Q)
      by now rewrite (Qabs_pos s), (Qabs_pos t).
    apply (magnitude_of_biased_mono _ _ Hs Ht (biased_mono _ _ Habs)).
Qed.

(** X6.  The encoder's [process] posts one byte per input sample, in
    order, each between 0 and 255; a sample of 1.0 or more is encoded
    as [0x80] and one of -1.0 or less as [0x00]. *)
Theorem encoder_process_bytes (channelData : list Sample) :
  exists ulaw,
    Encoder.process (Some channelData) = Some ulaw
    /\ length ulaw = length channelData
    /\ Forall (fun b => 0 <= b <= 255) ulaw
    /\ (forall i x, nth_error channelData i = Some x ->
          nth_error ulaw i = Some (Encoder.linearToUlaw (x * 32767)%Q)
          /\ ((1 <= x)%Q -> nth_error ulaw i = Some 0x80)
          /\ ((x <= - (1))%Q -> nth_error ulaw i = Some 0x00)).
Proof.
  eexists. split; [reflexivity|]. split; [apply length_map|]. split.
  - apply Forall_forall. intros b Hb. apply in_map_iff in Hb.
    destruct Hb as (x & <- & _).
    destruct (linearToUlaw_closed (Encoder.scale x)) as (_ & Hr).
    unfold JS.toUint8. change (2 ^ 8) with 256. rewrite Z.mod_small; lia.
  - intros i x Hx.
    assert (Hi : nth_error (map (fun x => JS.toUint8 (Encoder.linearToUlaw (Encoder.scale x))) channelData) i
                 = Some (Encoder.linearToUlaw (x * 32767)%Q)).
    { rewrite nth_error_map, Hx. cbn. f_equal.
      destruct (linearToUlaw_closed (Encoder.scale x)) as (_ & Hr).
      unfold JS.toUint8. change (2 ^ 8) with 256. rewrite Z.mod_small by lia.
      reflexivity. }
    split; [exact Hi|]. split; intros Hbig; rewrite Hi; f_equal.
    + assert (Hpos : (0 <= x * 32767)%Q).
      { apply Qmult_le_0_compat; [|discriminate].
        apply Qle_trans with (y := 1%Q); [discriminate | exact Hbig]. }
      rewrite linearToUlaw_clipped.
      * unfold JS.ltb. apply Qle_bool_iff in Hpos. now rewrite Hpos.
      * rewrite Qabs_pos by exact Hpos.
        apply Qle_trans with (y := (1 * 32767)%Q); [discriminate|].
        apply Qmult_le_compat_r; [exact Hbig | discriminate].
    + assert (Hneg : (x * 32767 <= - (32767))%Q).
      { apply Qle_trans with (y := (- (1) * 32767)%Q); [|discriminate].
        apply Qmult_le_compat_r; [exact Hbig | discriminate]. }
      assert (Hlt : (x * 32767 < 0)%Q)
        by (apply Qle_lt_trans with (y := (- (32767))%Q); [exact Hneg | reflexivity]).
      rewrite linearToUlaw_clipped.
      * unfold JS.ltb.
        destruct (Qle_bool 0 (x * 32767)) eqn:E; [|reflexivity].
        apply Qle_bool_iff in E. exfalso. apply (Qlt_irrefl 0).
        now apply Qle_lt_trans with (y := (x * 32767)%Q).
      * rewrite Qabs_neg by now apply Qlt_le_weak.
        apply Qle_trans with (y := 32767%Q); [discriminate|].
        rewrite <- (Qopp_involutive 32767).
        now apply Qopp_le_compat.
Qed.

(** X1.  [linearToUlaw] is the compression of G.711: the code of a
    sample is the complement of the sign bit, the segment and the step
    of the biased integer, the integer part of the binary64 sum of the
    magnitude, clipped at 32635, and the bias 132; it is a byte for
    every sample.  The biased integer is the integer part [a] of the
    clipped magnitude plus 132, or one more where the sum is rounded
    up to an integer; it is [a + 132] for every sample with at most 38
    binary digits after the point, whose sum is exact. *)
Theorem encoder_follows_g711_compression (s : Q) :
  let a := Z.min (Qfloor (Qabs s)) Encoder.CLIP in
  Encoder.linearToUlaw s
  = 255 - signBit s - 16 * segment (biased s) - step (biased s)
  /\ 0 <= segment (biased s) <= 7
  /\ 0 <= step (biased s) <= 15
  /\ 0 <= Encoder.linearToUlaw s <= 255
  /\ a + Encoder.BIAS <= biased s <= a + Encoder.BIAS + 1
  /\ (fixedPoint s -> biased s = a + Encoder.BIAS).
Proof.
  intros a.
  destruct (linearToUlaw_closed s) as (Hc & Hr).
  destruct (biased_bracket s) as (Hbr & Hv).
  split; [exact Hc|].
  split; [apply (segment_range _ Hv)|].
  split; [apply (step_range _ Hv)|].
  split; [exact Hr|].
  split; [exact Hbr|].
  intros Hfp. destruct (fixedPoint_clipped s Hfp) as (m & Hm).
  exact (biased_exact s m Hm).
Qed.

Lemma encoder_follows_g711_compression_witness :
  Encoder.linearToUlaw (7 # 2)
  = 255 - signBit (7 # 2) - 16 * segment (biased (7 # 2)) - step (biased (7 # 2))
  /\ biased (7 # 2) = 3 + Encoder.BIAS.
Proof.
  destruct (encoder_follows_g711_compression (7 # 2))
    as (Hc & _ & _ & _ & _ & Hfp).
  split; [exact Hc|].
  apply Hfp. exists (7 * 137438953472). reflexivity.
Defined.

(** X3.  A sample whose magnitude reaches the clip threshold is
    encoded as the threshold itself: [0x80] when it is not negative,
    [0x00] when it is. *)
Theorem linearToUlaw_saturates_beyond_clip (s : Q) :
  (inject_Z Encoder.CLIP <= Qabs s)%Q ->
  Encoder.linearToUlaw s = (if JS.ltb s 0 then 0x00 else 0x80)
  /\ Encoder.linearToUlaw s
     = Encoder.linearToUlaw (if JS.ltb s 0 then - inject_Z Encoder.CLIP
                             else inject_Z Encoder.CLIP).
Proof.
  intros Hs. rewrite (linearToUlaw_clipped s Hs).
  split; [reflexivity|]. destruct (JS.ltb s 0); reflexivity.
Qed.

Lemma linearToUlaw_saturates_beyond_clip_witness :
  Encoder.linearToUlaw (inject_Z 40000) = 0x80
  /\ Encoder.linearToUlaw (inject_Z 40000)
     = Encoder.linearToUlaw (inject_Z Encoder.CLIP).
Proof.
  apply (linearToUlaw_saturates_beyond_clip (inject_Z 40000)).
  unfold Qle. cbn. lia.
Defined.

Lemma linearToUlaw_sign_bit_witness :
  Encoder.linearToUlaw (- inject_Z 1000) = Encoder.linearToUlaw (inject_Z 1000) - 0x80
  /\ 0x80 <= Encoder.linearToUlaw (inject_Z 1000) <= 0xFF.
Proof.
  apply (linearToUlaw_sign_bit (inject_Z 1000)). unfold Qlt. cbn. lia.
Defined.

Lemma companding_monotone_witness :
  entry (Encoder.linearToUlaw (- inject_Z 300)) <= entry (Encoder.linearToUlaw (7 # 2)).
Proof.
  apply (companding_monotone (- inject_Z 300) (7 # 2)). unfold Qle. cbn. lia.
Defined.

(** X7.  The negative half of the table mirrors the positive half:
    the entry of a code of the lower half is the opposite of the entry
    128 codes above; it is never positive, and it grows with the
    code, from [-32124] at [0x00] to [0] at [0x7F]. *)
Theorem table_odd_and_ordered (b1 b2 : Z) :
  0 <= b1 < 128 -> 0 <= b2 < 128 ->
  entry (b1 + 128) = - entry b1
  /\ entry b1 <= 0
  /\ (b1 < b2 -> entry b1 < entry b2).
Proof. apply entry_negative_half. Qed.

Lemma table_odd_and_ordered_witness :
  entry (3 + 128) = - entry 3
  /\ entry 3 <= 0
  /\ (3 < 100 -> entry 3 < entry 100).
Proof. apply (table_odd_and_ordered 3 100); lia. Defined.

Lemma decode_distinguishes_codes_witness :
  MuLaw.decodeMuLaw 127 = MuLaw.decodeMuLaw 255
  /\ (127 = 255 \/ (127 = 127 /\ 255 = 255) \/ (127 = 255 /\ 255 = 127)).
Proof.
  split; [reflexivity|].
  apply (decode_distinguishes_codes 127 255); [lia | lia | reflexivity].
Defined.
End CompandingProofs.

(** ** The decoder worklet: queueing, writing, reporting *)

Section PlacementProofs.
Import Decoder Timeline Placement.
Local Open Scope nat_scope.

Lemma insertSorted_first (x : Buffer.t) (l : list Buffer.t) :
  Forall (bySequenceNumber x) l -> insertSorted x l = x :: l.
Proof.
  intros H. destruct H as [|y l Hy _]; [reflexivity|].
  cbn. unfold compareFn, bySequenceNumber in *.
  destruct (Z.leb_spec (Buffer.sequenceNumber x - Buffer.sequenceNumber y) 0); [reflexivity | lia].
Qed.

Lemma sort_push (q : list Buffer.t) (x : Buffer.t) :
  StronglySorted bySequenceNumber q ->
  sort (q ++ [x])
  = notAfter (Buffer.sequenceNumber x) q ++ x :: after (Buffer.sequenceNumber x) q.
Proof.
  unfold sort, notAfter, after. rewrite fold_right_app. cbn [fold_right insertSorted].
  intros Hs. induction Hs as [|a q Hs IH Ha]; [reflexivity|].
  cbn [fold_right filter]. rewrite IH. clear IH.
  destruct (Z.leb_spec (Buffer.sequenceNumber a) (Buffer.sequenceNumber x)) as [Hle|Hgt].
  - destruct (Z.ltb_spec (Buffer.sequenceNumber x) (Buffer.sequenceNumber a)); [lia|].
    cbn [app]. apply insertSorted_first.
    apply Forall_app. split.
    + apply Forall_forall. intros y Hy. apply filter_In in Hy.
      rewrite Forall_forall in Ha. now apply Ha.
    + constructor; [exact Hle|].
      apply Forall_forall. intros y Hy. apply filter_In in Hy.
      rewrite Forall_forall in Ha. now apply Ha.
  - destruct (Z.ltb_spec (Buffer.sequenceNumber x) (Buffer.sequenceNumber a)); [|lia].
    assert (Hnone : filter (fun f => (Buffer.sequenceNumber f <=? Buffer.sequenceNumber x)%Z) q = []).
    { induction Ha as [|y q Hy Ha IHa]; [reflexivity|].
      cbn. unfold bySequenceNumber in Hy.
      destruct (Z.leb_spec (Buffer.sequenceNumber y) (Buffer.sequenceNumber x)); [lia|].
      apply IHa. now inversion Hs. }
    assert (Hall : filter (fun f => (Buffer.sequenceNumber x <? Buffer.sequenceNumber f)%Z) q = q).
    { clear Hnone. induction Ha as [|y q Hy Ha IHa]; [reflexivity|].
      cbn. unfold bySequenceNumber in Hy.
      destruct (Z.ltb_spec (Buffer.sequenceNumber x) (Buffer.sequenceNumber y)); [|lia].
      f_equal. apply IHa. now inversion Hs. }
    rewrite Hnone, Hall. cbn [app insertSorted]. unfold compareFn.
    destruct (Z.leb_spec (Buffer.sequenceNumber a - Buffer.sequenceNumber x) 0); [lia|].
    f_equal. now apply insertSorted_first.
Qed.

Lemma handleMessage_decode (st : state) (ulawData : list Z)
  (markName : option string) (number : option Z) :
  handleMessage st (decode ulawData markName number)
  = ({| bufferQueue :=
          sort (bufferQueue st
                ++ [Buffer.mk ulawData (markOrNull markName) (assigned st number)]);
        currentBuffer := currentBuffer st;
        bufferPosition := bufferPosition st;
        currentMark := currentMark st;
        isActive := isActive st;
        sequenceNumber :=
          match number with
          | Some n => if (n =? 0)%Z then (sequenceNumber st + 1)%Z else sequenceNumber st
          | None => (sequenceNumber st + 1)%Z
          end |},
     [bufferQueued (length ulawData) (S (length (bufferQueue st)))]).
Proof.
  assert (Hlen : forall l, length (sort l) = length l).
  { intros l. symmetry. apply Permutation_length, sort_Permutation. }
  unfold handleMessage, assigned.
  destruct number as [n|]; [destruct (n =? 0)%Z|];
    rewrite Hlen, length_app, Nat.add_1_r; reflexivity.
Qed.

(** X9.  A buffer is queued behind every pending buffer whose number is not
    greater than its own and before the others; nothing else moves. *)
Theorem enqueue_places_after_equal_numbers (st : state) (ulawData : list Z)
  (markName : option string) (number : option Z) :
  reachable st ->
  let n := assigned st number in
  let st' := fst (handleMessage st (decode ulawData markName number)) in
  bufferQueue st'
  = notAfter n (bufferQueue st)
      ++ Buffer.mk ulawData (markOrNull markName) n :: after n (bufferQueue st)
  /\ Permutation (bufferQueue st')
       (Buffer.mk ulawData (markOrNull markName) n :: bufferQueue st)
  /\ snd (handleMessage st (decode ulawData markName number))
     = [bufferQueued (length ulawData) (S (length (bufferQueue st)))]
  /\ currentBuffer st' = currentBuffer st
  /\ bufferPosition st' = bufferPosition st
  /\ currentMark st' = currentMark st.
Proof.
  intros Hr n st'. unfold st'. rewrite handleMessage_decode. cbn [fst snd bufferQueue currentBuffer bufferPosition currentMark].
  fold n. repeat split.
  - now rewrite (sort_push _ _ (reachable_sorted st Hr)).
  - rewrite <- sort_Permutation. rewrite Permutation_app_comm. reflexivity.
Qed.

Lemma notAfter_all (n : Z) (q : list Buffer.t) :
  Forall (fun f => (Buffer.sequenceNumber f < n)%Z) q ->
  notAfter n q = q /\ after n q = [].
Proof.
  unfold notAfter, after. induction 1 as [|y q Hy _ (IH1 & IH2)]; [now split|].
  cbn. destruct (Z.leb_spec (Buffer.sequenceNumber y) n); [|lia].
  destruct (Z.ltb_spec n (Buffer.sequenceNumber y)); [lia|].
  now rewrite IH1, IH2.
Qed.

Lemma handleMessages_cons (st : state) (ev : Message) (more : list Message) :
  fst (handleMessages st (ev :: more))
  = fst (handleMessages (fst (handleMessage st ev)) more).
Proof.
  cbn [handleMessages]. destruct (handleMessage st ev) as [st1 posts].
  cbn [fst]. now destruct (handleMessages st1 more).
Qed.

Lemma unnumbered_append (frames : list (list Z * option string)) (st : state) :
  StronglySorted bySequenceNumber (bufferQueue st) ->
  Forall (fun f => (Buffer.sequenceNumber f < sequenceNumber st)%Z) (bufferQueue st) ->
  let st' := fst (handleMessages st (unnumbered frames)) in
  bufferQueue st' = bufferQueue st ++ numbered (sequenceNumber st) frames
  /\ sequenceNumber st' = (sequenceNumber st + Z.of_nat (length frames))%Z
  /\ currentBuffer st' = currentBuffer st.
Proof.
  revert st. induction frames as [|[d m] frames IH]; intros st Hs Hlt.
  - cbn. rewrite app_nil_r. repeat split. lia.
  - cbn [unnumbered map numbered]. cbv zeta.
    rewrite handleMessages_cons, handleMessage_decode. cbn [fst].
    set (st1 := {| bufferQueue := _ |}).
    specialize (IH st1). cbv zeta in IH. fold (unnumbered frames).
    assert (Hq1 : bufferQueue st1
                  = bufferQueue st ++ [Buffer.mk d (markOrNull m) (sequenceNumber st)]).
    { unfold st1. cbn [bufferQueue assigned].
      rewrite (sort_push _ _ Hs). cbn [Buffer.sequenceNumber].
      destruct (notAfter_all _ _ Hlt) as (-> & ->). reflexivity. }
    assert (Hs1 : StronglySorted bySequenceNumber (bufferQueue st1))
      by (unfold st1; cbn [bufferQueue]; apply sort_sorted).
    assert (Hlt1 : Forall (fun f => (Buffer.sequenceNumber f < sequenceNumber st1)%Z)
                     (bufferQueue st1)).
    { rewrite Hq1. unfold st1. cbn [sequenceNumber]. apply Forall_app. split.
      - eapply Forall_impl; [|exact Hlt]. cbn. intros; lia.
      - constructor; [cbn; lia | constructor]. }
    destruct (IH Hs1 Hlt1) as (Hq & Hc & Hb).
    rewrite Hq, Hc, Hb, Hq1. unfold st1. cbn [sequenceNumber currentBuffer].
    rewrite <- app_assoc. cbn [app length]. repeat split. lia.
Qed.

(** X10.  Buffers sent without a sequence number are queued, and so played,
    in the order of their arrival. *)
Theorem unnumbered_buffers_keep_arrival_order (frames : list (list Z * option string)) :
  let st := fst (handleMessages constructor (unnumbered frames)) in
  bufferQueue st = numbered 0 frames
  /\ map Buffer.data (bufferQueue st) = map fst frames
  /\ sequenceNumber st = Z.of_nat (length frames).
Proof.
  pose proof (unnumbered_append frames constructor
                ltac:(constructor) ltac:(constructor)) as (Hq & Hc & _).
  cbn [bufferQueue sequenceNumber constructor app] in *.
  cbv zeta. rewrite Hq, Hc. split; [reflexivity|]. split; [|lia].
  clear Hq Hc. generalize 0%Z. induction frames as [|[d m] frames IH]; intros c; [reflexivity|].
  cbn [numbered map Buffer.data fst]. f_equal. apply IH.
Qed.

(** *** Clear *)

Lemma run_idle (st : state) (channels : list (list Sample)) :
  currentBuffer st = None -> bufferQueue st = [] ->
  map fst (snd (run st channels)) = map (fun _ => []) channels
  /\ map snd (snd (run st channels)) = map (fun c => repeat 0%Q (length c)) channels
  /\ currentBuffer (fst (run st channels)) = None
  /\ bufferQueue (fst (run st channels)) = [].
Proof.
  revert st. induction channels as [|c channels IH]; intros st Hc Hq.
  - cbn. repeat split; assumption.
  - cbn [run].
    assert (He : exhausted st = true) by (unfold exhausted; now rewrite Hc).
    rewrite (process_underrun st c He Hq).
    unfold retire. rewrite Hc. cbn [snd].
    set (st1 := {| bufferQueue := [] |}).
    destruct (IH st1 eq_refl eq_refl) as (H1 & H2 & H3 & H4).
    destruct (run st1 channels) as [st2 results].
    cbn [fst snd map] in *. rewrite H1, H2. repeat split; assumption.
Qed.

(** X11.  A [clear] message empties the processor whatever it was playing:
    it posts [cleared] and nothing else, and the calls that follow
    write silence and post nothing, so that no marker of a dropped
    buffer is ever reported by the worklet. *)
Theorem clear_silences_the_worklet (st : state) (channels : list (list Sample)) :
  let cleared_ := handleMessage st clear in
  let results := snd (run (fst cleared_) channels) in
  snd cleared_ = [cleared]
  /\ bufferQueue (fst cleared_) = []
  /\ currentBuffer (fst cleared_) = None
  /\ currentMark (fst cleared_) = None
  /\ sequenceNumber (fst cleared_) = sequenceNumber st
  /\ postsOf results = []
  /\ map snd results = map (fun c => repeat 0%Q (length c)) channels.
Proof.
  cbv zeta. cbn [handleMessage fst snd bufferQueue currentBuffer currentMark sequenceNumber].
  repeat split.
  - unfold postsOf.
    set (st1 := {| bufferQueue := [] |}).
    destruct (run_idle st1 channels eq_refl eq_refl) as (H1 & _).
    rewrite H1. clear. induction channels; [reflexivity | assumption].
  - set (st1 := {| bufferQueue := [] |}).
    now destruct (run_idle st1 channels eq_refl eq_refl) as (_ & H2 & _).
Qed.

(** *** What one call writes *)

Lemma fillChannel_overlay (d : list Z) (channel : list Sample) (p : nat) :
  p <= length d ->
  fillChannel d p channel
  = (Nat.min (p + length channel) (length d), overlay d p channel).
Proof.
  revert p. induction channel as [|c channel IH]; intros p Hp.
  - cbn [fillChannel length]. rewrite Nat.add_0_r, Nat.min_l by exact Hp.
    unfold overlay. cbn [length firstn map app].
    destruct (Nat.ltb_spec (length d - p) 0); [lia | reflexivity].
  - cbn [fillChannel]. destruct (Nat.ltb_spec p (length d)) as [Hlt|Hge].
    + rewrite IH by lia. unfold overlay. cbn [length].
      rewrite (skipn_nth_cons d p Hlt). cbn [firstn map app].
      replace (S p + length channel) with (p + S (length channel)) by lia.
      f_equal. f_equal.
      destruct (Nat.ltb_spec (length d - S p) (length channel));
        destruct (Nat.ltb_spec (length d - p) (S (length channel))); try lia.
      * replace (length d - p) with (S (length d - S p)) by lia. reflexivity.
      * reflexivity.
    + unfold overlay. cbn [length].
      rewrite skipn_all2 by lia. rewrite firstn_nil. cbn [map app].
      replace (length d - p) with 0 by lia. cbn.
      rewrite Nat.min_r by lia. f_equal. lia.
Qed.

Lemma overlay_length (d : list Z) (p : nat) (channel : list Sample) :
  length (overlay d p channel) = length channel.
Proof.
  unfold overlay. rewrite length_app, length_map, length_firstn, length_skipn.
  destruct (Nat.ltb_spec (length d - p) (length channel)).
  - cbn [length]. rewrite length_skipn. lia.
  - cbn [length]. lia.
Qed.

Lemma process_length (st : state) (channel : list Sample) :
  length (snd (process st channel)) = length channel.
Proof.
  unfold process, retire, loadNextBuffer, decodeInto.
  destruct (exhausted st) eqn:He.
  - destruct (currentBuffer st) as [d|]; cbn;
      (destruct (bufferQueue st) as [|f q]; cbn;
       [apply length_map
       | rewrite fillChannel_overlay by lia; cbn; apply overlay_length]).
  - unfold exhausted in He. destruct (currentBuffer st) as [d|]; [|discriminate].
    apply Nat.leb_gt in He.
    rewrite fillChannel_overlay by lia. cbn. apply overlay_length.
Qed.

(** X12.  A call that finds the buffer in play unfinished writes the samples
    of the bytes that are left, as many as the channel takes; when the
    buffer ends inside the channel it writes one zero after them and
    leaves the rest of the channel as it was handed in. *)
Theorem process_writes_current_buffer (st : state) (d : list Z) (channel : list Sample) :
  currentBuffer st = Some d ->
  bufferPosition st < length d ->
  process st channel
  = (setPosition st (Nat.min (bufferPosition st + length channel) (length d)),
     [],
     map MuLaw.decodeMuLaw (firstn (length channel) (skipn (bufferPosition st) d))
     ++ (if length d - bufferPosition st <? length channel
         then 0%Q :: skipn (S (length d - bufferPosition st)) channel
         else [])).
Proof.
  intros Hc Hp. unfold process, exhausted. rewrite Hc.
  destruct (Nat.leb_spec (length d) (bufferPosition st)); [lia|].
  unfold decodeInto. rewrite Hc, fillChannel_overlay by lia. reflexivity.
Qed.

Lemma reachable_position (st : state) :
  reachable st ->
  match currentBuffer st with
  | Some d => bufferPosition st <= length d
  | None => True
  end.
Proof.
  induction 1 as [|st ev _ IH|st channel _ IH].
  - exact I.
  - destruct ev as [ulawData markName seq| |]; [|exact I|exact IH].
    rewrite handleMessage_decode. exact IH.
  - unfold process, retire, loadNextBuffer, decodeInto.
    destruct (exhausted st) eqn:He.
    + destruct (currentBuffer st) as [d|] eqn:Hc; cbn;
        (destruct (bufferQueue st) as [|f q]; cbn;
         [rewrite ?Hc; exact I | rewrite fillChannel_overlay by lia; cbn; lia]).
    + unfold exhausted in He. destruct (currentBuffer st) as [d|] eqn:Hc; [|discriminate].
      rewrite fillChannel_overlay by exact IH. cbn. rewrite Hc. lia.
Qed.

(** X13.  [process] hands back a channel of the length it was given, and the
    position never passes the end of the buffer in play. *)
Theorem process_keeps_channel_length (st : state) (channel : list Sample) :
  reachable st ->
  let st' := fst (fst (process st channel)) in
  length (snd (process st channel)) = length channel
  /\ match currentBuffer st' with
     | Some d => bufferPosition st' <= length d
     | None => True
     end.
Proof.
  intros Hr st'. split; [apply process_length|].
  apply reachable_position. unfold st'. now constructor.
Qed.

(** *** The whole run, from any state *)

Lemma future_retire (n : nat) (st : state) :
  future n st
  = quiet (currentCalls n st) ++ queueCalls n (snd (retire st)) (bufferQueue st).
Proof.
  unfold future, currentCalls, retire. now destruct (currentBuffer st).
Qed.

(** X14.  From any state, [k] calls on zero-filled quanta of [n] samples
    write what is left of the buffer in play, then every pending buffer
    in queue order, each byte once, every buffer padded to the end of
    its last quantum, and silence after the last. *)
Theorem playback_is_gapless (n k : nat) (st : state) :
  0 < n ->
  written (snd (run st (repeat (zeros n) k)))
  = firstn (k * n)
      (remaining n st ++ stream n (bufferQueue st) ++ zeros (k * n))
  /\ (forall d, currentBuffer st = Some d ->
        remaining n st
        = map MuLaw.decodeMuLaw (skipn (bufferPosition st) d)
          ++ zeros (cdiv (length d - bufferPosition st) n * n
                    - (length d - bufferPosition st))).
Proof.
  intros Hn. split.
  - unfold written.
    rewrite (run_future n k k st Hn (Nat.le_refl k)), future_retire.
    rewrite <- firstn_map, <- app_assoc, map_app, map_snd_quiet.
    destruct (map_snd_queueCalls n (bufferQueue st) (snd (retire st)) k)
      as (M & HM & ->).
    rewrite (concat_firstn_uniform n).
    + rewrite !concat_app, concat_blocks_stream, concat_repeat_zeros by assumption.
      fold (remaining n st). unfold zeros.
      rewrite !app_assoc.
      rewrite (firstn_app_repeat 0%Q _ (k * n) (M * n)) by nia.
      reflexivity.
    + apply Forall_app. split.
      * unfold currentCalls. destruct (currentBuffer st); [apply restBlocks_uniform | constructor].
      * apply Forall_app. split; [apply blocks_uniform|].
        apply Forall_forall. intros b Hb. apply repeat_spec in Hb. subst b.
        apply zeros_length.
  - intros d Hd. unfold remaining, currentCalls. rewrite Hd.
    exact (concat_restBlocks n d (length d - bufferPosition st)
             (bufferPosition st) Hn (Nat.le_refl _)).
Qed.

Lemma length_queueCalls (n : nat) (q : list Buffer.t) (prev : list Post) :
  length (queueCalls n prev q)
  <= S (list_sum (map (fun f => callsOf n (Buffer.data f)) q)).
Proof.
  revert prev. induction q as [|f q IH]; intros prev.
  - destruct prev; cbn; lia.
  - cbn [queueCalls map length]. rewrite length_app, length_quiet.
    specialize (IH [bufferProcessed (Buffer.markName f)]).
    unfold restBlocks, callsOf in *. rewrite length_map, length_seq.
    replace (length (Buffer.data f) - Nat.min n (length (Buffer.data f)))
      with (length (Buffer.data f) - n) by lia.
    unfold list_sum in *. cbn [fold_right]. lia.
Qed.

(** X15.  Every buffer, the one in play and each pending one, is reported by
    one [bufferProcessed] message when it is retired, in play order,
    with its marker or with none; a run posts a prefix of these
    reports and nothing else, and all of them once the calls outnumber
    the quanta to play. *)
Theorem every_buffer_reported_once (n k : nat) (st : state) :
  0 < n ->
  let results := snd (run st (repeat (zeros n) k)) in
  let reports := snd (retire st) ++ map reportOf (bufferQueue st) in
  (exists later, reports = postsOf results ++ later)
  /\ (callsToPlay n st (bufferQueue st) < k -> postsOf results = reports).
Proof.
  intros Hn results reports.
  assert (Hres : results = firstn k (future n st ++ repeat (idle n) k))
    by apply (run_future n k k st Hn (Nat.le_refl k)).
  assert (Hposts : postsOf (future n st ++ repeat (idle n) k) = reports).
  { rewrite future_retire, !postsOf_app, postsOf_quiet, postsOf_queueCalls, postsOf_idle.
    cbn [app]. now rewrite app_nil_r. }
  split.
  - exists (postsOf (skipn k (future n st ++ repeat (idle n) k))).
    rewrite Hres, <- postsOf_app, firstn_skipn. now symmetry.
  - intros Hk. rewrite Hres.
    assert (Hlen : length (future n st) <= k).
    { rewrite future_retire, length_app, length_quiet.
      pose proof (length_queueCalls n (bufferQueue st) (snd (retire st))).
      unfold callsToPlay in Hk. lia. }
    rewrite firstn_app, (firstn_all2 (future n st)) by exact Hlen.
    rewrite postsOf_app.
    assert (Hidle : postsOf (firstn (k - length (future n st)) (repeat (idle n) k)) = []).
    { generalize (k - length (future n st)). intros j. unfold postsOf.
      generalize k at 1. intros m. revert j.
      induction m as [|m IH]; intros [|j]; cbn; try reflexivity. apply IH. }
    rewrite Hidle, app_nil_r.
    rewrite postsOf_app, postsOf_idle, app_nil_r in Hposts. exact Hposts.
Qed.

Lemma reachable_reordered : reachable Scenario.reordered.
Proof.
  exact (reachable_message _
           (decode [10; 20; 30]%Z (Some "m4"%string) (Some 4%Z))
           (reachable_message _
              (decode [255; 128]%Z None (Some 3%Z))
              (reachable_message _
                 (decode [0; 1; 2]%Z (Some "m5"%string) (Some 5%Z))
                 reachable_constructor))).
Qed.

Lemma enqueue_places_after_equal_numbers_witness :
  map Buffer.data
    (bufferQueue (fst (handleMessage Scenario.reordered
                         (decode [7; 7]%Z None (Some 4%Z)))))
  = [[255; 128]; [10; 20; 30]; [7; 7]; [0; 1; 2]]%Z.
Proof.
  pose proof (enqueue_places_after_equal_numbers Scenario.reordered
                [7; 7]%Z None (Some 4%Z) reachable_reordered) as (Hq & _).
  cbv zeta in Hq. rewrite Hq. reflexivity.
Defined.

Lemma process_writes_current_buffer_witness :
  snd (process midBuffer [1; 1; 1; 1; 1]%Q)
  = [MuLaw.decodeMuLaw 128; MuLaw.decodeMuLaw 0; 0; 1; 1]%Q.
Proof.
  rewrite (process_writes_current_buffer midBuffer [255; 128; 0]%Z
             [1; 1; 1; 1; 1]%Q eq_refl (le_S 2 2 (le_n 2))).
  reflexivity.
Defined.

Lemma process_keeps_channel_length_witness :
  length (snd (process Scenario.reordered (repeat 1%Q 160))) = 160.
Proof.
  exact (proj1 (process_keeps_channel_length Scenario.reordered (repeat 1%Q 160)
                  reachable_reordered)).
Defined.

Lemma playback_is_gapless_witness :
  written (snd (run Scenario.reordered (repeat (zeros 2) 9)))
  = firstn (9 * 2)
      (remaining 2 Scenario.reordered
       ++ stream 2 (bufferQueue Scenario.reordered) ++ zeros (9 * 2)).
Proof.
  exact (proj1 (playback_is_gapless 2 9 Scenario.reordered (Nat.lt_0_succ 1))).
Defined.

Lemma every_buffer_reported_once_witness :
  postsOf (snd (run Scenario.reordered (repeat (zeros 2) 9)))
  = [bufferProcessed None; bufferProcessed (Some "m4"%string);
     bufferProcessed (Some "m5"%string)].
Proof.
  apply (proj2 (every_buffer_reported_once 2 9 Scenario.reordered (Nat.lt_0_succ 1))).
  vm_compute. lia.
Defined.
End PlacementProofs.

(** ** The outbound path *)

Section OutboundProofs.
Import Outbound.
Variable btoa : string -> string.

Lemma feed_numbering (frames : list (list Z)) (st : state) :
  Phone.wsRef (phone st) = Some Phone.OPEN ->
  truthy (Phone.streamSidRef (phone st)) = true ->
  let st' := fst (feed btoa st frames) in
  sent (snd (feed btoa st frames))
  = mediaFrom btoa (Phone.sequenceNumberRef (phone st)) (timestampRef st) frames
  /\ Phone.sequenceNumberRef (phone st')
     = Phone.sequenceNumberRef (phone st) + Z.of_nat (length frames)
  /\ timestampRef st' = timestampRef st
  /\ Phone.wsRef (phone st') = Phone.wsRef (phone st)
  /\ Phone.streamSidRef (phone st') = Phone.streamSidRef (phone st)
  /\ Phone.callSidRef (phone st') = Phone.callSidRef (phone st)
  /\ Phone.isDisconnecting (phone st') = Phone.isDisconnecting (phone st).
Proof.
  revert st. induction frames as [|bytes frames IH]; intros st Hws Hsid.
  - cbn. repeat split. lia.
  - cbn [feed mediaFrom]. unfold encoderOnMessage, _sendMessageToClient.
    rewrite Hws, Hsid. cbn [phone setCounters Phone.wsRef].
    rewrite Hws.
    set (st1 := mk _ _).
    specialize (IH st1 Hws Hsid).
    destruct (feed btoa st1 frames) as [st2 effects].
    cbn [fst snd] in *. destruct IH as (H1 & H2 & H3 & H4 & H5 & H6 & H7).
    cbn [app sent flat_map]. fold (sent effects). rewrite H1, H2, H3, H4, H5, H6, H7.
    unfold st1. cbn. repeat split; try reflexivity; try lia; assumption.
Qed.


(** X16.  After [_startCall] the media envelopes are numbered from 0 without
    a gap, each with [chunk] one above its [sequenceNumber] and the
    timestamp 0, and the stop envelope of [_disconnectFromCall] carries
    the number of media envelopes sent. *)
Theorem outbound_envelopes_numbered_from_start
  (st : state) (random : string) (frames : list (list Z)) :
  Phone.wsRef (phone st) = Some Phone.OPEN ->
  let streamSid := generateStreamSid random in
  let started := _startCall st streamSid in
  let fed := feed btoa (fst started) frames in
  sent (snd started)
  = [startEnvelope 1 (Some streamSid) (Phone.callSidRef (phone st))
       ["inbound"; "outbound"]%string "audio/x-mulaw" 8000 1 (Some streamSid)]
  /\ sent (snd fed) = mediaFrom btoa 0 0 frames
  /\ Phone.sequenceNumberRef (phone (fst fed)) = Z.of_nat (length frames)
  /\ (Phone.isDisconnecting (phone st) = false ->
      sent (snd (_disconnectFromCall (fst fed)))
      = [earlier (Phone.stopEnvelope (Z.of_nat (length frames))
                    (Phone.callSidRef (phone st)) (Some streamSid))]).
Proof.
  intros Hws streamSid started fed.
  assert (Hstarted : started
                     = (mk (setCounters (phone st) (Some streamSid) 0) 0,
                        [wsSend (startEnvelope 1 (Some streamSid)
                                   (Phone.callSidRef (phone st))
                                   ["inbound"; "outbound"]%string
                                   "audio/x-mulaw" 8000 1 (Some streamSid));
                         addLog ("Sent start, streamSid: " ++ streamSid) Phone.info])).
  { unfold started, _startCall, _sendMessageToClient. rewrite Hws.
    cbn [phone setCounters Phone.wsRef]. now rewrite Hws. }
  assert (Hws1 : Phone.wsRef (phone (fst started)) = Some Phone.OPEN)
    by (rewrite Hstarted; exact Hws).
  assert (Hsid1 : truthy (Phone.streamSidRef (phone (fst started))) = true)
    by (rewrite Hstarted; reflexivity).
  destruct (feed_numbering frames (fst started) Hws1 Hsid1)
    as (H1 & H2 & H3 & H4 & H5 & H6 & H7).
  fold fed in H1, H2, H3, H4, H5, H6, H7.
  rewrite Hstarted in H1, H2, H3, H4, H5, H6, H7.
  cbn [fst phone setCounters timestampRef Phone.sequenceNumberRef Phone.wsRef
         Phone.streamSidRef Phone.callSidRef Phone.isDisconnecting] in *.
  split; [now rewrite Hstarted|]. split; [exact H1|]. split; [lia|].
  intros Hnot. unfold _disconnectFromCall, Phone._disconnectFromCall,
    Phone._sendMessageToClient, Phone._closeMediaServerConnection.
  rewrite H7, Hnot, H4, Hws, H2, H5, H6.
  destruct (Phone.audioContextRef (phone (fst fed))) as [[t [e|]]|];
    cbn; repeat f_equal; lia.
Qed.

(** X17.  While the socket is not open, or before a stream identifier is
    set, the bytes of the encoder are dropped: nothing is sent and no
    sequence number is used up. *)
Theorem encoder_bytes_dropped_without_stream (st : state) (ulawBytes : list Z) :
  Phone.wsRef (phone st) <> Some Phone.OPEN
  \/ truthy (Phone.streamSidRef (phone st)) = false ->
  encoderOnMessage btoa st ulawBytes = (st, []).
Proof.
  intros [Hws|Hsid]; unfold encoderOnMessage.
  - destruct (Phone.wsRef (phone st)) as [[]|]; try reflexivity. congruence.
  - rewrite Hsid. destruct (Phone.wsRef (phone st)) as [[]|]; reflexivity.
Qed.

(** X18.  When the settle delay has passed: on an open socket the connected
    envelope goes out first and the start envelope second, and the
    counters are reset; otherwise nothing is sent and the session
    cells stay as they were. *)
Theorem settled_sends_connected_then_start (st : state) (streamSid : string) :
  (Phone.wsRef (phone st) = Some Phone.OPEN ->
   sent (snd (settled st streamSid))
   = [connectedEnvelope "Call" "1.0.0";
      startEnvelope 1 (Some streamSid) (Phone.callSidRef (phone st))
        ["inbound"; "outbound"]%string "audio/x-mulaw" 8000 1 (Some streamSid)]
   /\ Phone.streamSidRef (phone (fst (settled st streamSid))) = Some streamSid
   /\ Phone.sequenceNumberRef (phone (fst (settled st streamSid))) = 0
   /\ timestampRef (fst (settled st streamSid)) = 0)
  /\ (Phone.wsRef (phone st) <> Some Phone.OPEN ->
      sent (snd (settled st streamSid)) = []
      /\ fst (settled st streamSid) = st).
Proof.
  unfold settled, _startCall, _sendMessageToClient. split.
  - intros Hws. rewrite Hws. cbn [phone setCounters Phone.wsRef].
    rewrite Hws. repeat split.
  - intros Hws. destruct (Phone.wsRef (phone st)) as [[]|];
      try (split; reflexivity). congruence.
Qed.

(** X19.  The cleanup of the effect hook sets [isDisconnecting] before it
    calls [_disconnectFromCall], whose guard then returns at once: no
    stop envelope is sent and the socket, the audio context and the
    decoder node are left as they are. *)
Theorem cleanup_leaves_the_session_open (st : state) :
  sent (snd (cleanup st)) = []
  /\ snd (cleanup st)
     = [fromPhone (Phone.consoleLog "Disconnecting from call")]
  /\ Phone.isDisconnecting (phone (fst (cleanup st))) = true
  /\ Phone.wsRef (phone (fst (cleanup st))) = Phone.wsRef (phone st)
  /\ Phone.audioContextRef (phone (fst (cleanup st)))
     = Phone.audioContextRef (phone st)
  /\ Phone.ulawDecoderNodeRef (phone (fst (cleanup st)))
     = Phone.ulawDecoderNodeRef (phone st).
Proof. repeat split. Qed.

Lemma fromCharCode_codes (ulawBytes : list Z) :
  Forall (fun b => 0 <= b < 256) ulawBytes ->
  map (fun c => JS.toUint8 (Z.of_nat (nat_of_ascii c)))
      (list_ascii_of_string (fromCharCode ulawBytes))
  = ulawBytes.
Proof.
  intros Hb. unfold fromCharCode.
  rewrite list_ascii_of_string_of_list_ascii, map_map.
  induction Hb as [|b l Hb _ IH]; [reflexivity|].
  cbn [map]. rewrite IH. f_equal.
  rewrite nat_ascii_embedding by lia.
  unfold JS.toUint8. change (2 ^ 8) with 256.
  rewrite Z2Nat.id, Z.mod_small by lia. reflexivity.
Qed.

(** X20.  A frame sent out and echoed by the peer comes back as the same
    bytes: with an [atob] that undoes [btoa], [base64ToUint8Array]
    gives the encoder's bytes, and [processMediaMessage] forwards
    them to the decoder. *)
Theorem outbound_payload_decodes_to_the_bytes
  (atob : string -> Phone.Threw string) (ph : Phone.state)
  (ulawBytes : list Z) (sequenceNumber chunk : Z) :
  (forall s, atob (btoa s) = Phone.returned s) ->
  Forall (fun b => 0 <= b < 256) ulawBytes ->
  Phone.ulawDecoderNodeRef ph = true ->
  let payload := btoa (fromCharCode ulawBytes) in
  Phone.base64ToUint8Array atob payload = Phone.returned ulawBytes
  /\ Phone.toDecoder
       (snd (Phone.processMediaMessage atob ph
               (Phone.mkMediaMessage sequenceNumber chunk payload)))
     = [Decoder.decode ulawBytes (Phone.pendingMarkFromServerRef ph)
          (Some (if sequenceNumber =? 0 then chunk else sequenceNumber))].
Proof.
  intros Hatob Hb Hnode payload.
  assert (H : Phone.base64ToUint8Array atob payload = Phone.returned ulawBytes).
  { unfold Phone.base64ToUint8Array, payload. rewrite Hatob.
    now rewrite fromCharCode_codes. }
  split; [exact H|].
  unfold Phone.processMediaMessage. cbn [Phone.payload].
  rewrite H, Hnode. reflexivity.
Qed.

End OutboundProofs.

Section OutboundWitnesses.
Import Outbound.

Lemma outbound_envelopes_numbered_from_start_witness :
  let started := _startCall opened (generateStreamSid "0.k3j2h1g0f9e8d7") in
  let fed := feed plainBtoa (fst started) [[0; 1; 2]; [255; 128]] in
  sent (snd fed) = mediaFrom plainBtoa 0 0 [[0; 1; 2]; [255; 128]]
  /\ sent (snd (_disconnectFromCall (fst fed)))
     = [earlier (Phone.stopEnvelope 2 (Some "CAcall"%string)
                   (Some "MZk3j2h1g0f9e8d"%string))].
Proof.
  pose proof (outbound_envelopes_numbered_from_start plainBtoa opened
                "0.k3j2h1g0f9e8d7" [[0; 1; 2]; [255; 128]] eq_refl)
    as (_ & Hfed & _ & Hstop).
  split; [exact Hfed | exact (Hstop eq_refl)].
Defined.

Lemma encoder_bytes_dropped_without_stream_witness :
  encoderOnMessage plainBtoa hungUp [0; 1; 2] = (hungUp, []).
Proof.
  apply (encoder_bytes_dropped_without_stream plainBtoa hungUp [0; 1; 2]).
  left. discriminate.
Defined.

Lemma settled_sends_connected_then_start_witness :
  sent (snd (settled opened "MZabc"))
  = [connectedEnvelope "Call" "1.0.0";
     startEnvelope 1 (Some "MZabc"%string) (Some "CAcall"%string)
       ["inbound"; "outbound"]%string "audio/x-mulaw" 8000 1
       (Some "MZabc"%string)].
Proof.
  exact (proj1 (proj1 (settled_sends_connected_then_start opened "MZabc") eq_refl)).
Defined.

Lemma outbound_payload_decodes_to_the_bytes_witness :
  Phone.base64ToUint8Array plainAtob (plainBtoa (fromCharCode [0; 127; 255]))
  = Phone.returned [0; 127; 255].
Proof.
  refine (proj1 (outbound_payload_decodes_to_the_bytes plainBtoa plainAtob
                   Scenario.active [0; 127; 255] 1 1 (fun _ => eq_refl) _ eq_refl)).
  repeat constructor; lia.
Defined.
End OutboundWitnesses.

Section LogProofs.
Import Log.

Lemma lastN_snoc {A : Type} (k : nat) (l : list A) (x : A) :
  lastN (S k) (l ++ [x]) = lastN k l ++ [x].
Proof.
  unfold lastN. rewrite length_app. cbn [length].
  replace (length l + 1 - S k)%nat with (length l - k)%nat by lia.
  rewrite skipn_app.
  replace (length l - k - length l)%nat with 0%nat by lia.
  reflexivity.
Qed.

Lemma lastN_lastN {A : Type} (j k : nat) (l : list A) :
  (j <= k)%nat -> lastN j (lastN k l) = lastN j l.
Proof.
  intros Hjk. unfold lastN. rewrite length_skipn, skipn_skipn. f_equal. lia.
Qed.

(** X21.  The log keeps the last fifty entries, oldest first, whatever was
    added. *)
Theorem log_keeps_last_fifty (entries : list LogEntry) :
  fold_left addLog entries [] = lastN 50 entries
  /\ (length (fold_left addLog entries []) <= 50)%nat.
Proof.
  assert (H : forall prev, fold_left addLog entries (lastN 50 prev)
                           = lastN 50 (prev ++ entries)).
  { induction entries as [|e entries IH]; intros prev.
    - cbn. now rewrite app_nil_r.
    - cbn [fold_left]. unfold addLog at 2, slice49.
      change (skipn (length (lastN 50 prev) - 49) (lastN 50 prev))
        with (lastN 49 (lastN 50 prev)).
      rewrite lastN_lastN by lia.
      rewrite <- lastN_snoc, IH, <- app_assoc. reflexivity. }
  specialize (H []). cbn [app] in H. change (lastN 50 []) with (@nil LogEntry) in H.
  split; [exact H|]. rewrite H. unfold lastN. rewrite length_skipn. lia.
Qed.
End LogProofs.

(** ** The session: inbound envelopes and disconnect *)

Section SessionProofs.
Import Phone.
Variable atob : string -> Threw string.
Variable now : Z.

(** X22.  [_disconnectFromCall], when it is not already disconnecting,
    releases everything whatever the state of the socket: no socket,
    no audio context and no decoder node are left.  The stop envelope
    and the timer are for an open socket only; a socket in another
    state is closed with the code 1000 without a stop. *)
Theorem disconnect_releases_everything (st : state) :
  isDisconnecting st = false ->
  let st' := fst (_disconnectFromCall st) in
  let effects := snd (_disconnectFromCall st) in
  isDisconnecting st' = true
  /\ wsRef st' = None
  /\ audioContextRef st' = None
  /\ ulawDecoderNodeRef st' = false
  /\ sent effects
     = match wsRef st with
       | Some OPEN => [stopEnvelope (sequenceNumberRef st) (callSidRef st) (streamSidRef st)]
       | _ => []
       end
  /\ filter isClose effects
     = match wsRef st with
       | Some _ => [wsClose 1000 "User disconnected"]
       | None => []
       end
  /\ sequenceNumberRef st'
     = match wsRef st with
       | Some OPEN => sequenceNumberRef st + 1
       | _ => sequenceNumberRef st
       end
  /\ pendingMarkFromServerRef st' = pendingMarkFromServerRef st.
Proof.
  intros Hnot.
  destruct st as [disconnecting ws ctx sid cid seq nst queue marks source slot node].
  cbn in Hnot. subst disconnecting.
  destruct ws as [[ | | | ]|]; destruct ctx as [[t [e|]]|]; repeat split.
Qed.

Lemma sent_app_phone (a b : list Effect) : sent (a ++ b) = sent a ++ sent b.
Proof. unfold sent. apply flat_map_app. Qed.

Lemma toDecoder_app (a b : list Effect) : toDecoder (a ++ b) = toDecoder a ++ toDecoder b.
Proof. unfold toDecoder. apply flat_map_app. Qed.

Lemma sent_marks_closed (st : state) (names : list string) :
  wsRef st = None ->
  sent (flat_map (fun markName =>
                    _sendMessageToClient st (markEnvelope (streamSidRef st) now markName))
                 names) = [].
Proof.
  intros Hws. induction names as [|m names IH]; [reflexivity|].
  cbn [flat_map]. rewrite sent_app_phone, IH.
  unfold _sendMessageToClient. now rewrite Hws.
Qed.

(** X23.  Once disconnected the session is inert: an inbound envelope of any
    kind sends nothing and posts nothing to the decoder, a report of
    the worklet sends nothing, the timer of the disconnect does
    nothing, and the state that an envelope leaves is inert as well. *)
Theorem disconnected_session_is_inert (st : state) (event : Inbound)
  (post : Decoder.Post) :
  wsRef st = None ->
  ulawDecoderNodeRef st = false ->
  let st' := fst (_handleWebSocketMessage atob now st event) in
  sent (snd (_handleWebSocketMessage atob now st event)) = []
  /\ toDecoder (snd (_handleWebSocketMessage atob now st event)) = []
  /\ sent (decoderOnMessage now st post) = []
  /\ fire closeAfterStop st = (st, [])
  /\ wsRef st' = None
  /\ ulawDecoderNodeRef st' = false.
Proof.
  intros Hws Hnode. cbv zeta.
  assert (Hpost : sent (decoderOnMessage now st post) = []).
  { destruct post as [bl ql| |[[|c m]|]]; cbn [decoderOnMessage]; try reflexivity.
    - destruct (5 <? ql)%nat; reflexivity.
    - unfold _sendMessageToClient. now rewrite Hws. }
  assert (Hfire : fire closeAfterStop st = (st, [])) by (cbn; now rewrite Hws).
  destruct event as [msg|message|[[|c name]|]| |ev];
    cbn [_handleWebSocketMessage];
    try (repeat split; assumption).
  - unfold processMediaMessage. rewrite Hnode.
    destruct (base64ToUint8Array atob (payload message)); repeat split; assumption.
  - unfold clearAudioBuffer. rewrite Hnode. cbn [fst snd wsRef ulawDecoderNodeRef].
    repeat split; try assumption.
    + change (sent (addLog "Received clear" info
                      :: addLog "Clear received - stopping audio playback" info
                      :: ?l)) with (sent l).
      rewrite !sent_app_phone, (sent_marks_closed st _ Hws).
      destruct (currentSourceRef st); reflexivity.
    + change (toDecoder (addLog "Received clear" info
                      :: addLog "Clear received - stopping audio playback" info
                      :: ?l)) with (toDecoder l).
      rewrite !toDecoder_app.
      destruct (currentSourceRef st); cbn [app];
        (assert (Hm : forall names, toDecoder (flat_map (fun markName =>
                    _sendMessageToClient st (markEnvelope (streamSidRef st) now markName))
                 names) = [])
          by (intros names; induction names as [|m names IH]; [reflexivity|];
              cbn [flat_map]; rewrite toDecoder_app, IH;
              unfold _sendMessageToClient; now rewrite Hws));
        rewrite Hm; reflexivity.
Qed.

(** X24.  A media envelope that is not forwarded, because the payload does
    not decode or no decoder node is there, leaves the session as it
    was; the marker in the slot stays for the next frame that is
    forwarded. *)
Theorem unforwarded_frame_keeps_the_mark (st : state) (bad good : MediaMessage)
  (reason : string) (muLawData : list Z) :
  base64ToUint8Array atob (payload bad) = threw reason
  \/ ulawDecoderNodeRef st = false ->
  let skipped := _handleWebSocketMessage atob now st (media bad) in
  fst skipped = st
  /\ toDecoder (snd skipped) = []
  /\ sent (snd skipped) = []
  /\ (ulawDecoderNodeRef st = true ->
      base64ToUint8Array atob (payload good) = returned muLawData ->
      toDecoder (snd (_handleWebSocketMessage atob now (fst skipped) (media good)))
      = [Decoder.decode muLawData (pendingMarkFromServerRef st)
           (Some (if sequenceNumber good =? 0 then chunk good
                  else sequenceNumber good))]).
Proof.
  intros Hbad. cbv zeta.
  assert (Hskip : _handleWebSocketMessage atob now st (media bad)
                  = (st, addLog "Received media" info
                           :: snd (processMediaMessage atob st bad))
                  /\ toDecoder (snd (processMediaMessage atob st bad)) = []
                  /\ sent (snd (processMediaMessage atob st bad)) = []).
  { cbn [_handleWebSocketMessage]. unfold processMediaMessage.
    destruct Hbad as [Hthrew|Hnode].
    - rewrite Hthrew. repeat split.
    - rewrite Hnode. destruct (base64ToUint8Array atob (payload bad)); repeat split. }
  destruct Hskip as (-> & Hd & Hs). cbn [fst snd].
  repeat split; try assumption.
  intros Hnode Hgood. cbn [_handleWebSocketMessage].
  destruct (processMediaMessage_forwards atob st good muLawData Hnode Hgood) as (Hf & _).
  destruct (processMediaMessage atob st good). exact Hf.
Qed.

(** X25.  An envelope that cannot be parsed, one of an unknown event and a
    mark without a name are logged and otherwise ignored: the session
    is left as it was, nothing is sent and nothing reaches the
    decoder. *)
Theorem unrecognised_envelopes_are_ignored (st : state) (event : Inbound) :
  (exists message, event = unparsable message)
  \/ (exists name, event = unknown name)
  \/ event = mark None \/ event = mark (Some EmptyString) ->
  fst (_handleWebSocketMessage atob now st event) = st
  /\ sent (snd (_handleWebSocketMessage atob now st event)) = []
  /\ toDecoder (snd (_handleWebSocketMessage atob now st event)) = []
  /\ length (snd (_handleWebSocketMessage atob now st event)) = 1%nat.
Proof.
  intros [(m & ->)|[(n & ->)|[->| ->]]]; repeat split.
Qed.

(** X26.  No inbound envelope closes the socket, ends the session or moves
    the outbound counters: the socket, the disconnect flag, the
    identifiers, the outbound sequence number, the audio context and
    the decoder node are as before. *)
Theorem inbound_envelopes_leave_the_transport (st : state) (event : Inbound) :
  let st' := fst (_handleWebSocketMessage atob now st event) in
  wsRef st' = wsRef st
  /\ isDisconnecting st' = isDisconnecting st
  /\ streamSidRef st' = streamSidRef st
  /\ callSidRef st' = callSidRef st
  /\ sequenceNumberRef st' = sequenceNumberRef st
  /\ audioContextRef st' = audioContextRef st
  /\ ulawDecoderNodeRef st' = ulawDecoderNodeRef st
  /\ filter isClose (snd (_handleWebSocketMessage atob now st event)) = []
  /\ filter isStop (sent (snd (_handleWebSocketMessage atob now st event))) = [].
Proof.
  cbv zeta.
  destruct event as [msg|message|[[|c name]|]| |ev];
    cbn [_handleWebSocketMessage]; try (repeat split; fail).
  - unfold processMediaMessage.
    destruct (base64ToUint8Array atob (payload message));
      [destruct (ulawDecoderNodeRef st) eqn:Hn|]; repeat split; now rewrite ?Hn.
  - unfold clearAudioBuffer. cbn [fst snd wsRef isDisconnecting streamSidRef
      callSidRef sequenceNumberRef audioContextRef ulawDecoderNodeRef].
    assert (Hmarks : forall names,
              filter isClose
                (flat_map (fun markName =>
                   _sendMessageToClient st (markEnvelope (streamSidRef st) now markName))
                   names) = []
              /\ filter isStop (sent
                   (flat_map (fun markName =>
                      _sendMessageToClient st (markEnvelope (streamSidRef st) now markName))
                      names)) = []).
    { intros names. induction names as [|m names (IH1 & IH2)]; [split; reflexivity|].
      cbn [flat_map]. rewrite filter_app, sent_app_phone, filter_app, IH1, IH2.
      unfold _sendMessageToClient. destruct (wsRef st) as [[]|]; split; reflexivity. }
    destruct (Hmarks (pendingMarksRef st)) as (Hc & Hs).
    repeat split.
    + cbn [filter isClose]. rewrite !filter_app, Hc.
      destruct (currentSourceRef st), (ulawDecoderNodeRef st); reflexivity.
    + change (sent (addLog "Received clear" info
                      :: addLog "Clear received - stopping audio playback" info
                      :: ?l)) with (sent l).
      rewrite !sent_app_phone, !filter_app, Hs.
      destruct (currentSourceRef st), (ulawDecoderNodeRef st); reflexivity.
Qed.

(** X27.  A [clear] does not empty the slot of the pending mark: a mark that
    arrived before the clear is attached to the first media frame
    after it. *)
Theorem clear_keeps_the_pending_mark (st : state) (m : string)
  (message : MediaMessage) (muLawData : list Z) :
  m <> EmptyString ->
  ulawDecoderNodeRef st = true ->
  base64ToUint8Array atob (payload message) = returned muLawData ->
  let marked := fst (_handleWebSocketMessage atob now st (mark (Some m))) in
  let cleared := fst (_handleWebSocketMessage atob now marked clearPlayback) in
  pendingMarkFromServerRef cleared = Some m
  /\ toDecoder (snd (_handleWebSocketMessage atob now cleared (media message)))
     = [Decoder.decode muLawData (Some m)
          (Some (if sequenceNumber message =? 0 then chunk message
                 else sequenceNumber message))].
Proof.
  intros Hm Hnode Hdata marked cleared.
  destruct m as [|c m]; [contradiction|].
  assert (Hslot : pendingMarkFromServerRef cleared = Some (String c m)) by reflexivity.
  assert (Hn : ulawDecoderNodeRef cleared = true) by exact Hnode.
  split; [exact Hslot|].
  cbn [_handleWebSocketMessage].
  destruct (processMediaMessage_forwards atob cleared message muLawData Hn Hdata)
    as (Hf & _).
  rewrite Hslot in Hf.
  destruct (processMediaMessage atob cleared message). exact Hf.
Qed.

Lemma receive_decoder (s : System.state) (event : Inbound) :
  System.decoder (fst (System.receive atob now s event))
  = fst (Decoder.handleMessages (System.decoder s)
           (toDecoder (snd (_handleWebSocketMessage atob now (System.phone s) event))))
  /\ System.phone (fst (System.receive atob now s event))
     = fst (_handleWebSocketMessage atob now (System.phone s) event).
Proof.
  unfold System.receive.
  destruct (_handleWebSocketMessage atob now (System.phone s) event) as [ph effects].
  cbn [fst snd].
  destruct (Decoder.handleMessages (System.decoder s) (toDecoder effects)).
  split; reflexivity.
Qed.

(** X28.  End to end: a mark envelope followed by a media frame, received
    while the worklet is idle, queues one buffer carrying the marker;
    the calls that follow play its samples, and the mark envelope of
    that name is sent back once, by the call after the last of its
    quanta and not before. *)
Theorem marked_frame_is_echoed_after_playing
  (s : System.state) (m : string) (message : MediaMessage)
  (muLawData : list Z) (n k : nat) :
  (0 < n)%nat ->
  m <> EmptyString ->
  wsRef (System.phone s) = Some OPEN ->
  ulawDecoderNodeRef (System.phone s) = true ->
  base64ToUint8Array atob (payload message) = returned muLawData ->
  Decoder.currentBuffer (System.decoder s) = None ->
  Decoder.currentMark (System.decoder s) = None ->
  Decoder.bufferQueue (System.decoder s) = [] ->
  let s1 := fst (System.receive atob now s (mark (Some m))) in
  let s2 := fst (System.receive atob now s1 (media message)) in
  let results :=
    snd (Decoder.run (System.decoder s2) (repeat (Timeline.zeros n) k)) in
  let marks :=
    filter (isMarkNamed m)
      (sent (System.report now (System.phone s2) (Timeline.postsOf results))) in
  map Decoder.Buffer.data (Decoder.bufferQueue (System.decoder s2)) = [muLawData]
  /\ map Decoder.Buffer.markName (Decoder.bufferQueue (System.decoder s2)) = [Some m]
  /\ Timeline.written results
     = firstn (k * n) (Timeline.padded n muLawData ++ Timeline.zeros (k * n))
  /\ ((k <= Timeline.callsOf n muLawData)%nat -> marks = [])
  /\ ((Timeline.callsOf n muLawData < k)%nat ->
      marks = [markEnvelope (streamSidRef (System.phone s)) now m]).
Proof.
  intros Hn Hm Hws Hnode Hdata Hcur Hmark Hq s1 s2 results marks.
  destruct m as [|c m]; [contradiction|].
  destruct (receive_decoder s (mark (Some (String c m)))) as (Hd1 & Hp1).
  fold s1 in Hd1, Hp1. cbn [_handleWebSocketMessage fst snd toDecoder flat_map app
    Decoder.handleMessages] in Hd1, Hp1.
  assert (Hn1 : ulawDecoderNodeRef (System.phone s1) = true) by (rewrite Hp1; exact Hnode).
  destruct (receive_decoder s1 (media message)) as (Hd2 & Hp2).
  fold s2 in Hd2, Hp2. cbn [_handleWebSocketMessage] in Hd2, Hp2.
  destruct (processMediaMessage_forwards atob (System.phone s1) message muLawData
              Hn1 Hdata) as (Hf & Hs).
  destruct (processMediaMessage atob (System.phone s1) message) as [ph2 eff2].
  cbn [fst snd] in Hd2, Hp2, Hf, Hs.
  change (toDecoder (addLog "Received media" info :: eff2)) with (toDecoder eff2) in Hd2.
  rewrite Hf, Hp1 in Hd2. cbn [setPendingMarkFromServerRef pendingMarkFromServerRef] in Hd2.
  set (number := if sequenceNumber message =? 0 then chunk message
                 else sequenceNumber message) in *.
  set (f := Decoder.Buffer.mk muLawData (Some (String c m))
              (if number =? 0 then Decoder.sequenceNumber (System.decoder s)
               else number)).
  assert (Hqueue : Decoder.bufferQueue (System.decoder s2) = [] ++ f :: []).
  { rewrite Hd2, Hd1. cbn [Decoder.handleMessages Decoder.handleMessage].
    rewrite Hq. unfold f. destruct (number =? 0); reflexivity. }
  assert (Hcur2 : Decoder.currentBuffer (System.decoder s2) = None).
  { rewrite Hd2, Hd1. cbn [Decoder.handleMessages Decoder.handleMessage].
    destruct (number =? 0); exact Hcur. }
  assert (Hmark2 : Decoder.currentMark (System.decoder s2) <> Some (String c m)).
  { rewrite Hd2, Hd1. cbn [Decoder.handleMessages Decoder.handleMessage].
    destruct (number =? 0); cbn; rewrite Hmark; discriminate. }
  assert (Hphone : wsRef (System.phone s2) = Some OPEN
                   /\ streamSidRef (System.phone s2) = streamSidRef (System.phone s)).
  { rewrite Hp2, Hs, Hp1. split; [exact Hws | reflexivity]. }
  destruct Hphone as (Hws2 & Hsid2).
  destruct (run_reports n k (System.decoder s2) [] f [] (String c m) Hn Hqueue
              eq_refl Hmark2 ltac:(intros g [])) as (Hbefore & Hafter & _).
  fold results in Hbefore, Hafter.
  assert (Hcalls : Timeline.callsToPlay n (System.decoder s2) ([] ++ [f])
                   = Timeline.callsOf n muLawData).
  { unfold Timeline.callsToPlay, Timeline.currentCalls. rewrite Hcur2.
    unfold list_sum, f. cbn [app map fold_right length Decoder.Buffer.data]. lia. }
  rewrite Hcalls in Hbefore, Hafter.
  assert (Hmarks : marks = repeat (markEnvelope (streamSidRef (System.phone s2)) now (String c m))
                             (Timeline.reportsOf (String c m) results)).
  { apply marks_of_reports; [exact Hws2 | discriminate]. }
  rewrite Hsid2 in Hmarks.
  split; [now rewrite Hqueue|]. split; [now rewrite Hqueue|]. split.
  - unfold results. rewrite run_written by assumption.
    rewrite Hqueue. unfold Timeline.stream. cbn [app map concat Decoder.Buffer.data f].
    now rewrite app_nil_r.
  - split; intros Hk; rewrite Hmarks.
    + now rewrite (Hbefore Hk).
    + now rewrite (Hafter Hk).
Qed.
End SessionProofs.

Section SessionWitnesses.
Import Phone.

Lemma disconnect_releases_everything_witness :
  wsRef (fst (_disconnectFromCall Scenario.active)) = None
  /\ audioContextRef (fst (_disconnectFromCall Scenario.active)) = None
  /\ ulawDecoderNodeRef (fst (_disconnectFromCall Scenario.active)) = false.
Proof.
  pose proof (disconnect_releases_everything Scenario.active eq_refl)
    as (_ & H1 & H2 & H3 & _).
  repeat split; assumption.
Defined.

Lemma disconnected_session_is_inert_witness :
  sent (snd (_handleWebSocketMessage Scenario.atob Scenario.now
               (fst (_disconnectFromCall Scenario.active)) clearPlayback)) = []
  /\ sent (decoderOnMessage Scenario.now
             (fst (_disconnectFromCall Scenario.active))
             (Decoder.bufferProcessed (Some "first"%string))) = [].
Proof.
  pose proof (disconnected_session_is_inert Scenario.atob Scenario.now
                (fst (_disconnectFromCall Scenario.active)) clearPlayback
                (Decoder.bufferProcessed (Some "first"%string)) eq_refl eq_refl)
    as (H1 & _ & H3 & _).
  split; assumption.
Defined.

Lemma unforwarded_frame_keeps_the_mark_witness :
  fst (_handleWebSocketMessage Scenario.atob Scenario.now Scenario.active
         (media (mkMediaMessage 1 1 "????")))
  = Scenario.active.
Proof.
  exact (proj1 (unforwarded_frame_keeps_the_mark Scenario.atob Scenario.now
                  Scenario.active (mkMediaMessage 1 1 "????")
                  (mkMediaMessage 2 2 "AAEC")
                  "The string to be decoded is not correctly encoded."
                  [0; 1; 2] (or_introl eq_refl))).
Defined.

Lemma unrecognised_envelopes_are_ignored_witness :
  fst (_handleWebSocketMessage Scenario.atob Scenario.now Scenario.active
         (unknown "dtmf"))
  = Scenario.active.
Proof.
  exact (proj1 (unrecognised_envelopes_are_ignored Scenario.atob Scenario.now
                  Scenario.active (unknown "dtmf")
                  (or_intror (or_introl (ex_intro _ "dtmf"%string eq_refl))))).
Defined.

Lemma clear_keeps_the_pending_mark_witness :
  let marked := fst (_handleWebSocketMessage Scenario.atob Scenario.now
                       Scenario.active (mark (Some "first"%string))) in
  let cleared := fst (_handleWebSocketMessage Scenario.atob Scenario.now
                        marked clearPlayback) in
  toDecoder (snd (_handleWebSocketMessage Scenario.atob Scenario.now cleared
                    (media (mkMediaMessage 1 1 "AAEC"))))
  = [Decoder.decode [0; 1; 2] (Some "first"%string) (Some 1)].
Proof.
  exact (proj2 (clear_keeps_the_pending_mark Scenario.atob Scenario.now
                  Scenario.active "first" (mkMediaMessage 1 1 "AAEC") [0; 1; 2]
                  ltac:(discriminate) eq_refl eq_refl)).
Defined.

Lemma marked_frame_is_echoed_after_playing_witness :
  let s1 := fst (System.receive Scenario.atob Scenario.now Scenario.session
                   (mark (Some "first"%string))) in
  let s2 := fst (System.receive Scenario.atob Scenario.now s1
                   (media (mkMediaMessage 1 1 "AAEC"))) in
  let results :=
    snd (Decoder.run (System.decoder s2) (repeat (Timeline.zeros 2) 5)) in
  filter (isMarkNamed "first")
    (sent (System.report Scenario.now (System.phone s2) (Timeline.postsOf results)))
  = [markEnvelope (Some "MZstream"%string) Scenario.now "first"].
Proof.
  pose proof (marked_frame_is_echoed_after_playing Scenario.atob Scenario.now
                Scenario.session "first" (mkMediaMessage 1 1 "AAEC") [0; 1; 2]
                2 5 (Nat.lt_0_succ 1) ltac:(discriminate)
                eq_refl eq_refl eq_refl eq_refl eq_refl eq_refl)
    as (_ & _ & _ & _ & Hafter).
  apply Hafter. vm_compute. lia.
Defined.
End SessionWitnesses.
